(** * QueryJDM: the query language front-end and evaluator

    A shallow embedding of [src/utils/parseQuery.ts] (lexer, parser),
    [src/utils/evaluateQuery.ts] (clause resolver, AND/OR combinator,
    tuple reconstruction) and [src/app/api/process-query/route.ts]
    (the caller-visible payload), followed by the properties of the
    specification that were checked against them.

    Conventions.
    - A JavaScript string is a [string]; its characters are the code
      units below 256, which covers the whole alphabet the lexer knows
      (ASCII and the accented Latin-1 letters).
    - A thrown [Error] is represented by its message ([Throw msg]).
    - [undefined] is [None] wherever the source can produce it (array
      destructuring past the end, [Map.get] of a missing key).
    - A [Map] or a [Set] is an association list or a list without
      duplicates, in insertion order, which is the order JavaScript
      iterates them in. *)

From Stdlib Require Import String Ascii List Bool Arith ZArith Lia.
From Stdlib Require Import DecimalString.
Import ListNotations.
Local Open Scope string_scope.
Local Open Scope list_scope.

Set Implicit Arguments.

(** ** Outcomes of fallible code *)

Inductive Except (A : Type) : Type :=
| Return (a : A)
| Throw (msg : string).
Arguments Return {A} a.
Arguments Throw {A} msg.

Definition bindE {A B : Type} (m : Except A) (k : A -> Except B) : Except B :=
  match m with
  | Return a => k a
  | Throw msg => Throw msg
  end.

Declare Scope except_scope.
Delimit Scope except_scope with exc.
Notation "x <- m ;; k" := (bindE m (fun x => k))
  (at level 61, m at next level, right associativity) : except_scope.
Notation "' p <- m ;; k" := (bindE m (fun x => match x with p => k end))
  (at level 61, p pattern, m at next level, right associativity) : except_scope.

(** ** The string operations of JavaScript the sources call *)

Module JS.

(** [s.startsWith(p)] *)
Definition startsWith (s p : string) : bool := String.prefix p s.

(** [s.includes(sub)] *)
Fixpoint includes (s sub : string) : bool :=
  match s with
  | EmptyString => String.prefix sub EmptyString
  | String _ s' => String.prefix sub s || includes s' sub
  end.

(** [s.replace(/[class]/, '')] without the [g] flag, and [s.replace(c, '')]
    for a one-character string [c]: only the FIRST match is removed. *)
Fixpoint remove_first (p : ascii -> bool) (s : string) : string :=
  match s with
  | EmptyString => EmptyString
  | String c s' => if p c then s' else String c (remove_first p s')
  end.

(** [s.replaceAll(/[class]/g, '')] and [s.replaceAll(c, '')]: every match
    is removed. *)
Fixpoint remove_all (p : ascii -> bool) (s : string) : string :=
  match s with
  | EmptyString => EmptyString
  | String c s' => if p c then remove_all p s' else String c (remove_all p s')
  end.

(** [s.split(sep)] for a non-empty separator: the pieces between the
    successive, non-overlapping occurrences of [sep], scanned from the
    left; [skip] counts the characters of a matched separator that are
    still to be passed over. *)
Fixpoint split_go (sep s acc : string) (skip : nat) : list string :=
  match s with
  | EmptyString => [acc]
  | String c s' =>
      match skip with
      | S k => split_go sep s' acc k
      | O =>
          if String.prefix sep s
          then acc :: split_go sep s' EmptyString (String.length sep - 1)
          else split_go sep s' (acc ++ String c EmptyString) 0
      end
  end.

Definition split (s sep : string) : list string := split_go sep s EmptyString 0.

(** [l.join(sep)] on an array whose holes and [undefined] entries print as
    the empty string. *)
Definition join (l : list (option string)) (sep : string) : string :=
  String.concat sep (map (fun o => match o with Some s => s | None => EmptyString end) l).

(** [String(n)] for an integer [n]. *)
Definition number_toString (n : Z) : string := NilZero.string_of_int (Z.to_int n).

(** [`${o}`] for a value that may be [undefined]. *)
Definition template (o : option string) : string :=
  match o with Some s => s | None => "undefined" end.

(** [Array.from(new Set(l))]: first occurrences, in order. *)
Fixpoint dedupe {A : Type} (eqb : A -> A -> bool) (l : list A) : list A :=
  match l with
  | [] => []
  | x :: l' => x :: filter (fun y => negb (eqb x y)) (dedupe eqb l')
  end.

End JS.

(** ** Tokens and syntax trees ([parseQuery.ts], lines 3-77) *)

Inductive TokenTypeValue : Type :=
| VARIABLE | RELATION | ENTITY | AND | OR | WEIGHT_PARAM | EOF | GREP.

(** The string each member of [TokenType] stands for. *)
Definition TokenType_text (t : TokenTypeValue) : string :=
  match t with
  | VARIABLE => "VARIABLE" | RELATION => "RELATION" | ENTITY => "ENTITY"
  | AND => "AND" | OR => "OR" | WEIGHT_PARAM => "WEIGHT_PARAM"
  | EOF => "EOF" | GREP => "GREP"
  end.

Definition TokenType_eqb (a b : TokenTypeValue) : bool :=
  match a, b with
  | VARIABLE, VARIABLE | RELATION, RELATION | ENTITY, ENTITY | AND, AND
  | OR, OR | WEIGHT_PARAM, WEIGHT_PARAM | EOF, EOF | GREP, GREP => true
  | _, _ => false
  end.

Record Token : Type := createToken {
  type : TokenTypeValue;
  value : string;
  position : nat
}.

Inductive Operator : Type := op_AND | op_OR.

Record SimpleQuery : Type := mkSimpleQuery {
  subject : Token;
  relation : Token;
  object : Token;
  weightParam : option Token;
  grep : option Token;
  negated : bool
}.

Definition createSimpleQuery (subject relation object : Token)
    (weightParam grep : option Token) (negated : bool) : SimpleQuery :=
  mkSimpleQuery subject relation object weightParam grep negated.

Inductive ASTNode : Type :=
| Simple (q : SimpleQuery)
| CompoundQuery (left : ASTNode) (operator : Operator) (right : ASTNode).

Definition createCompoundQuery (left : ASTNode) (operator : Operator)
    (right : ASTNode) : ASTNode :=
  CompoundQuery left operator right.

(** ** The lexer ([createLexer], lines 80-182) *)

Module Lexer.

(** The closure state of [createLexer]: [pos] is [position] and [rest] is
    [input.slice(position)], so that [currentChar] is the head of [rest]
    and [null] when [rest] is empty. *)
Record state : Type := mk { pos : nat; rest : string }.

Definition createLexer (input : string) : state := mk 0 input.

Definition code (c : ascii) : nat := nat_of_ascii c.

Definition between (lo hi : nat) (c : ascii) : bool :=
  Nat.leb lo (code c) && Nat.leb (code c) hi.

(** [/\s/]: tab, line feed, vertical tab, form feed, carriage return,
    space and the no-break space. *)
Definition is_space (c : ascii) : bool :=
  between 9 13 c || Nat.eqb (code c) 32 || Nat.eqb (code c) 160.

(** [/[a-zA-Z]/] *)
Definition is_letter (c : ascii) : bool :=
  between 97 122 c || between 65 90 c.

Definition is_digit (c : ascii) : bool := between 48 57 c.

Fixpoint mem_char (c : ascii) (s : string) : bool :=
  match s with
  | EmptyString => false
  | String d s' => Ascii.eqb c d || mem_char c s'
  end.

(** The punctuation of the identifier class of [readIdentifier], the
    double quote (code 34) apart. *)
Definition identifier_punctuation : string := "_$<>.=*?+^|[](){}/-!:;,@#%&'~`".

(** The accented letters of the class, by code unit. *)
Definition identifier_accented : list nat :=
  [233; 232; 234; 235; 224; 226; 228; 238; 239; 244; 246; 249; 251; 252; 231;
   201; 200; 202; 203; 192; 194; 196; 206; 207; 212; 214; 217; 219; 220; 199].

Definition is_identifier_char (c : ascii) : bool :=
  is_letter c || is_digit c || mem_char c identifier_punctuation
  || Nat.eqb (code c) 34 || existsb (Nat.eqb (code c)) identifier_accented.

(** [skipWhitespace]: [advance] while the current character is a space. *)
Fixpoint skipWhitespace_loop (rest : string) (pos : nat) : state :=
  match rest with
  | String currentChar rest' =>
      if is_space currentChar then skipWhitespace_loop rest' (S pos)
      else mk pos rest
  | EmptyString => mk pos rest
  end.

Definition skipWhitespace (l : state) : state := skipWhitespace_loop (rest l) (pos l).

(** [readIdentifier]: append the current character and [advance] while it
    belongs to the identifier class. *)
Fixpoint readIdentifier_loop (rest : string) (pos : nat) (result : string)
    : string * state :=
  match rest with
  | String currentChar rest' =>
      if is_identifier_char currentChar
      then readIdentifier_loop rest' (S pos) (result ++ String currentChar EmptyString)
      else (result, mk pos rest)
  | EmptyString => (result, mk pos rest)
  end.

Definition readIdentifier (l : state) : string * state :=
  readIdentifier_loop (rest l) (pos l) EmptyString.

(** [position += n; currentChar = input[position] or null] *)
Fixpoint drop (n : nat) (s : string) : string :=
  match n, s with
  | S k, String _ s' => drop k s'
  | _, _ => s
  end.

Definition identifierToken (t : TokenTypeValue) (l : state) : Except (Token * state) :=
  let startPos := pos l in
  let (identifier, l') := readIdentifier l in
  Return (createToken t identifier startPos, l').

(** [getNextToken].  The [while] loop of the source is entered at most
    twice: a space makes it call [skipWhitespace] and [continue], after
    which the current character is no space; [skipWhitespace] does nothing
    when the current character is no space, so it is called first here. *)
Definition getNextToken (l0 : state) : Except (Token * state) :=
  let l := skipWhitespace l0 in
  match rest l with
  | EmptyString => Return (createToken EOF EmptyString (pos l), l)
  | String currentChar after =>
      if Ascii.eqb currentChar "$" then identifierToken VARIABLE l
      else if Ascii.eqb currentChar "r" && String.prefix "_" after
      then identifierToken RELATION l
      else if Ascii.eqb currentChar "!" && String.prefix "r_" after
      then identifierToken RELATION l
      else if Ascii.eqb currentChar "<" || Ascii.eqb currentChar ">"
              || Ascii.eqb currentChar "="
      then identifierToken WEIGHT_PARAM l
      else if Ascii.eqb currentChar "/" then identifierToken GREP l
      else if Ascii.eqb currentChar "A" && String.prefix "AND" (rest l)
      then Return (createToken AND "AND" (pos l), mk (pos l + 3) (drop 3 (rest l)))
      else if Ascii.eqb currentChar "O" && String.prefix "OR" (rest l)
      then Return (createToken OR "OR" (pos l), mk (pos l + 2) (drop 2 (rest l)))
      else if is_letter currentChar then identifierToken ENTITY l
      else Throw ("Unexpected character: " ++ String currentChar EmptyString)
  end.

End Lexer.

(** ** The parser ([createParser], lines 185-280)

    [createParser] takes the lexer as an object with one method; the
    parser is therefore written over any type of lexer states with a
    [getNextToken]. *)

Module Parser.

Section WithLexer.

Variable L : Type.
Variable getNextToken : L -> Except (Token * L).

Local Open Scope except_scope.

(** The closure state of [createParser]: the look-ahead token and the
    lexer it was read from. *)
Record state : Type := mk { currentToken : Token; lexer : L }.

Definition createParser (lexer : L) : Except state :=
  '(t, l) <- getNextToken lexer ;; Return (mk t l).

Definition eat (tokenType : TokenTypeValue) (p : state) : Except state :=
  if TokenType_eqb (type (currentToken p)) tokenType
  then '(t, l) <- getNextToken (lexer p) ;; Return (mk t l)
  else Throw ("Unexpected token: " ++ value (currentToken p)
              ++ ". Expected type: " ++ TokenType_text tokenType).

(** The subject and the object: a variable or an entity. *)
Definition operand (what : string) (p : state) : Except (Token * state) :=
  match type (currentToken p) with
  | VARIABLE => p' <- eat VARIABLE p ;; Return (currentToken p, p')
  | ENTITY => p' <- eat ENTITY p ;; Return (currentToken p, p')
  | _ => Throw ("Expected variable or entity as " ++ what)
  end.

(** An optional token of the given type. *)
Definition optional (tokenType : TokenTypeValue) (p : state)
    : Except (option Token * state) :=
  if TokenType_eqb (type (currentToken p)) tokenType
  then p' <- eat tokenType p ;; Return (Some (currentToken p), p')
  else Return (None, p).

Definition simpleQuery (p : state) : Except (SimpleQuery * state) :=
  '(subject, p1) <- operand "subject" p ;;
  '(relation, negated, p2) <-
     match type (currentToken p1) with
     | RELATION =>
         p2 <- eat RELATION p1 ;;
         Return (currentToken p1, JS.startsWith (value (currentToken p1)) "!", p2)
     | _ => Throw "Expected relation"
     end ;;
  '(object, p3) <- operand "object" p2 ;;
  '(weightParam, p4) <- optional WEIGHT_PARAM p3 ;;
  '(grep, p5) <- optional GREP p4 ;;
  Return (createSimpleQuery subject relation object weightParam grep negated, p5).

(** One turn of the [while] loop of [expression]. *)
Definition expression_step (tokenType : TokenTypeValue) (operator : Operator)
    (node : ASTNode) (p : state) : Except (ASTNode * state) :=
  p1 <- eat tokenType p ;;
  '(q, p2) <- simpleQuery p1 ;;
  Return (createCompoundQuery node operator (Simple q), p2).

(** The [while] loop of [expression]; [None] when [fuel] turns were not
    enough to leave it. *)
Fixpoint expression_loop (fuel : nat) (node : ASTNode) (p : state)
    : option (Except (ASTNode * state)) :=
  let turn tokenType operator :=
    match fuel with
    | O => None
    | S fuel' =>
        match expression_step tokenType operator node p with
        | Return (node', p') => expression_loop fuel' node' p'
        | Throw msg => Some (Throw msg)
        end
    end in
  match type (currentToken p) with
  | AND => turn AND op_AND
  | OR => turn OR op_OR
  | _ => Some (Return (node, p))
  end.

Definition expression (fuel : nat) (p : state) : option (Except (ASTNode * state)) :=
  match simpleQuery p with
  | Return (q, p') => expression_loop fuel (Simple q) p'
  | Throw msg => Some (Throw msg)
  end.

Definition parse (fuel : nat) (p : state) : option (Except ASTNode) :=
  match expression fuel p with
  | Some (Return (result, p')) =>
      match type (currentToken p') with
      | EOF => Some (Return result)
      | _ => Some (Throw "Unexpected token after parsing expression")
      end
  | Some (Throw msg) => Some (Throw msg)
  | None => None
  end.

(** The tokens the lexer hands out from the state [l], up to the state
    [l']. *)
Fixpoint emits (l : L) (tokens : list Token) (l' : L) : Prop :=
  match tokens with
  | [] => l = l'
  | t :: tokens' =>
      exists l1, getNextToken l = Return (t, l1) /\ emits l1 tokens' l'
  end.

End WithLexer.

(** The tokens of a clause, and the clauses the grammar
    [(VAR|ENTITY) RELATION (VAR|ENTITY) [WEIGHT] [GREP]] describes. *)
Definition optionalToken (t : option Token) : list Token :=
  match t with Some t => [t] | None => [] end.

Definition clauseTokens (q : SimpleQuery) : list Token :=
  [subject q; relation q; object q]
  ++ optionalToken (weightParam q) ++ optionalToken (grep q).

Definition isOperand (t : Token) : Prop := type t = VARIABLE \/ type t = ENTITY.

Definition hasType (tokenType : TokenTypeValue) (t : option Token) : Prop :=
  match t with Some t => type t = tokenType | None => True end.

Record isClause (q : SimpleQuery) : Prop := mkIsClause {
  clause_subject : isOperand (subject q);
  clause_relation : type (relation q) = RELATION;
  clause_object : isOperand (object q);
  clause_weight : hasType WEIGHT_PARAM (weightParam q);
  clause_grep : hasType GREP (grep q);
  clause_negated : negated q = JS.startsWith (value (relation q)) "!"
}.

(** The operator an [AND] or [OR] token stands for. *)
Definition operatorOf (t : Token) : option Operator :=
  match type t with
  | AND => Some op_AND
  | OR => Some op_OR
  | _ => None
  end.

(** A chain [OP clause OP clause ...]: each operator token with the
    operator it stands for and the clause that follows it. *)
Definition link : Type := (Token * Operator * SimpleQuery)%type.

Definition isLink (k : link) : Prop :=
  let '(t, operator, q) := k in operatorOf t = Some operator /\ isClause q.

Definition linkTokens (k : link) : list Token :=
  let '(t, _, q) := k in t :: clauseTokens q.

Definition chainTokens (links : list link) : list Token := flat_map linkTokens links.

Definition foldLeft (node : ASTNode) (links : list link) : ASTNode :=
  fold_left (fun node (k : link) =>
    let '(_, operator, q) := k in createCompoundQuery node operator (Simple q))
    links node.

End Parser.

(** [astToString] (lines 283-289) *)
Fixpoint astToString (node : ASTNode) : string :=
  match node with
  | Simple q =>
      value (subject q) ++ " " ++ value (relation q) ++ " " ++ value (object q)
  | CompoundQuery l operator r =>
      "(" ++ astToString l ++ " "
      ++ match operator with op_AND => "AND" | op_OR => "OR" end
      ++ " " ++ astToString r ++ ")"
  end.

(** [parseQuery] of [createQueryEngine] (lines 293-297), with fuel for the
    loop of [expression].  Every turn of the loop consumes input, so one
    more turn than the query has characters is always enough
    ([ParserFacts.parseQuery_fuel_enough]). *)
Definition parseQuery_fuel (queryString : string) : option (Except ASTNode) :=
  match Parser.createParser Lexer.getNextToken (Lexer.createLexer queryString) with
  | Return parser => Parser.parse Lexer.getNextToken (S (String.length queryString)) parser
  | Throw msg => Some (Throw msg)
  end.

(** ** Bindings and graph data ([evaluateQuery.ts], lines 18-24) *)

(** A string or [undefined]: an element of a binding.  The declared type
    of [VariableContents] is [{ name: string; value: string[] }[]], but the
    projection at the end of [evaluateQuery] can store an [undefined]
    (a pair without a second component) into a [value]. *)
Definition jsstring : Type := option string.

Definition jsstring_eqb (a b : jsstring) : bool :=
  match a, b with
  | Some x, Some y => String.eqb x y
  | None, None => true
  | _, _ => false
  end.

Definition strings (l : list string) : list jsstring := map Some l.

Module Var.
Record t : Type := mk { name : string; value : list jsstring }.
End Var.

Definition VariableContents : Type := list Var.t.

Module Node.
Record t : Type := mk { id : Z; name : string; type : Z; w : Z }.
End Node.

Module Rel.
Record t : Type := mk { id : Z; node1 : Z; node2 : Z; type : Z; w : Z }.
End Rel.

Record ApiData : Type := mkApiData {
  nodes : list Node.t;
  relations : list Rel.t
}.

(** An entry of [relations_dict.json]. *)
Record CatalogEntry : Type := mkCatalogEntry { id : Z; code : string }.

Definition LIMIT : Z := 900.
Definition MIN_WEIGHT : Z := 30.
Definition MAX_WEIGHT : Z := 999999.

(** [minWeight] and [maxWeight] have type [string | number]. *)
Inductive Weight : Type :=
| WNumber (n : Z)
| WString (s : string).

(** [`${w}`] *)
Definition Weight_text (w : Weight) : string :=
  match w with
  | WNumber n => JS.number_toString n
  | WString s => s
  end.

Definition dquote : string := String (ascii_of_nat 34) EmptyString.

Definition is_comparison (c : ascii) : bool :=
  Ascii.eqb c "<" || Ascii.eqb c ">" || Ascii.eqb c "=".

(** Lines 126-130 of [evaluateSimpleQuery]: the weight band of a clause. *)
Definition weightBand (weightParam : option Token) : Weight * Weight :=
  let has (sub : string) :=
    match weightParam with
    | Some t => JS.includes (value t) sub
    | None => false
    end in
  let stripped :=
    match weightParam with
    | Some t => JS.remove_first is_comparison (value t)
    | None => EmptyString
    end in
  let minWeight := if has ">=" then WString stripped else WNumber MIN_WEIGHT in
  let maxWeight := if has "<=" then WString stripped else WNumber MAX_WEIGHT in
  match weightParam with
  | Some t =>
      if String.eqb (JS.remove_all Lexer.is_digit (value t)) "="
      then (WString stripped, WString stripped)
      else (minWeight, maxWeight)
  | None => (minWeight, maxWeight)
  end.

(** Line 125: [query.relation.value.replace('!', '')] *)
Definition relationCode (query : SimpleQuery) : string :=
  JS.remove_first (Ascii.eqb "!") (value (relation query)).

(** [existingVariables.find((v) => v.name === n)] *)
Definition findVar (n : string) (vars : VariableContents) : option Var.t :=
  find (fun v => String.eqb (Var.name v) n) vars.

(** [l.includes(x)] and [new Set(l).has(x)] *)
Definition includes (l : list jsstring) (x : jsstring) : bool :=
  existsb (jsstring_eqb x) l.

Definition pair_text (a b : jsstring) : jsstring :=
  Some (JS.template a ++ "," ++ JS.template b)%string.

(** ** The clause resolver ([evaluateSimpleQuery], lines 27-408)

    What the resolver does not own is taken as given: the relation
    catalog [relations_dict.json], the graph service seen through
    [handleAPICall] and the regular-expression engine.

    [handleAPICall] answers from a cache or from the network and turns a
    failed call into empty data; within one evaluation its answer is
    taken to be a function of the URL.

    The lookups a clause starts with [Promise.all] run side by side.
    Each callback sets its key of [relatedEntitiesMap] once its own
    lookup has answered, so the [Map] has its keys, the distinct values
    looked up, in the order in which the lookups complete; the cache, the
    network and the scheduler decide that order, a lookup answered from
    the cache coming before one that goes to the network.  It is taken as
    given too: a completion order tells it for the clause, the bindings
    and the values at hand. *)

Definition CompletionOrder : Type :=
  SimpleQuery -> VariableContents -> list jsstring -> list jsstring.

(** What every completion order is: the distinct values looked up, in
    some order. *)
Definition isCompletionOrder (completion : CompletionOrder) : Prop :=
  forall (query : SimpleQuery) (existingVariables : VariableContents)
         (values : list jsstring),
    NoDup (completion query existingVariables values)
    /\ forall key,
         In key (completion query existingVariables values) <-> In key values.

Section Resolver.

Variable relationsData : list CatalogEntry.
Variable handleAPICall : string -> ApiData.

(** [new RegExp(pattern)], which throws on a malformed pattern, and
    [regex.test(s)]. *)
Variable RegExp : Type.
Variable RegExp_new : string -> Except RegExp.
Variable RegExp_test : RegExp -> string -> bool.

(** The keys of [relatedEntitiesMap] in the order of the [Map]. *)
Variable completion : CompletionOrder.

Local Open Scope except_scope.

Definition relations_url (direction entity : string) (relationId : Z)
    (minWeight maxWeight : Weight) : string :=
  ("https://jdm-api.demo.lirmm.fr/v0/relations/" ++ direction ++ "/" ++ entity
   ++ "?types_ids=" ++ JS.number_toString relationId
   ++ "&min_weight=" ++ Weight_text minWeight
   ++ "&max_weight=" ++ Weight_text maxWeight
   ++ "&limit=" ++ JS.number_toString LIMIT ++ "&type=1")%string.

Definition nodes_url : string :=
  ("https://jdm-api.demo.lirmm.fr/v0/nodes?type=1&limit="
   ++ JS.number_toString LIMIT)%string.

(** [regex ? l.filter((s) => regex.test(s)) : l]; [test] turns its
    argument into a string first. *)
Definition grepFilter (regex : option RegExp) (l : list jsstring) : list jsstring :=
  match regex with
  | Some r => filter (fun s => RegExp_test r (JS.template s)) l
  | None => l
  end.

(** [data.nodes.filter((node) => node.type === 1).map((node) => node.name)] *)
Definition lexicalNames (data : ApiData) : list jsstring :=
  map (fun node => Some (Node.name node))
      (filter (fun node => Z.eqb (Node.type node) 1) (nodes data)).

(** [new Map(nodes.map((node) => [node.id, node.name])).get(id)]: the last
    node with that id wins. *)
Definition nodeMap_get (nodes : list Node.t) (id : Z) : option string :=
  option_map Node.name (find (fun node => Z.eqb (Node.id node) id) (rev nodes)).

(** [getRelatedEntities] (lines 52-77) *)
Definition getRelatedEntities (val : jsstring) (relationId : Z)
    (minWeight maxWeight : Weight) (regex : option RegExp) : list jsstring :=
  let apiUrl := relations_url "from" (JS.template val) relationId minWeight maxWeight in
  let data := handleAPICall apiUrl in
  let relatedEntities :=
    filter (fun name => match name with Some _ => true | None => false end)
      (map (fun rel => nodeMap_get (nodes data) (Rel.node2 rel))
         (filter (fun rel => Z.eqb (Rel.type rel) relationId) (relations data))) in
  grepFilter regex relatedEntities.

(** The names reached towards [val]: the body of the callbacks of lines
    268-273 and 351-356. *)
Definition getRelatingEntities (val : jsstring) (relationId : Z)
    (minWeight maxWeight : Weight) : list jsstring :=
  lexicalNames (handleAPICall
    (relations_url "to" (JS.template val) relationId minWeight maxWeight)).

(** [processVariableToVariableRelation] (lines 80-116) *)
Definition processVariableToVariableRelation (leftVarName : string)
    (leftVarValues : list jsstring) (rightVarName : string)
    (rightVarValues : list jsstring) (relationId : Z)
    (minWeight maxWeight : Weight) (regex : option RegExp) : VariableContents :=
  let resultVarName := (leftVarName ++ "_" ++ rightVarName ++ "_pairs")%string in
  let validPairs :=
    flat_map (fun leftValue =>
      flat_map (fun rightValue =>
        if includes rightVarValues rightValue
        then [pair_text leftValue rightValue] else [])
        (getRelatedEntities leftValue relationId minWeight maxWeight regex))
      leftVarValues in
  [Var.mk resultVarName validPairs].

(** The exhaustive scan of lines 294-320 and 369-396: the relations out of
    every node of the default universe, each node name once. *)
Definition scanAllPairs (relationId : Z) (minWeight maxWeight : Weight)
    (regex : option RegExp) : list jsstring :=
  let nodesData := handleAPICall nodes_url in
  let test (s : string) :=
    match regex with Some r => RegExp_test r s | None => true end in
  flat_map (fun nodeName =>
    let data := handleAPICall
      (relations_url "from" nodeName relationId minWeight maxWeight) in
    flat_map (fun rel =>
      if Z.eqb (Rel.type rel) relationId then
        match nodeMap_get (nodes nodesData) (Rel.node2 rel) with
        | Some rightName =>
            if negb (String.eqb rightName EmptyString)
               && test nodeName && test rightName
            then [pair_text (Some nodeName) (Some rightName)] else []
        | None => []
        end
      else [])
      (relations data))
    (JS.dedupe String.eqb (map Node.name (nodes nodesData))).

(** The [Set] of all the values stored in a [Map] with the keys [keys],
    gathered in the order of the [Map]. *)
Definition allValuesOf (related : jsstring -> list jsstring) (keys : list jsstring)
    : list jsstring :=
  JS.dedupe jsstring_eqb (flat_map related keys).

(** Case 3, [$x r_relation $y] (lines 206-401). *)
Definition variableToVariable (query : SimpleQuery)
    (existingVariables : VariableContents) (relationId : Z)
    (minWeight maxWeight : Weight) (regex : option RegExp) : VariableContents :=
  let subjectValue := value (subject query) in
  let objectValue := value (object query) in
  let leftVar := findVar subjectValue existingVariables in
  let rightVar := findVar objectValue existingVariables in
  let from leftValue :=
    getRelatedEntities leftValue relationId minWeight maxWeight regex in
  let to rightValue :=
    getRelatingEntities rightValue relationId minWeight maxWeight in
  (* the keys of relatedEntitiesMap, filled from the values of the one
     bound variable *)
  let keysOf values := completion query existingVariables values in
  let unless (found : bool) (a b : jsstring) :=
    if found then [] else [pair_text a b] in
  if negated query then
    let nameOr (v : option Var.t) (dflt : string) :=
      match v with
      | Some v => if String.eqb (Var.name v) EmptyString then dflt else Var.name v
      | None => dflt
      end in
    let resultVarName :=
      (nameOr leftVar subjectValue ++ "_" ++ nameOr rightVar objectValue ++ "_pairs")%string in
    let validPairs :=
      match leftVar, rightVar with
      | Some leftVar, Some rightVar =>
          flat_map (fun leftValue =>
            flat_map (fun rightValue =>
              unless (includes (from leftValue) rightValue) leftValue rightValue)
              (Var.value rightVar))
            (Var.value leftVar)
      | Some leftVar, None =>
          let allRightValues := allValuesOf from (keysOf (Var.value leftVar)) in
          flat_map (fun leftValue =>
            flat_map (fun rightValue =>
              unless (includes (from leftValue) rightValue) leftValue rightValue)
              allRightValues)
            (Var.value leftVar)
      | None, Some rightVar =>
          let allLeftValues := allValuesOf to (keysOf (Var.value rightVar)) in
          flat_map (fun leftValue =>
            flat_map (fun rightValue =>
              unless (includes (to rightValue) leftValue) leftValue rightValue)
              (Var.value rightVar))
            allLeftValues
      | None, None => scanAllPairs relationId minWeight maxWeight regex
      end in
    [Var.mk resultVarName validPairs]
  else
    match leftVar, rightVar with
    | Some leftVar, Some rightVar =>
        processVariableToVariableRelation subjectValue (Var.value leftVar)
          objectValue (Var.value rightVar) relationId minWeight maxWeight regex
    | Some leftVar, None =>
        [Var.mk (subjectValue ++ "_" ++ objectValue ++ "_pairs")%string
           (flat_map (fun leftValue =>
              map (fun rightValue => pair_text leftValue rightValue) (from leftValue))
              (keysOf (Var.value leftVar)))]
    | None, Some rightVar =>
        [Var.mk (subjectValue ++ "_" ++ objectValue ++ "_pairs")%string
           (flat_map (fun rightValue =>
              map (fun leftValue => pair_text leftValue rightValue) (to rightValue))
              (keysOf (Var.value rightVar)))]
    | None, None =>
        [Var.mk (subjectValue ++ "_" ++ objectValue ++ "_pairs")%string
           (scanAllPairs relationId minWeight maxWeight regex)]
    end.

(** Cases 1 and 2 (lines 140-204): one variable, bound from the names
    related to the entity, or, when the clause is negated, to what is left
    of its earlier values once those names are taken out. *)
Definition variableAndEntity (query : SimpleQuery)
    (existingVariables : VariableContents) (variable : string) (apiUrl : string)
    (regex : option RegExp) : VariableContents :=
  let data := handleAPICall apiUrl in
  if negated query then
    let matchingValues := lexicalNames data in
    let allValues :=
      match findVar variable existingVariables with
      | Some v => Var.value v
      | None => []
      end in
    let newValues := filter (fun value => negb (includes matchingValues value)) allValues in
    [Var.mk variable (grepFilter regex newValues)]
  else
    [Var.mk variable (grepFilter regex (lexicalNames data))].

(** Line 131: the filter of the clause, compiled from the text of the
    [GREP] token without its slashes. *)
Definition compileGrep (query : SimpleQuery) : Except (option RegExp) :=
  match grep query with
  | Some t =>
      if String.eqb (value t) EmptyString then Return None
      else r <- RegExp_new (JS.remove_all (Ascii.eqb "/") (value t)) ;;
           Return (Some r)
  | None => Return None
  end.

Definition evaluateSimpleQuery (query : SimpleQuery)
    (existingVariables : VariableContents) : Except VariableContents :=
  let subjectValue := value (subject query) in
  let objectValue := value (object query) in
  let relation := relationCode query in
  let (minWeight, maxWeight) := weightBand (weightParam query) in
  regex <- compileGrep query ;;
  match find (fun v => String.eqb (code v) relation) relationsData with
  | None =>
      Throw ("Relation " ++ dquote ++ relation ++ dquote ++ " not recognized")
  | Some entry =>
      let relationId := id entry in
      match type (subject query), type (object query) with
      | VARIABLE, VARIABLE =>
          (* every branch of case 3 returns *)
          Return (variableToVariable query existingVariables relationId
                    minWeight maxWeight regex)
      | subjectType, objectType =>
          let '(apiUrl, variables) :=
            match subjectType, objectType with
            | VARIABLE, ENTITY =>
                let apiUrl :=
                  relations_url "to" objectValue relationId minWeight maxWeight in
                (apiUrl, variableAndEntity query existingVariables subjectValue apiUrl regex)
            | ENTITY, VARIABLE =>
                let apiUrl :=
                  relations_url "from" subjectValue relationId minWeight maxWeight in
                (apiUrl, variableAndEntity query existingVariables objectValue apiUrl regex)
            | _, _ => (EmptyString, [])
            end in
          if String.eqb apiUrl EmptyString && Nat.eqb (List.length variables) 0
          then Throw ("Invalid API URL " ++ apiUrl ++ " or case not implemented")
          else Return variables
      end
  end.

End Resolver.

(** ** JavaScript containers used by the tuple reconstruction *)

(** A [Map]: an association list in insertion order; [set] on a key that
    is present keeps its place. *)
Module JSMap.
Section WithKey.
Variables K V : Type.
Variable eqb : K -> K -> bool.

Definition t : Type := list (K * V).

Definition get (m : t) (k : K) : option V :=
  option_map snd (find (fun e => eqb (fst e) k) m).

Definition has (m : t) (k : K) : bool :=
  existsb (fun e => eqb (fst e) k) m.

Fixpoint set (m : t) (k : K) (v : V) : t :=
  match m with
  | [] => [(k, v)]
  | (k', v') :: m' => if eqb k' k then (k, v) :: m' else (k', v') :: set m' k v
  end.

End WithKey.
End JSMap.

(** A plain object used as a record: its own keys come in the order
    [Object.values] follows, the array indices first, in ascending order,
    then the other keys in the order they were created. *)
Module Obj.

Definition t : Type := list (string * jsstring).

Fixpoint digits (s : string) (acc : N) : option N :=
  match s with
  | EmptyString => Some acc
  | String c s' =>
      if Lexer.is_digit c
      then digits s' (acc * 10 + (N.of_nat (Lexer.code c) - 48))%N
      else None
  end.

(** The array index a key is, if it is one: a canonical decimal numeral
    below [2^32 - 1]. *)
Definition arrayIndex (k : string) : option N :=
  match k with
  | EmptyString => None
  | String c s' =>
      if Ascii.eqb c "0" && negb (String.eqb s' EmptyString) then None
      else match digits k 0 with
           | Some n => if (n <=? 4294967294)%N then Some n else None
           | None => None
           end
  end.

(** A new array-index key goes before the first key that is no array
    index or a greater one. *)
Fixpoint insertIndex (o : t) (n : N) (k : string) (v : jsstring) : t :=
  match o with
  | [] => [(k, v)]
  | (k', v') :: o' =>
      match arrayIndex k' with
      | Some n' => if (n' <? n)%N then (k', v') :: insertIndex o' n k v
                   else (k, v) :: o
      | None => (k, v) :: o
      end
  end.

(** [o[k] = v] *)
Definition set (o : t) (k : string) (v : jsstring) : t :=
  if JSMap.has String.eqb o k then JSMap.set String.eqb o k v
  else match arrayIndex k with
       | Some n => insertIndex o n k v
       | None => o ++ [(k, v)]
       end.

(** [Object.values(o)] *)
Definition values (o : t) : list jsstring := map snd o.

End Obj.

(** ** Tuple reconstruction ([generateTuples], lines 414-557) *)

Module Tuples.

(** The message of the [TypeError] raised by [val.split(",")] when [val]
    is [undefined], in the wording of V8. *)
Definition TypeError_split : string :=
  "Cannot read properties of undefined (reading 'split')".

(** [a[i]] of an array of strings: [undefined] past the end. *)
Definition at_ (a : list string) (i : nat) : jsstring := nth_error a i.

(** [`${a}_${b}`]: the key of the pair relation from [a] to [b]. *)
Definition pairKey (a b : jsstring) : string :=
  (JS.template a ++ "_" ++ JS.template b)%string.

(** [val.split(",")] for every value of a pair binding. *)
Fixpoint splitPairs (vals : list jsstring) : Except (list (list string)) :=
  match vals with
  | [] => Return []
  | Some val :: vals' =>
      bindE (splitPairs vals') (fun pairs => Return (JS.split val "," :: pairs))
  | None :: _ => Throw TypeError_split
  end.

(** The three tables of the first pass. *)
Record tables : Type := mkTables {
  pairRelations : JSMap.t string (list (list string));
  variableValues : JSMap.t string (list jsstring);
  relationGraph : JSMap.t jsstring (list jsstring)
}.

Definition setAdd (s : list jsstring) (x : jsstring) : list jsstring :=
  if includes s x then s else s ++ [x].

(** Lines 422-436: one turn of the first pass.  [split] gives at least
    one piece, so [var1] is a string; [var2] is [undefined] when the name
    has no underscore before [_pairs]. *)
Definition collect (tb : tables) (v : Var.t) : Except tables :=
  if JS.includes (Var.name v) "_pairs" then
    let parts := JS.split (JS.template (at_ (JS.split (Var.name v) "_pairs") 0)) "_" in
    let var1 := at_ parts 0 in
    let var2 := at_ parts 1 in
    let key := pairKey var1 var2 in
    bindE (splitPairs (Var.value v)) (fun pairs =>
      let graph :=
        if JSMap.has jsstring_eqb (relationGraph tb) var1 then relationGraph tb
        else JSMap.set jsstring_eqb (relationGraph tb) var1 [] in
      let connections :=
        match JSMap.get jsstring_eqb graph var1 with
        | Some s => s
        | None => []
        end in
      Return (mkTables
        (JSMap.set String.eqb (pairRelations tb) key pairs)
        (variableValues tb)
        (JSMap.set jsstring_eqb graph var1 (setAdd connections var2))))
  else
    Return (mkTables
      (pairRelations tb)
      (JSMap.set String.eqb (variableValues tb) (Var.name v)
         (JS.dedupe jsstring_eqb (Var.value v)))
      (relationGraph tb)).

Fixpoint collectAll (tb : tables) (variables : VariableContents) : Except tables :=
  match variables with
  | [] => Return tb
  | v :: variables' => bindE (collect tb v) (fun tb' => collectAll tb' variables')
  end.

Section WithTables.

Variable tb : tables.

(** Lines 438-443 *)
Definition allVariables : list jsstring :=
  fold_left (fun acc entry =>
    let parts := JS.split (fst entry) "_" in
    setAdd (setAdd acc (at_ parts 0)) (at_ parts 1))
    (pairRelations tb) [].

(** Lines 445-466 *)
Definition findConnections (currentPath : list jsstring) : list jsstring :=
  match currentPath with
  | [] => allVariables
  | _ =>
      let lastVar := last currentPath None in
      let forward :=
        match JSMap.get jsstring_eqb (relationGraph tb) lastVar with
        | Some connections =>
            filter (fun connectedVar => negb (includes currentPath connectedVar))
              connections
        | None => []
        end in
      let backward :=
        flat_map (fun entry =>
          if negb (includes currentPath (fst entry)) && includes (snd entry) lastVar
          then [fst entry] else [])
          (relationGraph tb) in
      forward ++ backward
  end.

(** Lines 468-480.  [remaining] is [allVariables.size - currentPath.length]:
    the path grows by one variable at each call and is recorded when it
    has as many variables as there are. *)
Fixpoint buildChains (remaining : nat) (currentPath : list jsstring)
    : list (list jsstring) :=
  match remaining with
  | O => [currentPath]
  | S remaining' =>
      flat_map (fun nextVar =>
        if includes currentPath nextVar then []
        else buildChains remaining' (currentPath ++ [nextVar]))
        (findConnections currentPath)
  end.

(** Lines 482-489 *)
Definition chain : list jsstring :=
  match buildChains (List.length allVariables) [] with
  | c :: _ => c
  | [] => allVariables
  end.

(** Lines 507-520: the candidates of a variable. *)
Definition potentialValues (currentVar : jsstring) : list jsstring :=
  let named :=
    match currentVar with
    | Some n => JSMap.get String.eqb (variableValues tb) n
    | None => None
    end in
  match named with
  | Some values => values
  | None =>
      fold_left (fun allPossibleValues entry =>
        let parts := JS.split (fst entry) "_" in
        if jsstring_eqb (at_ parts 0) currentVar
        then fold_left (fun s pair => setAdd s (at_ pair 0)) (snd entry) allPossibleValues
        else if jsstring_eqb (at_ parts 1) currentVar
        then fold_left (fun s pair => setAdd s (at_ pair 1)) (snd entry) allPossibleValues
        else allPossibleValues)
        (pairRelations tb) []
  end.

(** The table holds the pair [(a, b)]. *)
Definition containsPair (table : list (list string)) (a b : jsstring) : Prop :=
  exists pair, In pair table /\ at_ pair 0 = a /\ at_ pair 1 = b.

(** [table.some(([from, to]) => from === a && to === b)] *)
Definition somePair (table : list (list string)) (a b : jsstring) : bool :=
  existsb (fun pair => jsstring_eqb (at_ pair 0) a && jsstring_eqb (at_ pair 1) b) table.

Definition tupleGet (currentTuple : JSMap.t jsstring jsstring) (k : jsstring)
    : jsstring :=
  match JSMap.get jsstring_eqb currentTuple k with
  | Some v => v
  | None => None
  end.

(** Lines 529-544: the test of a candidate against one earlier variable. *)
Definition compatible (currentTuple : JSMap.t jsstring jsstring)
    (currentVar value prevVar : jsstring) : bool :=
  let prevValue := tupleGet currentTuple prevVar in
  let forwardKey := pairKey prevVar currentVar in
  let backwardKey := pairKey currentVar prevVar in
  match JSMap.get String.eqb (pairRelations tb) forwardKey with
  | Some table => somePair table prevValue value
  | None =>
      match JSMap.get String.eqb (pairRelations tb) backwardKey with
      | Some table => somePair table value prevValue
      | None => true
      end
  end.

(** Lines 523-545: [isValid] after the loop over the earlier variables. *)
Definition isValid (assigned : list jsstring)
    (currentTuple : JSMap.t jsstring jsstring) (currentVar value : jsstring) : bool :=
  forallb (compatible currentTuple currentVar value) assigned.

(** Lines 496-500 *)
Definition labeledTuple (currentTuple : JSMap.t jsstring jsstring) : Obj.t :=
  fold_left (fun o entry => Obj.set o (JS.template (fst entry)) (snd entry))
    currentTuple [].

(** Lines 494-553: [buildTuples(index, currentTuple)], with [assigned] the
    variables [chain[0..index-1]] and [todo] the variables from
    [chain[index]] on. *)
Fixpoint buildTuples (assigned todo : list jsstring)
    (currentTuple : JSMap.t jsstring jsstring) : list Obj.t :=
  match todo with
  | [] => [labeledTuple currentTuple]
  | currentVar :: todo' =>
      flat_map (fun value =>
        if isValid assigned currentTuple currentVar value
        then buildTuples (assigned ++ [currentVar]) todo'
               (JSMap.set jsstring_eqb currentTuple currentVar value)
        else [])
        (potentialValues currentVar)
  end.

End WithTables.

Definition generateTuples (variables : VariableContents) : Except (list Obj.t) :=
  bindE (collectAll (mkTables [] [] []) variables) (fun tb =>
    Return (buildTuples tb [] (chain tb) [])).

End Tuples.

(** ** The combinator and the evaluator ([evaluateQuery], lines 560-667) *)

Record QueryOutcome : Type := mkOutcome {
  result : list jsstring;
  variables : VariableContents
}.

(** Lines 567-575: [newVar] takes the place of the first binding of its
    name, or is pushed. *)
Fixpoint mergeVariable (mergedVariables : VariableContents) (newVar : Var.t)
    : VariableContents :=
  match mergedVariables with
  | [] => [newVar]
  | v :: rest =>
      if String.eqb (Var.name v) (Var.name newVar) then newVar :: rest
      else v :: mergeVariable rest newVar
  end.

(** What the branch of an operator leaves: the value of a [return], or the
    [combinedVariables] the rest of the function goes on with. *)
Inductive Combined : Type :=
| Returned (outcome : QueryOutcome)
| Carry (combinedVariables : VariableContents).

Definition isEmpty {A : Type} (l : list A) : bool := Nat.eqb (List.length l) 0.

(** Lines 590-602: what the first loop of the [AND] branch pushes for one
    binding of the left side. *)
Definition intersectVariable (rightVariables : VariableContents) (leftVar : Var.t)
    : VariableContents :=
  match findVar (Var.name leftVar) rightVariables with
  | Some rightVar =>
      let intersection :=
        filter (fun value => includes (Var.value rightVar) value)
          (Var.value leftVar) in
      if Nat.ltb 0 (List.length intersection)
      then [Var.mk (Var.name leftVar) intersection]
      else []
  | None => [leftVar]
  end.

(** Lines 584-613 *)
Definition combineAND (leftResult rightResult : QueryOutcome) : Combined :=
  if isEmpty (variables leftResult) || isEmpty (variables rightResult)
  then Returned (mkOutcome [] [])
  else
    let shared :=
      flat_map (intersectVariable (variables rightResult)) (variables leftResult) in
    let rightOnly :=
      filter (fun rightVar =>
        negb (existsb (fun v => String.eqb (Var.name v) (Var.name rightVar))
                (variables leftResult)))
        (variables rightResult) in
    let combinedVariables := shared ++ rightOnly in
    if existsb (fun v => isEmpty (Var.value v)) combinedVariables
    then Returned (mkOutcome [] [])
    else Carry combinedVariables.

(** Lines 624-629: the binding of the same name takes the union, in the
    order of a [Set] built from both arrays; a new name is pushed. *)
Fixpoint unionVariable (combinedVariables : VariableContents) (rightVar : Var.t)
    : VariableContents :=
  match combinedVariables with
  | [] => [rightVar]
  | v :: rest =>
      if String.eqb (Var.name v) (Var.name rightVar)
      then Var.mk (Var.name v)
             (JS.dedupe jsstring_eqb (Var.value v ++ Var.value rightVar)) :: rest
      else v :: unionVariable rest rightVar
  end.

(** Bindings none of which is read as a pair binding. *)
Definition plain (vars : VariableContents) : Prop :=
  Forall (fun v => JS.includes (Var.name v) "_pairs" = false) vars.

(** [x] is a value of the first binding of the name [n]. *)
Definition holds (vars : VariableContents) (n : string) (x : jsstring) : Prop :=
  exists v, findVar n vars = Some v /\ In x (Var.value v).

(** Lines 614-631.  The source stores each union into the object of the
    left operand.  Such an object can also belong to the bindings a caller
    passed in, where it would be seen changed; the syntax trees of the
    parser have a clause as every right operand and are evaluated from no
    bindings, and then no changed object is read again. *)
Definition combineOR (leftResult rightResult : QueryOutcome) : Combined :=
  if isEmpty (variables leftResult) then Returned rightResult
  else if isEmpty (variables rightResult) then Returned leftResult
  else Carry (fold_left unionVariable (variables rightResult) (variables leftResult)).

(** [filteredVariables[i].value = values] for the first [i] whose binding
    is named [n], if there is one. *)
Fixpoint overwrite (filteredVariables : VariableContents) (n : jsstring)
    (values : list jsstring) : VariableContents :=
  match filteredVariables with
  | [] => []
  | v :: rest =>
      if jsstring_eqb (Some (Var.name v)) n then Var.mk (Var.name v) values :: rest
      else v :: overwrite rest n values
  end.

(** Lines 642-662: the projection of one pair binding on the plain
    bindings of its two variables. *)
Definition projectPair (filteredVariables : VariableContents) (pairVar : Var.t)
    : Except VariableContents :=
  let parts :=
    JS.split (JS.template (Tuples.at_ (JS.split (Var.name pairVar) "_pairs") 0)) "_" in
  let var1 := Tuples.at_ parts 0 in
  let var2 := Tuples.at_ parts 1 in
  bindE (Tuples.splitPairs (Var.value pairVar)) (fun pairs =>
    let var1Values :=
      fold_left (fun s pair => Tuples.setAdd s (Tuples.at_ pair 0)) pairs [] in
    let var2Values :=
      fold_left (fun s pair => Tuples.setAdd s (Tuples.at_ pair 1)) pairs [] in
    Return (overwrite (overwrite filteredVariables var1 var1Values) var2 var2Values)).

(** Lines 637-663: the loop runs over the pair bindings of
    [filteredVariables], each read when its turn comes. *)
Fixpoint projectFrom (indices : list nat) (filteredVariables : VariableContents)
    : Except VariableContents :=
  match indices with
  | [] => Return filteredVariables
  | i :: indices' =>
      match nth_error filteredVariables i with
      | Some pairVar =>
          if JS.includes (Var.name pairVar) "_pairs"
          then bindE (projectPair filteredVariables pairVar) (projectFrom indices')
          else projectFrom indices' filteredVariables
      | None => projectFrom indices' filteredVariables
      end
  end.

Definition project (combinedVariables : VariableContents) : Except VariableContents :=
  projectFrom (seq 0 (List.length combinedVariables)) combinedVariables.

(** Lines 582-665: what [evaluateQuery] does with the two sub-results of a
    compound node. *)
Definition combineResults (operator : Operator) (leftResult rightResult : QueryOutcome)
    : Except QueryOutcome :=
  match match operator with
        | op_AND => combineAND leftResult rightResult
        | op_OR => combineOR leftResult rightResult
        end with
  | Returned outcome => Return outcome
  | Carry combinedVariables =>
      bindE (Tuples.generateTuples combinedVariables) (fun tuples =>
        let result := map (fun tuple => Some (JS.join (Obj.values tuple) ",")) tuples in
        bindE (project combinedVariables) (fun filteredVariables =>
          Return (mkOutcome result filteredVariables)))
  end.

Section Evaluator.

Variable relationsData : list CatalogEntry.
Variable handleAPICall : string -> ApiData.
Variable RegExp : Type.
Variable RegExp_new : string -> Except RegExp.
Variable RegExp_test : RegExp -> string -> bool.
Variable completion : CompletionOrder.

Local Open Scope except_scope.

Fixpoint evaluateQuery (query : ASTNode) (existingVariables : VariableContents)
    : Except QueryOutcome :=
  match query with
  | Simple q =>
      variables <- evaluateSimpleQuery relationsData handleAPICall
                     RegExp_new RegExp_test completion q existingVariables ;;
      let mergedVariables := fold_left mergeVariable variables existingVariables in
      Return (mkOutcome
                match variables with v :: _ => Var.value v | [] => [] end
                mergedVariables)
  | CompoundQuery l operator r =>
      leftResult <- evaluateQuery l existingVariables ;;
      rightResult <- evaluateQuery r (variables leftResult) ;;
      combineResults operator leftResult rightResult
  end.

(** [reaches q existing ast start]: the clause [q] is evaluated, in the
    bindings [existing], in the course of evaluating [ast] from the
    bindings [start]: every clause before it has returned. *)
Inductive reaches (q : SimpleQuery) (existing : VariableContents)
    : ASTNode -> VariableContents -> Prop :=
| reaches_here (start : VariableContents) :
    start = existing -> reaches q existing (Simple q) start
| reaches_left (l r : ASTNode) (operator : Operator) (start : VariableContents) :
    reaches q existing l start ->
    reaches q existing (CompoundQuery l operator r) start
| reaches_right (l r : ASTNode) (operator : Operator) (start : VariableContents)
    (leftResult : QueryOutcome) :
    evaluateQuery l start = Return leftResult ->
    reaches q existing r (variables leftResult) ->
    reaches q existing (CompoundQuery l operator r) start.

End Evaluator.

(** ** The query engine and the endpoint ([createQueryEngine], [GET]) *)

(** [parseQuery]; the loop of [expression] never needs more turns than
    [parseQuery_fuel] gives it, so the last branch is never taken
    ([ParserFacts.parseQuery_fuel_enough]). *)
Definition parseQuery (queryString : string) : Except ASTNode :=
  match parseQuery_fuel queryString with
  | Some r => r
  | None => Throw EmptyString
  end.

(** The [result] of the payload: the rows, or the [{}] of the error case. *)
Inductive PayloadResult : Type :=
| Rows (rows : list jsstring)
| EmptyObject.

Record Payload : Type := mkPayload {
  payload_error : option string;
  payload_ast : option string;
  payload_variables : VariableContents;
  payload_result : PayloadResult;
  payload_query : string
}.

Section Endpoint.

Variable relationsData : list CatalogEntry.
Variable handleAPICall : string -> ApiData.
Variable RegExp : Type.
Variable RegExp_new : string -> Except RegExp.
Variable RegExp_test : RegExp -> string -> bool.
Variable completion : CompletionOrder.

Local Open Scope except_scope.

(** [executeQuery]: the evaluation starts without bindings. *)
Definition executeQuery (query : ASTNode) : Except QueryOutcome :=
  evaluateQuery relationsData handleAPICall RegExp_new RegExp_test completion query [].

(** [GET] of [route.ts]; [queryParam] is [searchParams.get("query")]. *)
Definition GET (queryParam : option string) : Payload :=
  let query := match queryParam with Some q => q | None => EmptyString end in
  match (parsedQuery <- parseQuery query ;;
         outcome <- executeQuery parsedQuery ;;
         Return (mkPayload None (Some (astToString parsedQuery))
                   (variables outcome) (Rows (result outcome)) query)) with
  | Return payload => payload
  | Throw message => mkPayload (Some message) None [] EmptyObject query
  end.

End Endpoint.

(** ** The cache of the graph service ([getFromCache], [handleAPICall],
       lines 5-49)

    [apiCache] is a [Map] of the module; here it is passed in and handed
    back.  What a call gets from outside is given to it: the two readings
    of [Date.now()], in milliseconds, and what [fetch] and [res.json()]
    come to.  A call is taken as one step: what other calls do to the
    cache while it waits for the network is not part of it. *)

Module Cache.

Record entry : Type := mkEntry { result : ApiData; timestamp : Z }.

Definition t : Type := JSMap.t string entry.

Definition CACHE_TTL : Z := 5 * 60 * 1000.

(** [apiCache.delete(k)] *)
Definition delete (apiCache : t) (k : string) : t :=
  filter (fun e => negb (String.eqb (fst e) k)) apiCache.

(** [getFromCache] (lines 9-16), with the cache it leaves; the clock is
    read only when there is an entry. *)
Definition getFromCache (apiCache : t) (apiUrl : string) (now : Z)
    : option ApiData * t :=
  match JSMap.get String.eqb apiCache apiUrl with
  | Some cached =>
      if (now - timestamp cached <? CACHE_TTL)%Z
      then (Some (result cached), apiCache)
      else (None, delete apiCache apiUrl)
  | None => (None, delete apiCache apiUrl)
  end.

(** What the [try] block meets: an exception ([fetch] rejects, the body
    is no JSON, or it is [null]), or a body whose [nodes] and [relations]
    may each be missing. *)
Inductive Response : Type :=
| Failed
| Answered (nodes : option (list Node.t)) (relations : option (list Rel.t)).

(** [x ?? []] *)
Definition orEmpty {A : Type} (x : option (list A)) : list A :=
  match x with Some l => l | None => [] end.

(** [handleAPICall] (lines 27-49): [now] is the reading of the clock in
    [getFromCache], [storedAt] the one taken when the answer is stored. *)
Definition handleAPICall (apiCache : t) (apiUrl : string) (now : Z)
    (response : Response) (storedAt : Z) : ApiData * t :=
  let (cached, apiCache1) := getFromCache apiCache apiUrl now in
  match cached with
  | Some data => (data, apiCache1)
  | None =>
      match response with
      | Answered nodes relations =>
          let data := mkApiData (orEmpty nodes) (orEmpty relations) in
          (data, JSMap.set String.eqb apiCache1 apiUrl (mkEntry data storedAt))
      | Failed => (mkApiData [] [], apiCache1)
      end
  end.

End Cache.

(** ** Notions the properties are stated with *)

(** Every character of [s] belongs to the class [p]. *)
Fixpoint every (p : ascii -> bool) (s : string) : bool :=
  match s with
  | EmptyString => true
  | String c s' => p c && every p s'
  end.

(** The first character of [s], if any, belongs to the class [p]. *)
Definition startsIn (p : ascii -> bool) (s : string) : bool :=
  match s with
  | EmptyString => false
  | String c _ => p c
  end.

(** The messages of the errors [simpleQuery] and [parse] throw themselves
    (lines 213, 222, 233 and 274). *)
Definition syntaxErrors : list string :=
  ["Expected variable or entity as subject"; "Expected relation";
   "Expected variable or entity as object";
   "Unexpected token after parsing expression"].

(** A token that neither continues a clause nor starts a new turn of the
    loop of [expression]. *)
Definition stops (t : Token) : Prop :=
  type t <> WEIGHT_PARAM /\ type t <> GREP /\ type t <> AND /\ type t <> OR.

(** The trees [expression] builds: a clause, or such a tree with one more
    clause on its right. *)
Fixpoint leftChain (node : ASTNode) : Prop :=
  match node with
  | Simple q => Parser.isClause q
  | CompoundQuery l _ r =>
      leftChain l /\ match r with Simple q => Parser.isClause q | _ => False end
  end.

(** ** A small world to run the evaluator in

    A catalog with [r_isa], a graph service that knows the mammals, the
    animals and the plants, and a regular-expression engine for patterns
    without operators, which match the strings they occur in. *)

Module Example.

Definition catalog : list CatalogEntry :=
  [mkCatalogEntry 0 "r_associated"; mkCatalogEntry 6 "r_isa"].

Definition lexical (id : Z) (name : string) : Node.t := Node.mk id name 1 50.

Definition graph (apiUrl : string) : ApiData :=
  if JS.includes apiUrl "/relations/to/mammal?types_ids=6&"
  then mkApiData [lexical 1 "lion"; lexical 2 "cat"] []
  else if JS.includes apiUrl "/relations/to/animal?types_ids=6&"
  then mkApiData [lexical 1 "lion"] []
  else if JS.includes apiUrl "/relations/to/plant?types_ids=6&"
  then mkApiData [lexical 3 "rose"] []
  else mkApiData [] [].

Definition RegExp : Type := string.
Definition RegExp_new (pattern : string) : Except RegExp := Return pattern.
Definition RegExp_test (regex : RegExp) (s : string) : bool := JS.includes s regex.

(** The lookups of a clause complete in the order they are started in. *)
Definition inOrder : CompletionOrder :=
  fun _ _ values => JS.dedupe jsstring_eqb values.

(** An engine that, like the one of JavaScript, rejects the pattern of an
    unterminated group. *)
Definition RegExp_strict (pattern : string) : Except RegExp :=
  if String.eqb pattern "("
  then Throw "Invalid regular expression: /(/: Unterminated group"
  else Return pattern.

(** The bindings of the tuple reconstruction example: the pairs of [x] and
    [y] and the values of [y]. *)
Definition lionMane : VariableContents :=
  [Var.mk "x_y_pairs" (strings ["lion,mane"; "lion,roar"]);
   Var.mk "y" (strings ["mane"])].

(** A pair relation in each direction between [x] and [y], and the tables
    the first pass of [generateTuples] builds from them. *)
Definition bothDirections : VariableContents :=
  [Var.mk "x_y_pairs" (strings ["a,b"]); Var.mk "y_x_pairs" (strings ["c,d"])].

Definition bothTables : Tuples.tables :=
  Tuples.mkTables
    [("x_y", [["a"; "b"]]); ("y_x", [["c"; "d"]])]
    []
    [(Some "x", [Some "y"]); (Some "y", [Some "x"])].

(** Two sub-results whose values of [$x] have nothing in common, without
    and with a second variable. *)
Definition lions : QueryOutcome :=
  mkOutcome (strings ["lion"]) [Var.mk "$x" (strings ["lion"])].
Definition roses : QueryOutcome :=
  mkOutcome (strings ["rose"]) [Var.mk "$x" (strings ["rose"])].
Definition lionsAndOaks : QueryOutcome :=
  mkOutcome (strings ["lion"])
    [Var.mk "$x" (strings ["lion"]); Var.mk "$y" (strings ["oak"])].
Definition rosesAndOaks : QueryOutcome :=
  mkOutcome (strings ["rose"])
    [Var.mk "$x" (strings ["rose"]); Var.mk "$y" (strings ["oak"])].

(** A right side that brings a variable without values. *)
Definition lionsAndNoZebra : QueryOutcome :=
  mkOutcome []
    [Var.mk "$x" (strings ["lion"]); Var.mk "$z" []].

(** A sub-result without bindings and one that binds [$x] to a and b. *)
Definition nothing : QueryOutcome := mkOutcome [] [].
Definition aAndB : QueryOutcome :=
  mkOutcome (strings ["a"; "b"]) [Var.mk "$x" (strings ["a"; "b"])].

(** The clause [$x !r_isa mammal], as the parser builds it, and the
    bindings it is evaluated in. *)
Definition notMammal : SimpleQuery :=
  createSimpleQuery (createToken VARIABLE "$x" 0) (createToken RELATION "!r_isa" 3)
    (createToken ENTITY "mammal" 10) None None true.

Definition lionRoseCat : VariableContents :=
  [Var.mk "$x" (strings ["lion"; "rose"; "cat"])].

(** The same clause with a filter, [$x !r_isa mammal /z/]. *)
Definition notMammalZ : SimpleQuery :=
  createSimpleQuery (createToken VARIABLE "$x" 0) (createToken RELATION "!r_isa" 3)
    (createToken ENTITY "mammal" 10) None (Some (createToken GREP "/z/" 17)) true.

(** The URL it asks: the entities related to [mammal] by [r_isa]. *)
Definition mammalUrl : string :=
  relations_url "to" "mammal" 6 (WNumber MIN_WEIGHT) (WNumber MAX_WEIGHT).

(** The clause [mammal !r_isa $x]. *)
Definition mammalNot : SimpleQuery :=
  createSimpleQuery (createToken ENTITY "mammal" 0) (createToken RELATION "!r_isa" 7)
    (createToken VARIABLE "$x" 14) None None true.

(** The clause [lion r_isa animal]. *)
Definition lionIsAnimal : SimpleQuery :=
  createSimpleQuery (createToken ENTITY "lion" 0) (createToken RELATION "r_isa" 5)
    (createToken ENTITY "animal" 11) None None false.



(** The clauses of [a r_x $y AND b r_z $w OR c r_q $v]. *)
Definition clause (subjectType : TokenTypeValue) (s : string) (ps : nat)
    (r : string) (pr : nat) (objectType : TokenTypeValue) (o : string) (po : nat)
    : SimpleQuery :=
  createSimpleQuery (createToken subjectType s ps) (createToken RELATION r pr)
    (createToken objectType o po) None None false.

Definition clause_a : SimpleQuery := clause ENTITY "a" 0 "r_x" 2 VARIABLE "$y" 6.
Definition clause_b : SimpleQuery := clause ENTITY "b" 13 "r_z" 15 VARIABLE "$w" 19.
Definition clause_c : SimpleQuery := clause ENTITY "c" 25 "r_q" 27 VARIABLE "$v" 31.

End Example.

(** ** A second small world, for clauses with two variables

    The relation [r_associated] links the lion to the mane and to the
    roar, and the cat to the purr. *)

Module Pairs.

Definition graph (apiUrl : string) : ApiData :=
  if JS.includes apiUrl "/relations/from/lion?types_ids=0&"
  then mkApiData
         [Example.lexical 1 "lion"; Example.lexical 10 "mane"; Example.lexical 11 "roar"]
         [Rel.mk 100 1 10 0 60; Rel.mk 101 1 11 0 70]
  else if JS.includes apiUrl "/relations/from/cat?types_ids=0&"
  then mkApiData
         [Example.lexical 2 "cat"; Example.lexical 12 "purr"]
         [Rel.mk 102 2 12 0 60]
  else if JS.includes apiUrl "/relations/to/mane?types_ids=0&"
  then mkApiData [Example.lexical 1 "lion"] []
  else mkApiData [] [].

(** The clauses [$x r_associated $y] and [$x !r_associated $y]. *)
Definition associated : SimpleQuery :=
  Example.clause VARIABLE "$x" 0 "r_associated" 3 VARIABLE "$y" 16.

Definition notAssociated : SimpleQuery :=
  createSimpleQuery (createToken VARIABLE "$x" 0) (createToken RELATION "!r_associated" 3)
    (createToken VARIABLE "$y" 17) None None true.

Definition bound : VariableContents :=
  [Var.mk "$x" (strings ["lion"; "cat"]); Var.mk "$y" (strings ["mane"; "purr"])].

Definition leftBound : VariableContents := [Var.mk "$x" (strings ["lion"; "cat"])].

Definition rightBound : VariableContents := [Var.mk "$y" (strings ["mane"])].

(** The lookups of a clause complete in the reverse of the order they
    are started in, as they do when the later ones are answered from the
    cache and the earlier ones go to the network. *)
Definition lastFirst : CompletionOrder :=
  fun _ _ values => rev (JS.dedupe jsstring_eqb values).

End Pairs.

(** * Properties *)

Unset Implicit Arguments.

(** ** The lexer *)

Module LexerFacts.
Import Lexer.

Lemma skipWhitespace_loop_stays (c : ascii) (after : string) (pos : nat) :
  is_space c = false ->
  skipWhitespace_loop (String c after) pos = mk pos (String c after).
Proof. intros Hc. simpl. now rewrite Hc. Qed.

(** No letter is the dollar sign, a comparison character or the slash,
    so the rules are tried in an order that does not matter for what
    follows; only the facts used below are recorded. *)
Lemma not_letter_not (c d : ascii) :
  is_letter c = false -> is_letter d = true -> Ascii.eqb c d = false.
Proof.
  intros Hc Hd. destruct (Ascii.eqb c d) eqn:E; [|reflexivity].
  apply Ascii.eqb_eq in E. subst. congruence.
Qed.

(** The input a state has left only shrinks. *)
Lemma skipWhitespace_loop_length (s : string) (pos : nat) :
  String.length (rest (skipWhitespace_loop s pos)) <= String.length s.
Proof.
  revert pos. induction s as [|c s IH]; intros pos; simpl; [lia|].
  destruct (is_space c); simpl; [specialize (IH (S pos)); lia | lia].
Qed.

Lemma readIdentifier_loop_length (s : string) (pos : nat) (result : string) :
  String.length (rest (snd (readIdentifier_loop s pos result))) <= String.length s.
Proof.
  revert pos result. induction s as [|c s IH]; intros pos result; simpl; [lia|].
  destruct (is_identifier_char c); simpl; [specialize (IH (S pos) (result ++ String c EmptyString)%string); lia | lia].
Qed.

Lemma readIdentifier_loop_progress (c : ascii) (s : string) (pos : nat) (result : string) :
  is_identifier_char c = true ->
  String.length (rest (snd (readIdentifier_loop (String c s) pos result)))
  < String.length (String c s).
Proof.
  intros Hc. simpl. rewrite Hc.
  pose proof (readIdentifier_loop_length s (S pos) (result ++ String c EmptyString)%string).
  simpl. lia.
Qed.

Lemma identifierToken_progress (t : TokenTypeValue) (pos : nat) (c : ascii)
    (s : string) (tok : Token) (l' : state) :
  is_identifier_char c = true ->
  identifierToken t (mk pos (String c s)) = Return (tok, l') ->
  String.length (rest l') < String.length (String c s).
Proof.
  intros Hc. unfold identifierToken, readIdentifier. cbn [Lexer.rest Lexer.pos].
  pose proof (readIdentifier_loop_progress c s pos EmptyString Hc) as Hlt.
  destruct (readIdentifier_loop (String c s) pos EmptyString) as [identifier l1].
  intros H. inversion H. subst. exact Hlt.
Qed.

Lemma letter_is_identifier_char (c : ascii) :
  is_letter c = true -> is_identifier_char c = true.
Proof. intros H. unfold is_identifier_char. now rewrite H. Qed.

Lemma drop_length (n : nat) (s : string) :
  String.length (drop n s) = String.length s - n.
Proof.
  revert s. induction n as [|n IH]; intros s; destruct s; simpl; auto.
Qed.

Lemma prefix_length (p s : string) :
  String.prefix p s = true -> String.length p <= String.length s.
Proof.
  revert s. induction p as [|a p IH]; intros s; [simpl; lia|].
  destruct s as [|b s]; simpl; [discriminate|].
  destruct (Ascii.ascii_dec a b); [|discriminate].
  intros H. apply IH in H. lia.
Qed.

(** Every token but the end of the input takes at least one character. *)
Lemma getNextToken_progress (l l' : state) (tok : Token) :
  getNextToken l = Return (tok, l') ->
  String.length (rest l') <= String.length (rest l)
  /\ (type tok <> EOF -> String.length (rest l') < String.length (rest l)).
Proof.
  unfold getNextToken, skipWhitespace.
  pose proof (skipWhitespace_loop_length (rest l) (pos l)) as Hskip.
  destruct (skipWhitespace_loop (rest l) (pos l)) as [p s].
  cbn [Lexer.rest Lexer.pos] in *.
  destruct s as [|c after].
  - intros H. inversion H. subst. cbn. split; [lia | congruence].
  - assert (Hid : forall t, is_identifier_char c = true ->
              identifierToken t (mk p (String c after)) = Return (tok, l') ->
              String.length (rest l') <= String.length (rest l)
              /\ (type tok <> EOF -> String.length (rest l') < String.length (rest l))).
    { intros t Hc H. pose proof (identifierToken_progress _ _ _ _ _ _ Hc H). lia. }
    destruct (Ascii.eqb c "$") eqn:E1.
    { apply Ascii.eqb_eq in E1. subst c. now apply Hid. }
    destruct (Ascii.eqb c "r" && String.prefix "_" after) eqn:E2.
    { apply andb_prop in E2 as [E2 _]. apply Ascii.eqb_eq in E2. subst c. now apply Hid. }
    destruct (Ascii.eqb c "!" && String.prefix "r_" after) eqn:E3.
    { apply andb_prop in E3 as [E3 _]. apply Ascii.eqb_eq in E3. subst c. now apply Hid. }
    destruct (Ascii.eqb c "<" || Ascii.eqb c ">" || Ascii.eqb c "=") eqn:E4.
    { apply Hid. repeat (apply orb_prop in E4 as [E4|E4]);
        apply Ascii.eqb_eq in E4; subst c; reflexivity. }
    destruct (Ascii.eqb c "/") eqn:E5.
    { apply Ascii.eqb_eq in E5. subst c. now apply Hid. }
    destruct (Ascii.eqb c "A" && String.prefix "AND" (String c after)) eqn:E6.
    { apply andb_prop in E6 as [_ E6]. apply prefix_length in E6.
      clear Hid. pose proof (drop_length 3 (String c after)) as Hd.
      remember (drop 3 (String c after)) as d. clear Heqd.
      intros H. injection H as <- <-. cbn [Lexer.rest type String.length] in *.
      split; [lia|intros _; lia]. }
    destruct (Ascii.eqb c "O" && String.prefix "OR" (String c after)) eqn:E7.
    { apply andb_prop in E7 as [_ E7]. apply prefix_length in E7.
      clear Hid. pose proof (drop_length 2 (String c after)) as Hd.
      remember (drop 2 (String c after)) as d. clear Heqd.
      intros H. injection H as <- <-. cbn [Lexer.rest type String.length] in *.
      split; [lia|intros _; lia]. }
    destruct (is_letter c) eqn:E8.
    { apply Hid. now apply letter_is_identifier_char. }
    discriminate.
Qed.

(** C7, as amended.  Where the current character is no space, no dollar
    sign, no comparison character, no slash, no letter (which rules out
    the prefix [r_] and the words [AND] and [OR]) and no [!] before [r_],
    [getNextToken] throws an error whose message is
    ["Unexpected character: "] followed by that character, whatever the
    position. *)
Theorem getNextToken_unexpected_character :
  forall (pos : nat) (c : ascii) (after : string),
    is_space c = false ->
    c <> "$"%char ->
    is_comparison c = false ->
    c <> "/"%char ->
    is_letter c = false ->
    ~ (c = "!"%char /\ String.prefix "r_" after = true) ->
    getNextToken (mk pos (String c after))
    = Throw ("Unexpected character: " ++ String c EmptyString).
Proof.
  intros pos c after Hspace Hdollar Hcmp Hslash Hletter Hbang.
  unfold getNextToken, skipWhitespace. cbn [Lexer.rest Lexer.pos].
  rewrite skipWhitespace_loop_stays by assumption. cbn [Lexer.rest Lexer.pos].
  replace (Ascii.eqb c "$") with false
    by (symmetry; now apply Ascii.eqb_neq).
  rewrite (not_letter_not c "r" Hletter eq_refl).
  rewrite (not_letter_not c "A" Hletter eq_refl).
  rewrite (not_letter_not c "O" Hletter eq_refl).
  cbn [andb].
  replace (Ascii.eqb c "!" && String.prefix "r_" after) with false.
  2:{ symmetry. apply andb_false_iff.
      destruct (Ascii.eqb c "!") eqn:E; [right|now left].
      apply Ascii.eqb_eq in E.
      destruct (String.prefix "r_" after) eqn:P; [|reflexivity].
      exfalso. apply Hbang. now split. }
  unfold is_comparison in Hcmp. rewrite Hcmp.
  replace (Ascii.eqb c "/") with false
    by (symmetry; now apply Ascii.eqb_neq).
  rewrite Hletter. reflexivity.
Qed.

(** The theorem at the sharp sign found at position 11 of
    [lion r_isa #]. *)
Lemma getNextToken_unexpected_character_witness :
  getNextToken (mk 11 "#") = Throw "Unexpected character: #".
Proof.
  apply (getNextToken_unexpected_character 11 "#" EmptyString);
    try reflexivity; try discriminate.
  intros [H _]. discriminate H.
Defined.

End LexerFacts.

(** ** The parser *)

Module ParserFacts.
Import Parser.

Section WithLexer.

Variable L : Type.
Variable getNextToken : L -> Except (Token * L).

Local Abbreviation state := (Parser.state L).
Local Abbreviation emits := (Parser.emits getNextToken).
Local Abbreviation eat := (Parser.eat getNextToken).
Local Abbreviation simpleQuery := (Parser.simpleQuery getNextToken).
Local Abbreviation expression_loop := (Parser.expression_loop getNextToken).

Lemma emits_app (tokens1 tokens2 : list Token) (l l' : L) :
  emits l (tokens1 ++ tokens2) l' <->
  exists m, emits l tokens1 m /\ emits m tokens2 l'.
Proof.
  revert l. induction tokens1 as [|t tokens1 IH]; intros l; simpl.
  - split.
    + intros H. now exists l.
    + intros [m [-> H]]. exact H.
  - split.
    + intros [l1 [Hget H]]. apply IH in H as [m [H1 H2]].
      exists m. split; [|exact H2]. now exists l1.
    + intros [m [[l1 [Hget H1]] H2]]. exists l1. split; [exact Hget|].
      apply IH. now exists m.
Qed.

Lemma eat_next (tokenType : TokenTypeValue) (current next : Token) (l l1 : L) :
  type current = tokenType ->
  getNextToken l = Return (next, l1) ->
  eat tokenType (Parser.mk current l) = Return (Parser.mk next l1).
Proof.
  intros Htype Hget. unfold Parser.eat. cbn [currentToken lexer].
  rewrite Htype, Hget. now destruct tokenType.
Qed.

Lemma TokenType_eqb_neq (a b : TokenTypeValue) :
  a <> b -> TokenType_eqb a b = false.
Proof. destruct a, b; intros H; try reflexivity; congruence. Qed.

Lemma TokenType_eqb_refl (a : TokenTypeValue) : TokenType_eqb a a = true.
Proof. now destruct a. Qed.

(** An operand is read and the next token becomes the look-ahead. *)
Lemma operand_next (what : string) (current next : Token) (l l1 : L) :
  isOperand current ->
  getNextToken l = Return (next, l1) ->
  Parser.operand getNextToken what (Parser.mk current l)
  = Return (current, Parser.mk next l1).
Proof.
  intros [H|H] Hget; unfold Parser.operand; cbn [currentToken lexer]; rewrite H;
    rewrite (eat_next _ current next l l1 H Hget); reflexivity.
Qed.

(** An optional token that is there is read. *)
Lemma optional_some (tokenType : TokenTypeValue) (current next : Token) (l l1 : L) :
  type current = tokenType ->
  getNextToken l = Return (next, l1) ->
  Parser.optional getNextToken tokenType (Parser.mk current l)
  = Return (Some current, Parser.mk next l1).
Proof.
  intros H Hget. unfold Parser.optional. cbn [currentToken lexer].
  rewrite H, TokenType_eqb_refl, (eat_next _ current next l l1 H Hget). reflexivity.
Qed.

(** An optional token that is not there leaves the parser as it is. *)
Lemma optional_none (tokenType : TokenTypeValue) (p : state) :
  type (currentToken p) <> tokenType ->
  Parser.optional getNextToken tokenType p = Return (None, p).
Proof.
  intros H. unfold Parser.optional. now rewrite TokenType_eqb_neq.
Qed.

(** [simpleQuery] on the tokens of a clause, the first of which is the
    look-ahead, gives the clause back and stops at the token that follows,
    provided that token cannot continue the clause. *)
Lemma simpleQuery_clause (q : SimpleQuery) (next : Token) (l l' : L) :
  isClause q ->
  type next <> WEIGHT_PARAM -> type next <> GREP ->
  emits l (tl (clauseTokens q) ++ [next]) l' ->
  simpleQuery (Parser.mk (subject q) l) = Return (q, Parser.mk next l').
Proof.
  intros [Hs Hr Ho Hw Hg Hn] Hnw Hng.
  destruct q as [s r o w g n]. cbn [subject relation object weightParam grep negated] in *.
  unfold clauseTokens. cbn [subject relation object weightParam grep tl app].
  intros [l1 [Hget1 [l2 [Hget2 Hrest]]]].
  unfold Parser.simpleQuery.
  rewrite (operand_next _ s r l l1 Hs Hget1). cbn [bindE currentToken lexer].
  rewrite Hr. rewrite (eat_next RELATION r o l1 l2 Hr Hget2). cbn [bindE currentToken].
  subst n. unfold createSimpleQuery.
  destruct w as [w|], g as [g|]; cbn [optionalToken app hasType] in *.
  - destruct Hrest as [l3 [Hget3 [l4 [Hget4 [l5 [Hget5 <-]]]]]].
    rewrite (operand_next _ o w l2 l3 Ho Hget3). cbn [bindE].
    rewrite (optional_some _ w g l3 l4 Hw Hget4). cbn [bindE].
    rewrite (optional_some _ g next l4 l5 Hg Hget5). reflexivity.
  - destruct Hrest as [l3 [Hget3 [l4 [Hget4 <-]]]].
    rewrite (operand_next _ o w l2 l3 Ho Hget3). cbn [bindE].
    rewrite (optional_some _ w next l3 l4 Hw Hget4). cbn [bindE].
    rewrite optional_none by (cbn; exact Hng). reflexivity.
  - destruct Hrest as [l3 [Hget3 [l4 [Hget4 <-]]]].
    rewrite (operand_next _ o g l2 l3 Ho Hget3). cbn [bindE].
    rewrite optional_none by (cbn; congruence). cbn [bindE].
    rewrite (optional_some _ g next l3 l4 Hg Hget4). reflexivity.
  - destruct Hrest as [l3 [Hget3 <-]].
    rewrite (operand_next _ o next l2 l3 Ho Hget3). cbn [bindE].
    rewrite optional_none by (cbn; exact Hnw). cbn [bindE].
    rewrite optional_none by (cbn; exact Hng). reflexivity.
Qed.

Lemma operator_token_type (t : Token) (operator : Operator) :
  operatorOf t = Some operator ->
  (type t = AND /\ operator = op_AND) \/ (type t = OR /\ operator = op_OR).
Proof.
  unfold operatorOf. destruct (type t); intros H; inversion H; auto.
Qed.

Lemma clauseTokens_cons (q : SimpleQuery) :
  clauseTokens q = subject q :: tl (clauseTokens q).
Proof. reflexivity. Qed.

(** The head of what follows a clause in a chain: an operator token or the
    end of the input, neither of which continues the clause. *)
Lemma chain_head (links : list link) (eof : Token) :
  Forall isLink links -> type eof = EOF ->
  exists next after,
    chainTokens links ++ [eof] = next :: after
    /\ type next <> WEIGHT_PARAM /\ type next <> GREP.
Proof.
  intros Hlinks Heof. destruct links as [|[[t operator] q] links]; cbn.
  - exists eof, []. repeat split; congruence.
  - exists t. eexists. split; [reflexivity|].
    inversion Hlinks as [|? ? Hlink _]. subst. destruct Hlink as [Hop _].
    apply operator_token_type in Hop as [[-> _]|[-> _]]; split; discriminate.
Qed.

Lemma chainTokens_cons (t : Token) (operator : Operator) (q : SimpleQuery)
    (links : list link) (eof : Token) :
  chainTokens ((t, operator, q) :: links) ++ [eof]
  = t :: (clauseTokens q ++ (chainTokens links ++ [eof])).
Proof.
  unfold chainTokens. cbn [flat_map linkTokens].
  repeat rewrite <- app_comm_cons. now rewrite <- app_assoc.
Qed.

(** The tokens of a clause, followed by [next], split off a longer run. *)
Lemma emits_clause (q : SimpleQuery) (next : Token) (after : list Token) (l l' : L) :
  emits l (clauseTokens q ++ next :: after) l' ->
  exists l1 m,
    getNextToken l = Return (subject q, l1)
    /\ emits l1 (tl (clauseTokens q) ++ [next]) m
    /\ emits m after l'.
Proof.
  rewrite clauseTokens_cons. cbn [app Parser.emits].
  intros [l1 [Hget H]].
  change (next :: after) with ([next] ++ after) in H.
  rewrite app_assoc in H. apply emits_app in H as [m [H1 H2]].
  exists l1, m. auto.
Qed.

(** The loop of [expression] folds the chain to the left. *)
Lemma expression_loop_chain (links : list link) :
  forall (fuel : nat) (node : ASTNode) (current eof : Token) (after : list Token)
         (l l' : L),
    Forall isLink links -> type eof = EOF ->
    chainTokens links ++ [eof] = current :: after ->
    emits l after l' ->
    List.length links <= fuel ->
    expression_loop fuel node (Parser.mk current l)
    = Some (Return (foldLeft node links, Parser.mk eof l')).
Proof.
  induction links as [|[[t operator] q] links IH];
    intros fuel node current eof after l l' Hlinks Heof Htokens Hemits Hfuel.
  - cbn in Htokens. injection Htokens as <- <-. cbn in Hemits. subst l'.
    destruct fuel; cbn [Parser.expression_loop currentToken]; rewrite Heof; reflexivity.
  - inversion Hlinks as [|? ? Hlink Hlinks']. subst. destruct Hlink as [Hop Hq].
    destruct (chain_head links eof Hlinks' Heof) as [next [after' [Hnext [Hnw Hng]]]].
    rewrite chainTokens_cons, Hnext in Htokens.
    injection Htokens as Hcurrent Hafter. subst current after.
    destruct fuel as [|fuel]; [cbn in Hfuel; lia|].
    apply emits_clause in Hemits as [l1 [m [Hget [Hclause Hafter]]]].
    assert (Hstep : forall tokenType, type t = tokenType ->
              Parser.expression_step getNextToken tokenType operator node (Parser.mk t l)
              = Return (createCompoundQuery node operator (Simple q), Parser.mk next m)).
    { intros tokenType Htype. unfold Parser.expression_step.
      rewrite (eat_next _ t (subject q) l l1 Htype Hget). cbn [bindE].
      rewrite (simpleQuery_clause q next l1 m Hq Hnw Hng Hclause). reflexivity. }
    cbn [Parser.expression_loop currentToken].
    apply operator_token_type in Hop as [[Htype ->]|[Htype ->]]; rewrite Htype;
      rewrite (Hstep _ Htype);
      apply (IH fuel _ next eof after' m l' Hlinks' Heof Hnext Hafter);
      cbn in Hfuel; lia.
Qed.

(** A whole input [clause OP clause ... OP clause] parses to the left fold
    of its clauses. *)
Lemma parse_chain (q : SimpleQuery) (links : list link) (eof : Token)
    (lexer l' : L) (fuel : nat) :
  isClause q -> Forall isLink links -> type eof = EOF ->
  emits lexer (clauseTokens q ++ chainTokens links ++ [eof]) l' ->
  List.length links <= fuel ->
  match Parser.createParser getNextToken lexer with
  | Return parser => Parser.parse getNextToken fuel parser
  | Throw msg => Some (Throw msg)
  end = Some (Return (foldLeft (Simple q) links)).
Proof.
  intros Hq Hlinks Heof Hemits Hfuel.
  destruct (chain_head links eof Hlinks Heof) as [next [after [Hnext [Hnw Hng]]]].
  rewrite Hnext in Hemits.
  apply emits_clause in Hemits as [l1 [m [Hget [Hclause Hafter]]]].
  unfold Parser.createParser. rewrite Hget. cbn [bindE].
  unfold Parser.parse, Parser.expression.
  rewrite (simpleQuery_clause q next l1 m Hq Hnw Hng Hclause).
  rewrite (expression_loop_chain links fuel (Simple q) next eof after m l'
             Hlinks Heof Hnext Hafter Hfuel).
  cbn [currentToken]. now rewrite Heof.
Qed.

End WithLexer.

(** *** The loop of [expression] ends

    Whenever reading a token never gives input back and every token but
    the end of the input takes some, a turn of the loop leaves less input
    than it found, so more fuel than there is input is enough. *)
Section Fuel.

Variable L : Type.
Variable getNextToken : L -> Except (Token * L).
Variable size : L -> nat.
Hypothesis getNextToken_size :
  forall (l l' : L) (t : Token),
    getNextToken l = Return (t, l') ->
    size l' <= size l /\ (type t <> EOF -> size l' < size l).

Lemma eat_size (tokenType : TokenTypeValue) (p p' : Parser.state L) :
  Parser.eat getNextToken tokenType p = Return p' ->
  size (lexer p') <= size (lexer p)
  /\ (type (currentToken p') <> EOF -> size (lexer p') < size (lexer p)).
Proof.
  unfold Parser.eat. destruct (TokenType_eqb _ _); [|discriminate].
  destruct (getNextToken (lexer p)) as [[t l]|] eqn:Hget; [|discriminate].
  cbn [bindE]. intros H. injection H as <-. cbn [lexer currentToken].
  exact (getNextToken_size _ _ _ Hget).
Qed.

Lemma operand_size (what : string) (p p' : Parser.state L) (t : Token) :
  Parser.operand getNextToken what p = Return (t, p') ->
  size (lexer p') <= size (lexer p)
  /\ (type (currentToken p') <> EOF -> size (lexer p') < size (lexer p)).
Proof.
  unfold Parser.operand.
  destruct (type (currentToken p)); try discriminate;
    match goal with
    | |- context [Parser.eat getNextToken ?ty p] =>
        destruct (Parser.eat getNextToken ty p) as [p1|] eqn:Heat; [|discriminate];
        cbn [bindE]; intros H; injection H as _ <-; exact (eat_size _ _ _ Heat)
    end.
Qed.

Lemma optional_size (tokenType : TokenTypeValue) (p p' : Parser.state L)
    (t : option Token) :
  Parser.optional getNextToken tokenType p = Return (t, p') ->
  size (lexer p') <= size (lexer p).
Proof.
  unfold Parser.optional. destruct (TokenType_eqb _ _).
  - destruct (Parser.eat getNextToken tokenType p) as [p1|] eqn:Heat; [|discriminate].
    cbn [bindE]. intros H. injection H as _ <-. exact (proj1 (eat_size _ _ _ Heat)).
  - intros H. injection H as _ <-. lia.
Qed.

(** A clause takes input: the relation token at least. *)
Lemma simpleQuery_size (p p' : Parser.state L) (q : SimpleQuery) :
  Parser.simpleQuery getNextToken p = Return (q, p') ->
  size (lexer p') < size (lexer p).
Proof.
  unfold Parser.simpleQuery.
  destruct (Parser.operand getNextToken "subject" p) as [[s p1]|] eqn:H1; [|discriminate].
  cbn [bindE].
  destruct (type (currentToken p1)) eqn:Htype; try discriminate.
  destruct (Parser.eat getNextToken RELATION p1) as [p2|] eqn:H2; [|discriminate].
  cbn [bindE].
  destruct (Parser.operand getNextToken "object" p2) as [[o p3]|] eqn:H3; [|discriminate].
  cbn [bindE].
  destruct (Parser.optional getNextToken WEIGHT_PARAM p3) as [[w p4]|] eqn:H4; [|discriminate].
  cbn [bindE].
  destruct (Parser.optional getNextToken GREP p4) as [[g p5]|] eqn:H5; [|discriminate].
  cbn [bindE]. intros H. injection H as _ <-.
  apply operand_size in H1 as [_ H1]. apply eat_size in H2 as [H2 _].
  apply operand_size in H3 as [H3 _]. apply optional_size in H4.
  apply optional_size in H5.
  assert (size (lexer p1) < size (lexer p)) by (apply H1; congruence).
  lia.
Qed.

Lemma expression_step_size (tokenType : TokenTypeValue) (operator : Operator)
    (node node' : ASTNode) (p p' : Parser.state L) :
  Parser.expression_step getNextToken tokenType operator node p = Return (node', p') ->
  size (lexer p') < size (lexer p).
Proof.
  unfold Parser.expression_step.
  destruct (Parser.eat getNextToken tokenType p) as [p1|] eqn:H1; [|discriminate].
  cbn [bindE].
  destruct (Parser.simpleQuery getNextToken p1) as [[q p2]|] eqn:H2; [|discriminate].
  cbn [bindE]. intros H. injection H as _ <-.
  apply eat_size in H1 as [H1 _]. apply simpleQuery_size in H2. lia.
Qed.

Lemma expression_loop_fuel (fuel : nat) :
  forall (node : ASTNode) (p : Parser.state L),
    size (lexer p) < fuel ->
    Parser.expression_loop getNextToken fuel node p <> None.
Proof.
  induction fuel as [|fuel IH]; intros node p Hsize; [lia|].
  cbn [Parser.expression_loop].
  destruct (type (currentToken p)); try discriminate;
    match goal with
    | |- context [Parser.expression_step getNextToken ?ty ?op node p] =>
        destruct (Parser.expression_step getNextToken ty op node p)
          as [[node' p']|] eqn:Hstep; [|discriminate];
        apply IH; apply expression_step_size in Hstep; lia
    end.
Qed.

Lemma parse_fuel (fuel : nat) (lexer0 : L) :
  size lexer0 < fuel ->
  match Parser.createParser getNextToken lexer0 with
  | Return parser => Parser.parse getNextToken fuel parser
  | Throw msg => Some (Throw msg)
  end <> None.
Proof.
  intros Hsize. unfold Parser.createParser.
  destruct (getNextToken lexer0) as [[t l]|] eqn:Hget; [|discriminate].
  cbn [bindE]. unfold Parser.parse, Parser.expression.
  destruct (Parser.simpleQuery getNextToken (Parser.mk t l)) as [[q p]|] eqn:Hq;
    [|discriminate].
  apply getNextToken_size in Hget as [Hget _]. apply simpleQuery_size in Hq.
  cbn [lexer] in Hq.
  pose proof (expression_loop_fuel fuel (Simple q) p ltac:(lia)) as Hloop.
  destruct (Parser.expression_loop getNextToken fuel (Simple q) p) as [[[node p']|]|];
    [destruct (type (currentToken p')); discriminate | discriminate | congruence].
Qed.

End Fuel.

(** [parseQuery] is [parseQuery_fuel]: the fuel never runs out. *)
Lemma parseQuery_fuel_enough (queryString : string) :
  parseQuery_fuel queryString = Some (parseQuery queryString).
Proof.
  unfold parseQuery.
  pose proof (parse_fuel Lexer.state Lexer.getNextToken
                (fun l => String.length (Lexer.rest l))
                (fun l l' t => LexerFacts.getNextToken_progress l l' t)
                (S (String.length queryString))
                (Lexer.createLexer queryString)) as H.
  fold (parseQuery_fuel queryString) in H.
  destruct (parseQuery_fuel queryString); [reflexivity|].
  exfalso. apply H; [cbn; lia | reflexivity].
Qed.

(** An input that starts with a token other than the end has a character. *)
Lemma emits_nonempty (input : string) (t : Token) (tokens : list Token)
    (l' : Lexer.state) :
  type t <> EOF ->
  Parser.emits Lexer.getNextToken (Lexer.createLexer input) (t :: tokens) l' ->
  1 <= String.length input.
Proof.
  intros Ht [l1 [Hget _]].
  apply LexerFacts.getNextToken_progress in Hget as [_ Hget].
  specialize (Hget Ht). cbn in Hget. lia.
Qed.

(** C5.  An input whose tokens are those of a clause [a], an operator, a
    clause [b], an operator and a clause [c] parses to
    [CompoundQuery (CompoundQuery a OP1 b) OP2 c], whichever of [AND] and
    [OR] the operators are; [a r_x $y AND b r_z $w OR c r_q $v] parses to
    [((a r_x $y AND b r_z $w) OR c r_q $v)]. *)
Theorem expression_folds_left :
  (forall (input : string) (a b c : SimpleQuery) (t1 t2 eof : Token)
          (op1 op2 : Operator) (l' : Lexer.state),
      isClause a -> isClause b -> isClause c ->
      operatorOf t1 = Some op1 -> operatorOf t2 = Some op2 -> type eof = EOF ->
      Parser.emits Lexer.getNextToken (Lexer.createLexer input)
        (clauseTokens a ++ (t1 :: clauseTokens b) ++ (t2 :: clauseTokens c) ++ [eof])
        l' ->
      parseQuery input
      = Return (CompoundQuery (CompoundQuery (Simple a) op1 (Simple b)) op2 (Simple c)))
  /\ parseQuery "a r_x $y AND b r_z $w OR c r_q $v"
     = Return (CompoundQuery
                 (CompoundQuery (Simple Example.clause_a) op_AND (Simple Example.clause_b))
                 op_OR (Simple Example.clause_c))
  /\ astToString
       (CompoundQuery
          (CompoundQuery (Simple Example.clause_a) op_AND (Simple Example.clause_b))
          op_OR (Simple Example.clause_c))
     = "((a r_x $y AND b r_z $w) OR c r_q $v)".
Proof.
  split; [|split; reflexivity].
  intros input a b c t1 t2 eof op1 op2 l' Ha Hb Hc H1 H2 Heof Hemits.
  assert (Hlen : 1 <= String.length input).
  { rewrite clauseTokens_cons in Hemits. cbn [app] in Hemits.
    apply emits_nonempty in Hemits; [exact Hemits|].
    destruct (clause_subject Ha) as [H|H]; rewrite H; discriminate. }
  pose proof (parse_chain Lexer.state Lexer.getNextToken a
                [(t1, op1, b); (t2, op2, c)] eof (Lexer.createLexer input) l'
                (S (String.length input)) Ha) as Hparse.
  unfold chainTokens in Hparse. cbn [flat_map linkTokens] in Hparse.
  rewrite app_nil_r in Hparse.
  assert (Hlinks : Forall isLink [(t1, op1, b); (t2, op2, c)]).
  { repeat (apply Forall_cons; [split; assumption|]). apply Forall_nil. }
  specialize (Hparse Hlinks Heof).
  rewrite <- app_assoc in Hparse.
  specialize (Hparse Hemits ltac:(cbn; lia)).
  fold (parseQuery_fuel input) in Hparse.
  rewrite parseQuery_fuel_enough in Hparse. now injection Hparse.
Qed.

(** The theorem at [a r_x $y AND b r_z $w OR c r_q $v]. *)
Lemma expression_folds_left_witness :
  parseQuery "a r_x $y AND b r_z $w OR c r_q $v"
  = Return (CompoundQuery
              (CompoundQuery (Simple Example.clause_a) op_AND (Simple Example.clause_b))
              op_OR (Simple Example.clause_c)).
Proof.
  apply (proj1 expression_folds_left
           "a r_x $y AND b r_z $w OR c r_q $v"
           Example.clause_a Example.clause_b Example.clause_c
           (createToken AND "AND" 9) (createToken OR "OR" 22)
           (createToken EOF EmptyString 33) op_AND op_OR
           (Lexer.mk 33 EmptyString)).
  - constructor; unfold isOperand; cbn; auto.
  - constructor; unfold isOperand; cbn; auto.
  - constructor; unfold isOperand; cbn; auto.
  - reflexivity.
  - reflexivity.
  - reflexivity.
  - cbn [clauseTokens Example.clause_a Example.clause_b Example.clause_c
         Example.clause createSimpleQuery subject relation object weightParam grep
         optionalToken app Parser.emits].
    repeat (eexists; split; [vm_compute; reflexivity|]).
    reflexivity.
Defined.

(** C7, as stated, fails: the sharp sign at position 11 of
    [lion r_isa #] and the one at position 9 of [$x r_isa #] raise the same
    message, which holds the character and no position. *)
Lemma lexical_error_omits_position :
  (String.get 11 "lion r_isa #" = Some "#"%char
   /\ parseQuery "lion r_isa #" = Throw "Unexpected character: #"
   /\ JS.includes "Unexpected character: #" "11" = false)
  /\ (String.get 9 "$x r_isa #" = Some "#"%char
      /\ parseQuery "$x r_isa #" = Throw "Unexpected character: #"
      /\ JS.includes "Unexpected character: #" "9" = false).
Proof. repeat split; reflexivity. Qed.

End ParserFacts.

(** ** The clause resolver *)

Module ResolverFacts.

(** C1, on the code.  Without a weight token the band is [30, 999999] and
    the token [=10] pins both bounds to [10]; but a token [>=N] leaves
    [=N] as the lower bound, and a token [<=N] leaves [=N] as the upper
    bound, because only the first comparison character is taken out:
    [>=500] gives [min_weight==500] in the URL. *)
Theorem weightBand_keeps_equals_sign :
  weightBand None = (WNumber 30, WNumber 999999)
  /\ weightBand (Some (createToken WEIGHT_PARAM "=10" 16))
     = (WString "10", WString "10")
  /\ weightBand (Some (createToken WEIGHT_PARAM ">=500" 16))
     = (WString "=500", WNumber 999999)
  /\ weightBand (Some (createToken WEIGHT_PARAM "<=100" 16))
     = (WNumber 30, WString "=100")
  /\ relations_url "to" "animal" 6 (WString "=500") (WNumber 999999)
     = "https://jdm-api.demo.lirmm.fr/v0/relations/to/animal?types_ids=6&min_weight==500&max_weight=999999&limit=900&type=1"
  /\ (forall (n : string) (pos : nat),
        fst (weightBand (Some (createToken WEIGHT_PARAM (">=" ++ n) pos)))
        = WString ("=" ++ n))
  /\ (forall (n : string) (pos : nat),
        snd (weightBand (Some (createToken WEIGHT_PARAM ("<=" ++ n) pos)))
        = WString ("=" ++ n)).
Proof.
  repeat split; try reflexivity.
  - intros n pos. unfold weightBand. cbn [value].
    destruct n; cbn; reflexivity.
  - intros n pos. unfold weightBand. cbn [value].
    destruct n as [|c n]; cbn; [reflexivity|].
    destruct (Ascii.ascii_dec ">" c); cbn; try reflexivity;
      destruct (JS.includes _ _); reflexivity.
Qed.

Lemma jsstring_eqb_eq (a b : jsstring) : jsstring_eqb a b = true <-> a = b.
Proof.
  destruct a as [a|], b as [b|]; cbn; try (split; congruence).
  rewrite String.eqb_eq. split; congruence.
Qed.

Lemma includes_In (l : list jsstring) (x : jsstring) :
  includes l x = true <-> In x l.
Proof.
  unfold includes. rewrite existsb_exists. split.
  - intros [y [Hy Heq]]. apply jsstring_eqb_eq in Heq. now subst.
  - intros H. exists x. split; [exact H|]. now apply jsstring_eqb_eq.
Qed.

Lemma relations_url_nonempty (direction entity : string) (relationId : Z)
    (minWeight maxWeight : Weight) :
  String.eqb (relations_url direction entity relationId minWeight maxWeight)
    EmptyString = false.
Proof. reflexivity. Qed.

Section WithWorld.

Variable relationsData : list CatalogEntry.
Variable handleAPICall : string -> ApiData.
Variable RegExp : Type.
Variable RegExp_new : string -> Except RegExp.
Variable RegExp_test : RegExp -> string -> bool.
Variable completion : CompletionOrder.

Local Abbreviation resolve :=
  (evaluateSimpleQuery relationsData handleAPICall RegExp_new RegExp_test completion).
Local Abbreviation lookup q :=
  (find (fun v => String.eqb (code v) (relationCode q)) relationsData).

(** What [evaluateSimpleQuery] comes to once the filter is compiled and
    the relation found. *)
Lemma evaluateSimpleQuery_known (q : SimpleQuery) (existing : VariableContents)
    (regex : option RegExp) (entry : CatalogEntry) :
  compileGrep RegExp_new q = Return regex ->
  lookup q = Some entry ->
  resolve q existing
  = let minWeight := fst (weightBand (weightParam q)) in
    let maxWeight := snd (weightBand (weightParam q)) in
    match type (subject q), type (object q) with
    | VARIABLE, VARIABLE =>
        Return (variableToVariable handleAPICall RegExp_test completion q existing (id entry)
                  minWeight maxWeight regex)
    | VARIABLE, ENTITY =>
        Return (variableAndEntity handleAPICall RegExp_test q existing
                  (value (subject q))
                  (relations_url "to" (value (object q)) (id entry) minWeight maxWeight)
                  regex)
    | ENTITY, VARIABLE =>
        Return (variableAndEntity handleAPICall RegExp_test q existing
                  (value (object q))
                  (relations_url "from" (value (subject q)) (id entry) minWeight maxWeight)
                  regex)
    | _, _ => Throw "Invalid API URL  or case not implemented"
    end.
Proof.
  intros Hgrep Hfind. unfold evaluateSimpleQuery.
  destruct (weightBand (weightParam q)) as [minWeight maxWeight]. cbn [fst snd].
  rewrite Hgrep. cbn [bindE]. rewrite Hfind.
  destruct (type (subject q)), (type (object q)); try reflexivity;
    rewrite relations_url_nonempty; reflexivity.
Qed.

(** The filter leaves an empty list empty. *)
Lemma grepFilter_nil (regex : option RegExp) :
  grepFilter RegExp_test regex [] = [].
Proof. now destruct regex. Qed.

(** A negated clause with one variable: the earlier values of the variable
    without the names the lookup gives, then the filter. *)
Lemma variableAndEntity_negated (q : SimpleQuery) (existing : VariableContents)
    (variable apiUrl : string) (regex : option RegExp) (prior : Var.t) :
  negated q = true ->
  findVar variable existing = Some prior ->
  variableAndEntity handleAPICall RegExp_test q existing variable apiUrl regex
  = [Var.mk variable
       (grepFilter RegExp_test regex
          (filter (fun v => negb (includes (lexicalNames (handleAPICall apiUrl)) v))
             (Var.value prior)))].
Proof.
  intros Hneg Hprior. unfold variableAndEntity. now rewrite Hneg, Hprior.
Qed.

Lemma variableAndEntity_negated_unbound (q : SimpleQuery)
    (existing : VariableContents) (variable apiUrl : string)
    (regex : option RegExp) :
  negated q = true ->
  findVar variable existing = None ->
  variableAndEntity handleAPICall RegExp_test q existing variable apiUrl regex
  = [Var.mk variable []].
Proof.
  intros Hneg Hprior. unfold variableAndEntity. rewrite Hneg, Hprior. cbn [filter].
  now rewrite grepFilter_nil.
Qed.


(** A clause between two entities never returns. *)
Lemma evaluateSimpleQuery_entities_throw (q : SimpleQuery)
    (existing : VariableContents) :
  type (subject q) = ENTITY -> type (object q) = ENTITY ->
  exists msg, resolve q existing = Throw msg.
Proof.
  intros Hs Ho. unfold evaluateSimpleQuery.
  destruct (weightBand (weightParam q)) as [minWeight maxWeight].
  destruct (compileGrep RegExp_new q) as [regex|msg]; cbn [bindE]; [|now exists msg].
  destruct (find _ relationsData); [|eexists; reflexivity].
  rewrite Hs, Ho. eexists. reflexivity.
Qed.

End WithWorld.

(** The error of a clause is the error of the whole evaluation. *)
Section Propagation.

Variable relationsData : list CatalogEntry.
Variable handleAPICall : string -> ApiData.
Variable RegExp : Type.
Variable RegExp_new : string -> Except RegExp.
Variable RegExp_test : RegExp -> string -> bool.
Variable completion : CompletionOrder.

Local Abbreviation resolve :=
  (evaluateSimpleQuery relationsData handleAPICall RegExp_new RegExp_test completion).
Local Abbreviation evaluate :=
  (evaluateQuery relationsData handleAPICall RegExp_new RegExp_test completion).
Local Abbreviation reaches :=
  (reaches relationsData handleAPICall RegExp_new RegExp_test completion).

Lemma evaluateQuery_aborts (q : SimpleQuery) (existing : VariableContents)
    (msg : string) (ast : ASTNode) (start : VariableContents) :
  resolve q existing = Throw msg ->
  reaches q existing ast start ->
  evaluate ast start = Throw msg.
Proof.
  intros Hthrow Hreach.
  induction Hreach as [start -> | l r operator start _ IH
                       | l r operator start leftResult Hleft _ IH];
    cbn [evaluateQuery].
  - now rewrite Hthrow.
  - now rewrite IH.
  - rewrite Hleft. cbn [bindE]. now rewrite IH.
Qed.


End Propagation.

(** C4, as amended.  For a negated Variable-Entity clause whose variable
    already has a binding, [evaluateSimpleQuery] rebinds the variable to
    those of its prior values that the lookup does not report as related to
    the entity and that pass the filter of the clause, if it has one (lines
    147-153).  Without a filter this is the set difference of the prior
    values minus the reported entities: with [$x] bound to lion, rose and
    cat, the clause [$x !r_isa mammal] and a lookup that reports the lion
    and the cat, the result binds [$x] to the rose.  The order of the
    completion of the lookups plays no part in it. *)
Theorem negated_variable_entity_difference :
  (forall (relationsData : list CatalogEntry) (handleAPICall : string -> ApiData)
          (RegExp : Type) (RegExp_new : string -> Except RegExp)
          (RegExp_test : RegExp -> string -> bool)
          (completion : CompletionOrder)
          (q : SimpleQuery) (existing : VariableContents)
          (regex : option RegExp) (entry : CatalogEntry) (prior : Var.t),
      type (subject q) = VARIABLE -> type (object q) = ENTITY ->
      negated q = true ->
      compileGrep RegExp_new q = Return regex ->
      find (fun v => String.eqb (code v) (relationCode q)) relationsData = Some entry ->
      findVar (value (subject q)) existing = Some prior ->
      let related :=
        lexicalNames (handleAPICall
          (relations_url "to" (value (object q)) (id entry)
             (fst (weightBand (weightParam q))) (snd (weightBand (weightParam q))))) in
      exists values,
        evaluateSimpleQuery relationsData handleAPICall RegExp_new RegExp_test completion q existing
        = Return [Var.mk (value (subject q)) values]
        /\ values
           = grepFilter RegExp_test regex
               (filter (fun v => negb (includes related v)) (Var.value prior))
        /\ (forall v,
              In v values
              <-> In v (Var.value prior) /\ ~ In v related
                  /\ match regex with
                     | Some r => RegExp_test r (JS.template v) = true
                     | None => True
                     end)
        /\ (regex = None ->
            forall v, In v values <-> In v (Var.value prior) /\ ~ In v related))
  /\ (forall (handleAPICall : string -> ApiData) (completion : CompletionOrder),
        lexicalNames (handleAPICall Example.mammalUrl) = strings ["lion"; "cat"] ->
        evaluateSimpleQuery Example.catalog handleAPICall
          Example.RegExp_new Example.RegExp_test completion
          Example.notMammal Example.lionRoseCat
        = Return [Var.mk "$x" (strings ["rose"])]).
Proof.
  split.
  - intros relationsData handleAPICall RegExp RegExp_new RegExp_test completion q existing
      regex entry prior Hs Ho Hneg Hgrep Hfind Hprior related.
    assert (Hdiff : forall v,
               In v (filter (fun v => negb (includes related v)) (Var.value prior))
               <-> In v (Var.value prior) /\ ~ In v related).
    { intros v. rewrite filter_In, negb_true_iff.
      rewrite <- (includes_In related v).
      destruct (includes related v); intuition congruence. }
    eexists. split; [|split; [reflexivity|split]].
    + rewrite (evaluateSimpleQuery_known _ _ _ _ _ _ q existing regex entry Hgrep Hfind).
      rewrite Hs, Ho. cbv zeta.
      now rewrite (variableAndEntity_negated _ _ _ q existing _ _ regex prior Hneg Hprior).
    + intros v. destruct regex as [r|]; cbn [grepFilter].
      * rewrite filter_In, Hdiff. tauto.
      * rewrite Hdiff. tauto.
    + intros ->. intros v. cbn [grepFilter]. apply Hdiff.
  - intros handleAPICall completion Hlookup.
    rewrite (evaluateSimpleQuery_known Example.catalog handleAPICall _ _ _ completion
               Example.notMammal Example.lionRoseCat None (mkCatalogEntry 6 "r_isa")
               eq_refl eq_refl).
    change (Return (variableAndEntity handleAPICall Example.RegExp_test
                      Example.notMammal Example.lionRoseCat "$x" Example.mammalUrl None)
            = Return [Var.mk "$x" (strings ["rose"])]).
    rewrite (variableAndEntity_negated handleAPICall _ Example.RegExp_test
               Example.notMammal Example.lionRoseCat "$x" Example.mammalUrl None
               (Var.mk "$x" (strings ["lion"; "rose"; "cat"])) eq_refl eq_refl).
    rewrite Hlookup. reflexivity.
Qed.

(** The theorem in the example world, whose lookup of the mammals reports
    the lion and the cat. *)
Lemma negated_variable_entity_difference_witness :
  exists values,
    evaluateSimpleQuery Example.catalog Example.graph
      Example.RegExp_new Example.RegExp_test Example.inOrder Example.notMammal Example.lionRoseCat
    = Return [Var.mk "$x" values]
    /\ values = strings ["rose"].
Proof.
  destruct (proj1 negated_variable_entity_difference
              Example.catalog Example.graph Example.RegExp
              Example.RegExp_new Example.RegExp_test Example.inOrder
              Example.notMammal Example.lionRoseCat None (mkCatalogEntry 6 "r_isa")
              (Var.mk "$x" (strings ["lion"; "rose"; "cat"]))
              eq_refl eq_refl eq_refl eq_refl eq_refl eq_refl)
    as [values [Heval [Hvalues _]]].
  exists values. split; [exact Heval|]. rewrite Hvalues. reflexivity.
Defined.

(** C4, as stated, fails where the clause has a filter: take the clause
    [$x !r_isa mammal /z/], which the parser accepts, with [$x] bound to
    lion, rose and cat and a lookup that reports the lion and the cat.
    The rose is in the set difference, but lines 151-153 drop it because
    its name does not match the filter: [$x] is bound to no value.  So a
    negated Variable-Entity clause with a bound variable does not always
    rebind it to the set difference. *)
Lemma negated_filter_narrows_the_difference :
  parseQuery "$x !r_isa mammal /z/" = Return (Simple Example.notMammalZ)
  /\ lexicalNames (Example.graph Example.mammalUrl) = strings ["lion"; "cat"]
  /\ evaluateSimpleQuery Example.catalog Example.graph
       Example.RegExp_new Example.RegExp_test Example.inOrder
       Example.notMammalZ Example.lionRoseCat
     = Return [Var.mk "$x" []]
  /\ ~ (forall (relationsData : list CatalogEntry) (handleAPICall : string -> ApiData)
               (RegExp : Type) (RegExp_new : string -> Except RegExp)
               (RegExp_test : RegExp -> string -> bool)
               (completion : CompletionOrder)
               (q : SimpleQuery) (existing : VariableContents)
               (entry : CatalogEntry) (prior : Var.t) (values : list jsstring),
           type (subject q) = VARIABLE -> type (object q) = ENTITY ->
           negated q = true ->
           find (fun v => String.eqb (code v) (relationCode q)) relationsData
           = Some entry ->
           findVar (value (subject q)) existing = Some prior ->
           evaluateSimpleQuery relationsData handleAPICall RegExp_new RegExp_test
             completion q existing
           = Return [Var.mk (value (subject q)) values] ->
           forall v,
             In v values
             <-> In v (Var.value prior)
                 /\ ~ In v (lexicalNames (handleAPICall
                              (relations_url "to" (value (object q)) (id entry)
                                 (fst (weightBand (weightParam q)))
                                 (snd (weightBand (weightParam q))))))).
Proof.
  split; [reflexivity|]. split; [reflexivity|]. split; [reflexivity|].
  intros H.
  specialize (H Example.catalog Example.graph Example.RegExp
                Example.RegExp_new Example.RegExp_test Example.inOrder
                Example.notMammalZ Example.lionRoseCat (mkCatalogEntry 6 "r_isa")
                (Var.mk "$x" (strings ["lion"; "rose"; "cat"])) []
                eq_refl eq_refl eq_refl eq_refl eq_refl eq_refl (Some "rose")).
  apply (proj2 H). split.
  - cbn. auto.
  - intros Hin. cbn in Hin. intuition discriminate.
Qed.







(** C9.  A clause between two entities never returns bindings: it throws,
    and when its relation is in the catalog and its filter, if it has one,
    compiles, the error is that of the case that is not implemented.  The
    grammar accepts such a clause: [lion r_isa animal] parses. *)
Theorem entity_entity_not_implemented :
  (forall (relationsData : list CatalogEntry) (handleAPICall : string -> ApiData)
          (RegExp : Type) (RegExp_new : string -> Except RegExp)
          (RegExp_test : RegExp -> string -> bool)
          (completion : CompletionOrder)
          (q : SimpleQuery) (existing : VariableContents),
      type (subject q) = ENTITY -> type (object q) = ENTITY ->
      (exists msg,
         evaluateSimpleQuery relationsData handleAPICall RegExp_new RegExp_test completion
           q existing = Throw msg)
      /\ (forall (regex : option RegExp) (entry : CatalogEntry),
            compileGrep RegExp_new q = Return regex ->
            find (fun v => String.eqb (code v) (relationCode q)) relationsData
            = Some entry ->
            evaluateSimpleQuery relationsData handleAPICall RegExp_new RegExp_test completion
              q existing
            = Throw "Invalid API URL  or case not implemented"))
  /\ parseQuery "lion r_isa animal" = Return (Simple Example.lionIsAnimal).
Proof.
  split; [|reflexivity].
  intros relationsData handleAPICall RegExp RegExp_new RegExp_test completion q existing Hs Ho.
  split.
  - now apply evaluateSimpleQuery_entities_throw.
  - intros regex entry Hgrep Hfind.
    rewrite (evaluateSimpleQuery_known _ _ _ _ _ _ q existing regex entry Hgrep Hfind).
    now rewrite Hs, Ho.
Qed.

(** The theorem at [lion r_isa animal] in the example world. *)
Lemma entity_entity_not_implemented_witness :
  evaluateSimpleQuery Example.catalog Example.graph
    Example.RegExp_new Example.RegExp_test Example.inOrder Example.lionIsAnimal []
  = Throw "Invalid API URL  or case not implemented".
Proof.
  exact (proj2 (proj1 entity_entity_not_implemented
           Example.catalog Example.graph Example.RegExp
           Example.RegExp_new Example.RegExp_test Example.inOrder Example.lionIsAnimal []
           eq_refl eq_refl)
           None (mkCatalogEntry 6 "r_isa") eq_refl eq_refl).
Defined.

(** C10.  A negated clause with one variable, on either side, whose
    variable has no binding yet, binds it to the empty list and raises
    nothing (its relation being in the catalog and its filter, if it has
    one, compiling). *)
Theorem negated_unbound_variable_empty :
  forall (relationsData : list CatalogEntry) (handleAPICall : string -> ApiData)
         (RegExp : Type) (RegExp_new : string -> Except RegExp)
         (RegExp_test : RegExp -> string -> bool)
         (completion : CompletionOrder)
         (q : SimpleQuery) (existing : VariableContents)
         (regex : option RegExp) (entry : CatalogEntry) (variable : string),
    negated q = true ->
    (type (subject q) = VARIABLE /\ type (object q) = ENTITY
     /\ variable = value (subject q))
    \/ (type (subject q) = ENTITY /\ type (object q) = VARIABLE
        /\ variable = value (object q)) ->
    compileGrep RegExp_new q = Return regex ->
    find (fun v => String.eqb (code v) (relationCode q)) relationsData = Some entry ->
    findVar variable existing = None ->
    evaluateSimpleQuery relationsData handleAPICall RegExp_new RegExp_test completion q existing
    = Return [Var.mk variable []].
Proof.
  intros relationsData handleAPICall RegExp RegExp_new RegExp_test completion q existing
    regex entry variable Hneg Hcase Hgrep Hfind Hunbound.
  rewrite (evaluateSimpleQuery_known _ _ _ _ _ _ q existing regex entry Hgrep Hfind).
  destruct Hcase as [[Hs [Ho ->]]|[Hs [Ho ->]]]; rewrite Hs, Ho; cbv zeta;
    now rewrite (variableAndEntity_negated_unbound _ _ _ q existing _ _ regex
                   Hneg Hunbound).
Qed.

(** The theorem at [$x !r_isa mammal] and at [mammal !r_isa $x], evaluated
    from no bindings in the example world. *)
Lemma negated_unbound_variable_empty_witness :
  evaluateSimpleQuery Example.catalog Example.graph
    Example.RegExp_new Example.RegExp_test Example.inOrder Example.notMammal []
  = Return [Var.mk "$x" []]
  /\ evaluateSimpleQuery Example.catalog Example.graph
       Example.RegExp_new Example.RegExp_test Example.inOrder Example.mammalNot []
     = Return [Var.mk "$x" []].
Proof.
  split.
  - apply (negated_unbound_variable_empty
             Example.catalog Example.graph Example.RegExp
             Example.RegExp_new Example.RegExp_test Example.inOrder Example.notMammal []
             None (mkCatalogEntry 6 "r_isa") "$x" eq_refl);
      [left; repeat split | reflexivity | reflexivity | reflexivity].
  - apply (negated_unbound_variable_empty
             Example.catalog Example.graph Example.RegExp
             Example.RegExp_new Example.RegExp_test Example.inOrder Example.mammalNot []
             None (mkCatalogEntry 6 "r_isa") "$x" eq_refl);
      [right; repeat split | reflexivity | reflexivity | reflexivity].
Defined.

End ResolverFacts.

(** ** Tuple reconstruction *)

Module TuplesFacts.
Import Tuples.

Lemma somePair_contains (table : list (list string)) (a b : jsstring) :
  somePair table a b = true <-> containsPair table a b.
Proof.
  unfold somePair, containsPair. rewrite existsb_exists.
  split; intros [pair [Hin H]]; exists pair; split; try exact Hin.
  - apply andb_prop in H as [H0 H1].
    now apply ResolverFacts.jsstring_eqb_eq in H0, H1.
  - destruct H as [H0 H1]. apply andb_true_intro.
    split; now apply ResolverFacts.jsstring_eqb_eq.
Qed.

(** A candidate passes the test against an earlier variable when the
    table of the pair relation from that variable holds the pair, or, if
    there is no such table, when the table of the relation the other way
    round holds the reversed pair. *)
Lemma compatible_iff (tb : tables) (currentTuple : JSMap.t jsstring jsstring)
    (currentVar value prevVar : jsstring) :
  compatible tb currentTuple currentVar value prevVar = true <->
  (forall table,
     JSMap.get String.eqb (pairRelations tb) (pairKey prevVar currentVar) = Some table ->
     containsPair table (tupleGet currentTuple prevVar) value)
  /\ (JSMap.get String.eqb (pairRelations tb) (pairKey prevVar currentVar) = None ->
      forall table,
        JSMap.get String.eqb (pairRelations tb) (pairKey currentVar prevVar) = Some table ->
        containsPair table value (tupleGet currentTuple prevVar)).
Proof.
  unfold compatible.
  destruct (JSMap.get String.eqb (pairRelations tb) (pairKey prevVar currentVar))
    as [forward|].
  - rewrite somePair_contains. split.
    + intros H. split; [|discriminate]. intros table Heq. now injection Heq as <-.
    + intros [H _]. now apply H.
  - destruct (JSMap.get String.eqb (pairRelations tb) (pairKey currentVar prevVar))
      as [backward|].
    + rewrite somePair_contains. split.
      * intros H. split; [discriminate|]. intros _ table Heq. now injection Heq as <-.
      * intros [_ H]. now apply H.
    + split; [|reflexivity]. intros _. split; [discriminate|]. intros _ table. discriminate.
Qed.

(** C3, as stated, fails on its rule: with a pair relation from [x] to [y]
    that holds (a, b) and one from [y] to [x] that holds (c, d), the row
    [x = a, y = b] is emitted; b was accepted for [y] although the table
    from [y] to [x] exists and does not hold (b, a).  A candidate is
    therefore not tested against every table there is between the two
    variables. *)
Lemma reverse_table_not_consulted :
  generateTuples Example.bothDirections
  = Return [[("x", Some "a"); ("y", Some "b")]]
  /\ collectAll (mkTables [] [] []) Example.bothDirections = Return Example.bothTables
  /\ isValid Example.bothTables [Some "x"] [(Some "x", Some "a")] (Some "y") (Some "b")
     = true
  /\ JSMap.get String.eqb (pairRelations Example.bothTables)
       (pairKey (Some "y") (Some "x")) = Some [["c"; "d"]]
  /\ ~ containsPair [["c"; "d"]] (Some "b") (Some "a")
  /\ ~ (forall (tb : tables) (assigned : list jsstring)
               (currentTuple : JSMap.t jsstring jsstring) (currentVar value : jsstring),
          isValid tb assigned currentTuple currentVar value = true ->
          forall prevVar, In prevVar assigned ->
          forall table,
            (JSMap.get String.eqb (pairRelations tb) (pairKey prevVar currentVar)
             = Some table ->
             containsPair table (tupleGet currentTuple prevVar) value)
            /\ (JSMap.get String.eqb (pairRelations tb) (pairKey currentVar prevVar)
                = Some table ->
                containsPair table value (tupleGet currentTuple prevVar))).
Proof.
  assert (Hnot : ~ containsPair [["c"; "d"]] (Some "b") (Some "a")).
  { intros [pair [[<-|[]] [H _]]]. discriminate H. }
  repeat split; try reflexivity; try exact Hnot.
  intros H.
  specialize (H Example.bothTables [Some "x"] [(Some "x", Some "a")]
                (Some "y") (Some "b") eq_refl (Some "x") (or_introl eq_refl)
                [["c"; "d"]]).
  destruct H as [_ H]. apply Hnot. now apply H.
Qed.

(** C3, as amended.  From the pairs (lion, mane) and (lion, roar) of [x]
    and [y] and the value mane of [y], in either order, [generateTuples]
    makes the one row [x = lion, y = mane]: the candidates of [y] are its bound values, so
    roar is none.  A candidate is accepted exactly when, for every variable
    assigned before it, the table of the pair relation from that variable
    holds the assigned pair, or, where there is no such table, the table
    of the relation the other way round holds it; where both tables exist
    only the first is consulted. *)
Theorem generateTuples_checks_pairs :
  generateTuples Example.lionMane
  = Return [[("x", Some "lion"); ("y", Some "mane")]]
  /\ generateTuples (rev Example.lionMane)
     = Return [[("x", Some "lion"); ("y", Some "mane")]]
  /\ (forall (tb : tables) (n : string) (values : list jsstring),
        JSMap.get String.eqb (variableValues tb) n = Some values ->
        potentialValues tb (Some n) = values)
  /\ (forall (tb : tables) (assigned todo : list jsstring)
             (currentTuple : JSMap.t jsstring jsstring) (currentVar : jsstring)
             (row : Obj.t),
        In row (buildTuples tb assigned (currentVar :: todo) currentTuple) <->
        exists value,
          In value (potentialValues tb currentVar)
          /\ isValid tb assigned currentTuple currentVar value = true
          /\ In row (buildTuples tb (assigned ++ [currentVar]) todo
                       (JSMap.set jsstring_eqb currentTuple currentVar value)))
  /\ (forall (tb : tables) (assigned : list jsstring)
             (currentTuple : JSMap.t jsstring jsstring) (currentVar value : jsstring),
        isValid tb assigned currentTuple currentVar value = true <->
        forall prevVar, In prevVar assigned ->
          (forall table,
             JSMap.get String.eqb (pairRelations tb) (pairKey prevVar currentVar)
             = Some table ->
             containsPair table (tupleGet currentTuple prevVar) value)
          /\ (JSMap.get String.eqb (pairRelations tb) (pairKey prevVar currentVar)
              = None ->
              forall table,
                JSMap.get String.eqb (pairRelations tb) (pairKey currentVar prevVar)
                = Some table ->
                containsPair table value (tupleGet currentTuple prevVar))).
Proof.
  split; [reflexivity|]. split; [reflexivity|]. split; [|split].
  - intros tb n values H. unfold potentialValues. now rewrite H.
  - intros tb assigned todo currentTuple currentVar row.
    cbn [buildTuples]. rewrite in_flat_map. split.
    + intros [value [Hin Hrow]].
      destruct (isValid tb assigned currentTuple currentVar value) eqn:Hvalid;
        [|destruct Hrow].
      exists value. auto.
    + intros [value [Hin [Hvalid Hrow]]]. exists value. split; [exact Hin|].
      now rewrite Hvalid.
  - intros tb assigned currentTuple currentVar value.
    unfold isValid. rewrite forallb_forall. split.
    + intros H prevVar Hin. apply compatible_iff. now apply H.
    + intros H prevVar Hin. apply compatible_iff. now apply H.
Qed.

(** The rule at the second variable of the example: mane is accepted for
    [y] next to lion for [x], the table from [x] to [y] holding
    (lion, mane). *)
Lemma generateTuples_checks_pairs_witness :
  isValid
    (mkTables [("x_y", [["lion"; "mane"]; ["lion"; "roar"]])]
       [("y", [Some "mane"])] [(Some "x", [Some "y"])])
    [Some "x"] [(Some "x", Some "lion")] (Some "y") (Some "mane") = true.
Proof.
  apply (proj2 (proj2 (proj2 (proj2 (proj2 generateTuples_checks_pairs)))
           (mkTables [("x_y", [["lion"; "mane"]; ["lion"; "roar"]])]
              [("y", [Some "mane"])] [(Some "x", [Some "y"])])
           [Some "x"] [(Some "x", Some "lion")] (Some "y") (Some "mane"))).
  intros prevVar [<-|[]]. split.
  - intros table H. injection H as <-.
    exists ["lion"; "mane"]. repeat split. now left.
  - discriminate.
Defined.

End TuplesFacts.

(** ** The combinator *)

Module CombinatorFacts.

Lemma dedupe_In (l : list jsstring) (x : jsstring) :
  In x (JS.dedupe jsstring_eqb l) <-> In x l.
Proof.
  induction l as [|y l IH]; cbn; [tauto|].
  rewrite filter_In, IH. split.
  - intros [H|[H _]]; auto.
  - intros [H|H]; [now left|].
    destruct (jsstring_eqb y x) eqn:E.
    + left. now apply ResolverFacts.jsstring_eqb_eq.
    + right. split; [exact H|reflexivity].
Qed.

(** [unionVariable] and the binding of a name. *)
Lemma unionVariable_other (n : string) (rightVar : Var.t)
    (combinedVariables : VariableContents) :
  String.eqb (Var.name rightVar) n = false ->
  findVar n (unionVariable combinedVariables rightVar) = findVar n combinedVariables.
Proof.
  intros Hn. induction combinedVariables as [|v rest IH]; cbn.
  - now rewrite Hn.
  - destruct (String.eqb (Var.name v) (Var.name rightVar)) eqn:E; cbn.
    + apply String.eqb_eq in E. rewrite E, Hn. reflexivity.
    + destruct (String.eqb (Var.name v) n); [reflexivity|exact IH].
Qed.

Lemma unionVariable_same (rightVar : Var.t) (combinedVariables : VariableContents) :
  findVar (Var.name rightVar) (unionVariable combinedVariables rightVar)
  = match findVar (Var.name rightVar) combinedVariables with
    | Some v =>
        Some (Var.mk (Var.name v)
                (JS.dedupe jsstring_eqb (Var.value v ++ Var.value rightVar)))
    | None => Some rightVar
    end.
Proof.
  induction combinedVariables as [|v rest IH]; cbn.
  - now rewrite String.eqb_refl.
  - destruct (String.eqb (Var.name v) (Var.name rightVar)) eqn:E; cbn; rewrite E.
    + reflexivity.
    + exact IH.
Qed.

Lemma holds_unionVariable (combinedVariables : VariableContents) (rightVar : Var.t)
    (n : string) (x : jsstring) :
  holds (unionVariable combinedVariables rightVar) n x <->
  holds combinedVariables n x \/ (Var.name rightVar = n /\ In x (Var.value rightVar)).
Proof.
  unfold holds. destruct (String.eqb (Var.name rightVar) n) eqn:E.
  - apply String.eqb_eq in E. subst n. rewrite unionVariable_same.
    destruct (findVar (Var.name rightVar) combinedVariables) as [v|].
    + split.
      * intros [u [Hu Hx]]. injection Hu as <-. cbn in Hx.
        apply dedupe_In, in_app_or in Hx as [Hx|Hx]; [left; eauto | right; auto].
      * intros H. eexists. split; [reflexivity|]. cbn. apply dedupe_In, in_or_app.
        destruct H as [[u [Hu Hx]]|[_ Hx]]; [injection Hu as <-; now left | now right].
    + split.
      * intros [u [Hu Hx]]. injection Hu as <-. right. auto.
      * intros [[u [Hu _]]|[_ Hx]]; [discriminate|]. eauto.
  - rewrite unionVariable_other by exact E. split; [auto|].
    intros [H|[H _]]; [exact H|]. apply String.eqb_neq in E. contradiction.
Qed.

Lemma holds_fold_unionVariable (rightVariables combinedVariables : VariableContents)
    (n : string) (x : jsstring) :
  holds (fold_left unionVariable rightVariables combinedVariables) n x <->
  holds combinedVariables n x
  \/ exists v, In v rightVariables /\ Var.name v = n /\ In x (Var.value v).
Proof.
  revert combinedVariables.
  induction rightVariables as [|rightVar rest IH]; intros combinedVariables;
    cbn [fold_left].
  - split; [auto|]. intros [H|[v [[] _]]]. exact H.
  - rewrite IH, holds_unionVariable. split.
    + intros [[H|[Hn Hx]]|[v [Hin H]]].
      * now left.
      * right. exists rightVar. split; [now left|]. now split.
      * right. exists v. split; [now right|exact H].
    + intros [H|[v [[<-|Hin] [Hn Hx]]]].
      * left. now left.
      * left. right. now split.
      * right. exists v. split; [exact Hin|]. now split.
Qed.

Lemma findVar_none (n : string) (vars : VariableContents) :
  findVar n vars = None <-> forall v, In v vars -> String.eqb (Var.name v) n = false.
Proof.
  unfold findVar. split.
  - intros H v Hin. exact (find_none _ _ H v Hin).
  - intros H. induction vars as [|v vars IH]; cbn; [reflexivity|].
    rewrite (H v (or_introl eq_refl)). apply IH. intros u Hu. apply H. now right.
Qed.

(** A name the right side does not bind keeps the binding of the left
    side. *)
Lemma fold_unionVariable_left_only (rightVariables combinedVariables : VariableContents)
    (n : string) :
  findVar n rightVariables = None ->
  findVar n (fold_left unionVariable rightVariables combinedVariables)
  = findVar n combinedVariables.
Proof.
  revert combinedVariables.
  induction rightVariables as [|rightVar rest IH]; intros combinedVariables Hnone;
    cbn [fold_left]; [reflexivity|].
  unfold findVar in Hnone. cbn [find] in Hnone.
  destruct (String.eqb (Var.name rightVar) n) eqn:E; [discriminate|].
  rewrite IH by exact Hnone. now apply unionVariable_other.
Qed.

(** A name only the right side binds, once, takes the binding of the right
    side. *)
Lemma fold_unionVariable_right_only (rightVariables combinedVariables : VariableContents)
    (n : string) :
  findVar n combinedVariables = None ->
  NoDup (map Var.name rightVariables) ->
  findVar n (fold_left unionVariable rightVariables combinedVariables)
  = findVar n rightVariables.
Proof.
  revert combinedVariables.
  induction rightVariables as [|rightVar rest IH];
    intros combinedVariables Hnone Hnodup; cbn [fold_left].
  - exact Hnone.
  - cbn [map] in Hnodup. inversion Hnodup as [|? ? Hnotin Hrest]. subst.
    unfold findVar at 2. cbn [find]. fold (findVar n rest).
    destruct (String.eqb (Var.name rightVar) n) eqn:E.
    + apply String.eqb_eq in E. subst n.
      rewrite fold_unionVariable_left_only.
      * rewrite unionVariable_same. now rewrite Hnone.
      * apply findVar_none. intros v Hin. apply String.eqb_neq. intros Heq.
        apply Hnotin. rewrite <- Heq. now apply in_map.
    + apply IH; [|exact Hrest]. now rewrite unionVariable_other.
Qed.

Lemma isEmpty_false {A : Type} (l : list A) : l <> [] -> isEmpty l = false.
Proof. destruct l; [congruence|reflexivity]. Qed.

(** Without pair bindings there is nothing to join and nothing to
    project: the bindings come out as they are, with the one row of no
    variable. *)
Lemma collectAll_plain (vars : VariableContents) :
  plain vars ->
  forall values, exists values',
    Tuples.collectAll (Tuples.mkTables [] values []) vars
    = Return (Tuples.mkTables [] values' []).
Proof.
  induction 1 as [|v vars Hv _ IH]; intros values; cbn [Tuples.collectAll].
  - now exists values.
  - unfold Tuples.collect. rewrite Hv. cbn [bindE Tuples.pairRelations
      Tuples.variableValues Tuples.relationGraph]. apply IH.
Qed.

Lemma generateTuples_plain (vars : VariableContents) :
  plain vars -> Tuples.generateTuples vars = Return [[]].
Proof.
  intros H. unfold Tuples.generateTuples.
  destruct (collectAll_plain vars H []) as [values' ->]. reflexivity.
Qed.

Lemma projectFrom_plain (vars : VariableContents) (indices : list nat) :
  plain vars -> projectFrom indices vars = Return vars.
Proof.
  intros H. induction indices as [|i indices IH]; cbn [projectFrom]; [reflexivity|].
  destruct (nth_error vars i) as [v|] eqn:Hi; [|exact IH].
  apply nth_error_In in Hi. unfold plain in H. rewrite Forall_forall in H.
  now rewrite (H v Hi).
Qed.

Lemma unionVariable_plain (combinedVariables : VariableContents) (rightVar : Var.t) :
  plain combinedVariables ->
  JS.includes (Var.name rightVar) "_pairs" = false ->
  plain (unionVariable combinedVariables rightVar).
Proof.
  intros H Hr. induction H as [|v rest Hv Hrest IH]; cbn [unionVariable].
  - now repeat constructor.
  - destruct (String.eqb (Var.name v) (Var.name rightVar)); now constructor.
Qed.

Lemma fold_unionVariable_plain (rightVariables combinedVariables : VariableContents) :
  plain combinedVariables -> plain rightVariables ->
  plain (fold_left unionVariable rightVariables combinedVariables).
Proof.
  intros Hc Hr. revert combinedVariables Hc.
  induction Hr as [|v rest Hv _ IH]; intros combinedVariables Hc; cbn [fold_left].
  - exact Hc.
  - apply IH. now apply unionVariable_plain.
Qed.

(** C6.  Under [OR], a side without bindings lets the result of the other
    side through as it is.  When both sides have bindings, what a name
    holds afterwards is what it held on the left or on the right; a name
    the right side does not bind keeps its left binding, and a name only
    the right side binds takes its right binding; without pair bindings
    these combined bindings are the ones returned.  Combining no bindings
    with [$x] bound to a and b gives the right side back. *)
Theorem combineOR_identity_and_union :
  (forall (rows : list jsstring) (rightResult : QueryOutcome),
      combineResults op_OR (mkOutcome rows []) rightResult = Return rightResult)
  /\ (forall (leftResult : QueryOutcome) (rows : list jsstring),
        variables leftResult <> [] ->
        combineResults op_OR leftResult (mkOutcome rows []) = Return leftResult)
  /\ (forall (leftResult rightResult : QueryOutcome),
        variables leftResult <> [] -> variables rightResult <> [] ->
        exists combinedVariables,
          combineOR leftResult rightResult = Carry combinedVariables
          /\ (forall n x,
                holds combinedVariables n x <->
                holds (variables leftResult) n x
                \/ exists v, In v (variables rightResult)
                             /\ Var.name v = n /\ In x (Var.value v))
          /\ (forall n,
                findVar n (variables rightResult) = None ->
                findVar n combinedVariables = findVar n (variables leftResult))
          /\ (forall n,
                findVar n (variables leftResult) = None ->
                NoDup (map Var.name (variables rightResult)) ->
                findVar n combinedVariables = findVar n (variables rightResult))
          /\ (plain (variables leftResult) -> plain (variables rightResult) ->
              combineResults op_OR leftResult rightResult
              = Return (mkOutcome (strings [EmptyString]) combinedVariables)))
  /\ combineResults op_OR Example.nothing Example.aAndB = Return Example.aAndB.
Proof.
  split; [|split; [|split]].
  - reflexivity.
  - intros leftResult rows Hleft. unfold combineResults, combineOR.
    now rewrite (isEmpty_false _ Hleft).
  - intros leftResult rightResult Hleft Hright.
    assert (Hcarry : combineOR leftResult rightResult
                     = Carry (fold_left unionVariable (variables rightResult)
                                (variables leftResult))).
    { unfold combineOR. now rewrite (isEmpty_false _ Hleft), (isEmpty_false _ Hright). }
    exists (fold_left unionVariable (variables rightResult) (variables leftResult)).
    split; [exact Hcarry|]. split; [|split; [|split]].
    + intros n x. apply holds_fold_unionVariable.
    + intros n. apply fold_unionVariable_left_only.
    + intros n. apply fold_unionVariable_right_only.
    + intros Hpl Hpr. unfold combineResults. rewrite Hcarry.
      pose proof (fold_unionVariable_plain _ _ Hpl Hpr) as Hplain.
      rewrite (generateTuples_plain _ Hplain). cbn [bindE map].
      unfold project. now rewrite (projectFrom_plain _ _ Hplain).
  - reflexivity.
Qed.

(** The theorem at a left side that binds [$x] to lion and [$y] to oak and
    a right side that binds [$x] to rose and [$y] to oak: [$x] holds
    rose afterwards. *)
Lemma combineOR_identity_and_union_witness :
  exists combinedVariables,
    combineOR Example.lionsAndOaks Example.rosesAndOaks = Carry combinedVariables
    /\ holds combinedVariables "$x" (Some "rose").
Proof.
  destruct (proj1 (proj2 (proj2 combineOR_identity_and_union))
              Example.lionsAndOaks Example.rosesAndOaks
              ltac:(discriminate) ltac:(discriminate))
    as [combinedVariables [Hcarry [Hholds _]]].
  exists combinedVariables. split; [exact Hcarry|].
  apply Hholds. right. exists (Var.mk "$x" (strings ["rose"])).
  split; [now left|]. split; [reflexivity|now left].
Defined.

(** *** What [AND] does with an empty intersection *)

Lemma findVar_app (n : string) (a b : VariableContents) :
  findVar n (a ++ b)
  = match findVar n a with Some v => Some v | None => findVar n b end.
Proof.
  unfold findVar. induction a as [|v a IH]; cbn; [reflexivity|].
  now destruct (String.eqb (Var.name v) n).
Qed.

(** The bindings pushed for one binding of the left side carry its
    name. *)
Lemma intersectVariable_name (rightVariables : VariableContents) (leftVar u : Var.t) :
  In u (intersectVariable rightVariables leftVar) ->
  Var.name u = Var.name leftVar.
Proof.
  unfold intersectVariable.
  destruct (findVar (Var.name leftVar) rightVariables) as [rightVar|]; cbv zeta.
  - destruct (Nat.ltb 0 _); [intros [<-|[]]; reflexivity | intros []].
  - intros [<-|[]]. reflexivity.
Qed.

(** A name bound once on the left, and on the right to values none of
    which it has on the left, is bound no more when [AND] carries on. *)
Lemma combineAND_empty_intersection_dropped (leftResult rightResult : QueryOutcome)
    (n : string) (leftVar rightVar : Var.t) (combinedVariables : VariableContents) :
  NoDup (map Var.name (variables leftResult)) ->
  findVar n (variables leftResult) = Some leftVar ->
  findVar n (variables rightResult) = Some rightVar ->
  filter (fun value => includes (Var.value rightVar) value) (Var.value leftVar) = [] ->
  combineAND leftResult rightResult = Carry combinedVariables ->
  findVar n combinedVariables = None.
Proof.
  intros Hnodup Hleft Hright Hempty. unfold combineAND.
  destruct (isEmpty (variables leftResult) || isEmpty (variables rightResult));
    [discriminate|].
  cbv zeta. destruct (existsb _ _); [discriminate|].
  intros H. injection H as <-. rewrite findVar_app.
  assert (Hright_only :
    findVar n
      (filter (fun rightVar0 =>
         negb (existsb (fun v => String.eqb (Var.name v) (Var.name rightVar0))
                 (variables leftResult)))
         (variables rightResult)) = None).
  { apply findVar_none. intros v Hv. apply filter_In in Hv as [_ Hv].
    apply String.eqb_neq. intros Heq. subst n.
    apply negb_true_iff in Hv. rewrite <- not_true_iff_false in Hv. apply Hv.
    apply existsb_exists. unfold findVar in Hleft.
    apply find_some in Hleft as [Hin Hname]. exists leftVar. split; [exact Hin|].
    exact Hname. }
  rewrite Hright_only.
  assert (Hshared :
    findVar n (flat_map (intersectVariable (variables rightResult))
                 (variables leftResult)) = None).
  { clear Hright_only. revert Hnodup Hleft.
    induction (variables leftResult) as [|v rest IH]; intros Hnodup Hleft;
      [reflexivity|].
    cbn [map] in Hnodup. inversion Hnodup as [|? ? Hnotin Hrest]. subst.
    cbn [flat_map]. rewrite findVar_app.
    unfold findVar in Hleft. cbn [find] in Hleft.
    destruct (String.eqb (Var.name v) n) eqn:E.
    - injection Hleft as <-. apply String.eqb_eq in E. subst n.
      unfold intersectVariable at 1. rewrite Hright. cbv zeta. rewrite Hempty.
      cbn [List.length Nat.ltb Nat.leb findVar find].
      apply findVar_none. intros u Hu. apply in_flat_map in Hu as [w [Hw Hu]].
      apply intersectVariable_name in Hu. apply String.eqb_neq. intros Heq.
      apply Hnotin. rewrite <- Heq, Hu. now apply in_map.
    - fold (findVar n rest) in Hleft. rewrite (IH Hrest Hleft).
      assert (Hchunk : findVar n (intersectVariable (variables rightResult) v) = None).
      { apply findVar_none. intros u Hu.
        rewrite (intersectVariable_name _ _ _ Hu). exact E. }
      now rewrite Hchunk. }
  now rewrite Hshared.
Qed.

(** A name only one side binds keeps its binding when [AND] carries on. *)
Lemma combineAND_left_only (leftResult rightResult : QueryOutcome) (n : string)
    (leftVar : Var.t) (combinedVariables : VariableContents) :
  findVar n (variables leftResult) = Some leftVar ->
  findVar n (variables rightResult) = None ->
  combineAND leftResult rightResult = Carry combinedVariables ->
  findVar n combinedVariables = Some leftVar.
Proof.
  intros Hleft Hright. unfold combineAND.
  destruct (isEmpty (variables leftResult) || isEmpty (variables rightResult));
    [discriminate|].
  cbv zeta. destruct (existsb _ _); [discriminate|].
  intros H. injection H as <-. rewrite findVar_app.
  assert (Hshared :
    findVar n (flat_map (intersectVariable (variables rightResult))
                 (variables leftResult)) = Some leftVar).
  { revert Hleft. induction (variables leftResult) as [|v rest IH]; intros Hleft;
      [discriminate|].
    cbn [flat_map]. rewrite findVar_app.
    unfold findVar in Hleft. cbn [find] in Hleft.
    destruct (String.eqb (Var.name v) n) eqn:E.
    - injection Hleft as <-. pose proof E as Heq. apply String.eqb_eq in Heq.
      unfold intersectVariable at 1. rewrite Heq, Hright.
      unfold findVar at 1. cbn [find]. now rewrite E.
    - fold (findVar n rest) in Hleft.
      assert (Hchunk : findVar n (intersectVariable (variables rightResult) v) = None).
      { apply findVar_none. intros u Hu.
        rewrite (intersectVariable_name _ _ _ Hu). exact E. }
      rewrite Hchunk. exact (IH Hleft). }
  now rewrite Hshared.
Qed.

Lemma combineAND_right_only (leftResult rightResult : QueryOutcome) (n : string)
    (combinedVariables : VariableContents) :
  findVar n (variables leftResult) = None ->
  combineAND leftResult rightResult = Carry combinedVariables ->
  findVar n combinedVariables = findVar n (variables rightResult).
Proof.
  intros Hleft. unfold combineAND.
  destruct (isEmpty (variables leftResult) || isEmpty (variables rightResult));
    [discriminate|].
  cbv zeta. destruct (existsb _ _); [discriminate|].
  intros H. injection H as <-. rewrite findVar_app.
  assert (Hshared :
    findVar n (flat_map (intersectVariable (variables rightResult))
                 (variables leftResult)) = None).
  { apply findVar_none. intros u Hu. apply in_flat_map in Hu as [w [Hw Hu]].
    rewrite (intersectVariable_name _ _ _ Hu).
    exact (proj1 (findVar_none n (variables leftResult)) Hleft w Hw). }
  rewrite Hshared. clear Hshared.
  induction (variables rightResult) as [|v rest IH]; [reflexivity|].
  cbn [filter].
  destruct (String.eqb (Var.name v) n) eqn:E.
  - pose proof E as Heq. apply String.eqb_eq in Heq.
    assert (Hnot : existsb (fun u => String.eqb (Var.name u) (Var.name v))
                     (variables leftResult) = false).
    { apply not_true_iff_false. intros Hex. apply existsb_exists in Hex as [u [Hu Hname]].
      rewrite Heq in Hname.
      rewrite (proj1 (findVar_none n (variables leftResult)) Hleft u Hu) in Hname.
      discriminate. }
    rewrite Hnot. cbn [negb]. unfold findVar. cbn [find]. now rewrite E.
  - destruct (negb _).
    + unfold findVar in *. cbn [find]. rewrite E. exact IH.
    + unfold findVar in *. cbn [find]. rewrite E. exact IH.
Qed.

(** C2, on the code.  Under [AND], a name bound on both sides to values
    that have nothing in common is left out of the combined bindings
    ([combineAND_empty_intersection_dropped]), and the evaluation goes on:
    lion against rose for [$x] gives one row, the empty string, and no
    bindings; with oak for [$y] on both sides, [$y]
    is still bound.  [$x r_isa animal AND $x r_isa plant] is answered with
    that row.  A variable without values that only the right side binds
    does empty the result. *)
Theorem combineAND_drops_empty_intersection :
  combineAND Example.lions Example.roses = Carry []
  /\ combineResults op_AND Example.lions Example.roses
     = Return (mkOutcome (strings [EmptyString]) [])
  /\ combineAND Example.lionsAndOaks Example.rosesAndOaks
     = Carry [Var.mk "$y" (strings ["oak"])]
  /\ combineResults op_AND Example.lionsAndOaks Example.rosesAndOaks
     = Return (mkOutcome (strings [EmptyString]) [Var.mk "$y" (strings ["oak"])])
  /\ (forall completion : CompletionOrder,
        GET Example.catalog Example.graph Example.RegExp_new Example.RegExp_test completion
          (Some "$x r_isa animal AND $x r_isa plant")
        = mkPayload None (Some "($x r_isa animal AND $x r_isa plant)") []
            (Rows (strings [EmptyString])) "$x r_isa animal AND $x r_isa plant")
  /\ combineAND Example.lions Example.lionsAndNoZebra = Returned (mkOutcome [] []).
Proof. repeat split; reflexivity. Qed.

End CombinatorFacts.

(** ** The lexer, token by token *)

Module TokenFacts.
Import Lexer.

Lemma append_assoc (a b c : string) : ((a ++ b) ++ c = a ++ (b ++ c))%string.
Proof. induction a as [|x a IH]; simpl; [reflexivity | now rewrite IH]. Qed.

Lemma append_empty (a : string) : (a ++ EmptyString)%string = a.
Proof. induction a as [|x a IH]; simpl; [reflexivity | now rewrite IH]. Qed.

Lemma append_length (a b : string) :
  String.length (a ++ b) = String.length a + String.length b.
Proof. induction a as [|x a IH]; simpl; [reflexivity | now rewrite IH]. Qed.

Lemma every_append (p : ascii -> bool) (a b : string) :
  every p (a ++ b) = every p a && every p b.
Proof.
  induction a as [|x a IH]; simpl; [reflexivity|].
  rewrite IH. now rewrite andb_assoc.
Qed.

(** [p] is a prefix of [s] exactly when [s] is [p] followed by what
    [drop] leaves. *)
Lemma prefix_drop (p s : string) :
  String.prefix p s = true -> s = (p ++ drop (String.length p) s)%string.
Proof.
  revert s. induction p as [|a p IH]; intros s H.
  - destruct s; reflexivity.
  - destruct s as [|b s]; simpl in H; [discriminate|].
    destruct (Ascii.ascii_dec a b) as [->|]; [|discriminate].
    simpl. f_equal. now apply IH.
Qed.

Lemma prefix_append (p w r : string) :
  String.prefix p w = true -> String.prefix p (w ++ r) = true.
Proof.
  revert w. induction p as [|a p IH]; intros w H.
  - destruct (w ++ r)%string; reflexivity.
  - destruct w as [|b w]; simpl in H; [discriminate|].
    simpl. destruct (Ascii.ascii_dec a b); [now apply IH | discriminate].
Qed.

Lemma prefix_other_head (a b : ascii) (p s : string) :
  Ascii.eqb b a = false -> String.prefix (String a p) (String b s) = false.
Proof.
  intros H. simpl. destruct (Ascii.ascii_dec a b) as [->|]; [|reflexivity].
  now rewrite Ascii.eqb_refl in H.
Qed.

(** A prefix made of characters of a class lies within the longest run
    of that class. *)
Lemma prefix_within_run (cls : ascii -> bool) (p w r : string) :
  every cls p = true ->
  startsIn cls r = false ->
  String.prefix p (w ++ r) = true ->
  String.prefix p w = true.
Proof.
  revert w. induction p as [|a p IH]; intros w Hp Hr H.
  - destruct w; reflexivity.
  - simpl in Hp. apply andb_prop in Hp as [Ha Hp].
    destruct w as [|b w].
    + simpl in H. destruct r as [|b r]; simpl in H; [discriminate|].
      destruct (Ascii.ascii_dec a b) as [->|]; [|discriminate].
      simpl in Hr. congruence.
    + simpl in H |- *. destruct (Ascii.ascii_dec a b); [|discriminate].
      now apply IH.
Qed.

(** [skipWhitespace] passes over the spaces in front and nothing else. *)
Lemma skipWhitespace_loop_spec (s : string) (p : nat) :
  exists ws,
    s = (ws ++ rest (skipWhitespace_loop s p))%string
    /\ every is_space ws = true
    /\ pos (skipWhitespace_loop s p) = p + String.length ws
    /\ startsIn is_space (rest (skipWhitespace_loop s p)) = false.
Proof.
  revert p. induction s as [|c s IH]; intros p.
  - exists EmptyString. simpl. repeat split. lia.
  - simpl. destruct (is_space c) eqn:E.
    + destruct (IH (S p)) as (ws & H1 & H2 & H3 & H4).
      exists (String c ws). simpl. rewrite E, H2, H3.
      repeat split; [now f_equal | lia | assumption].
    + exists EmptyString. simpl. repeat split; [lia | assumption].
Qed.

(** [readIdentifier] takes the longest run of identifier characters. *)
Lemma readIdentifier_loop_spec (s : string) (p : nat) (result : string) :
  exists w,
    fst (readIdentifier_loop s p result) = (result ++ w)%string
    /\ s = (w ++ rest (snd (readIdentifier_loop s p result)))%string
    /\ every is_identifier_char w = true
    /\ pos (snd (readIdentifier_loop s p result)) = p + String.length w
    /\ startsIn is_identifier_char (rest (snd (readIdentifier_loop s p result)))
       = false.
Proof.
  revert p result. induction s as [|c s IH]; intros p result.
  - exists EmptyString. simpl. rewrite append_empty. repeat split. lia.
  - simpl. destruct (is_identifier_char c) eqn:E.
    + destruct (IH (S p) (result ++ String c EmptyString)%string)
        as (w & H1 & H2 & H3 & H4 & H5).
      exists (String c w). simpl. rewrite E, H1, H3, H4, append_assoc.
      repeat split; [now f_equal | lia | assumption].
    + exists EmptyString. simpl. rewrite append_empty.
      repeat split; [lia | assumption].
Qed.

Lemma identifierToken_spec (t : TokenTypeValue) (l l' : state) (tok : Token) :
  identifierToken t l = Return (tok, l') ->
  type tok = t
  /\ position tok = pos l
  /\ rest l = (value tok ++ rest l')%string
  /\ every is_identifier_char (value tok) = true
  /\ pos l' = pos l + String.length (value tok)
  /\ startsIn is_identifier_char (rest l') = false.
Proof.
  unfold identifierToken, readIdentifier.
  destruct (readIdentifier_loop_spec (rest l) (pos l) EmptyString)
    as (w & H1 & H2 & H3 & H4 & H5).
  destruct (readIdentifier_loop (rest l) (pos l) EmptyString) as [identifier l1].
  cbn [fst snd] in *. intros H. injection H as <- <-. subst identifier.
  cbn [type position value]. simpl append. now repeat split.
Qed.

(** What [getNextToken] does, rule by rule, once the spaces are passed:
    the end of the input, one of the five rules that read an identifier,
    or one of the two words. *)
Lemma getNextToken_rule (l l' : state) (tok : Token) :
  getNextToken l = Return (tok, l') ->
  let l1 := skipWhitespace l in
  (rest l1 = EmptyString /\ tok = createToken EOF EmptyString (pos l1) /\ l' = l1)
  \/ (exists (c : ascii) (after : string) (t : TokenTypeValue),
        rest l1 = String c after
        /\ identifierToken t l1 = Return (tok, l')
        /\ ((t = VARIABLE /\ c = "$"%char)
            \/ (t = RELATION /\ String.prefix "r_" (rest l1) = true)
            \/ (t = RELATION /\ String.prefix "!r_" (rest l1) = true)
            \/ (t = WEIGHT_PARAM /\ is_comparison c = true)
            \/ (t = GREP /\ c = "/"%char)
            \/ (t = ENTITY /\ is_letter c = true
                /\ String.prefix "AND" (rest l1) = false
                /\ String.prefix "OR" (rest l1) = false)))
  \/ (String.prefix "AND" (rest l1) = true
      /\ tok = createToken AND "AND" (pos l1)
      /\ l' = mk (pos l1 + 3) (drop 3 (rest l1)))
  \/ (String.prefix "OR" (rest l1) = true
      /\ tok = createToken OR "OR" (pos l1)
      /\ l' = mk (pos l1 + 2) (drop 2 (rest l1))).
Proof.
  intros H l1. unfold getNextToken in H. cbv zeta in H.
  change (skipWhitespace l) with l1 in H.
  destruct (rest l1) as [|c after] eqn:Hrest.
  - left. injection H as <- <-. now repeat split.
  - assert (Hid : forall t,
              identifierToken t l1 = Return (tok, l') ->
              (t = VARIABLE /\ c = "$"%char)
              \/ (t = RELATION /\ String.prefix "r_" (String c after) = true)
              \/ (t = RELATION /\ String.prefix "!r_" (String c after) = true)
              \/ (t = WEIGHT_PARAM /\ is_comparison c = true)
              \/ (t = GREP /\ c = "/"%char)
              \/ (t = ENTITY /\ is_letter c = true
                  /\ String.prefix "AND" (String c after) = false
                  /\ String.prefix "OR" (String c after) = false) ->
              (String c after = EmptyString
               /\ tok = createToken EOF EmptyString (pos l1) /\ l' = l1)
              \/ (exists (c0 : ascii) (after0 : string) (t0 : TokenTypeValue),
                    String c after = String c0 after0
                    /\ identifierToken t0 l1 = Return (tok, l')
                    /\ ((t0 = VARIABLE /\ c0 = "$"%char)
                        \/ (t0 = RELATION /\ String.prefix "r_" (String c after) = true)
                        \/ (t0 = RELATION /\ String.prefix "!r_" (String c after) = true)
                        \/ (t0 = WEIGHT_PARAM /\ is_comparison c0 = true)
                        \/ (t0 = GREP /\ c0 = "/"%char)
                        \/ (t0 = ENTITY /\ is_letter c0 = true
                            /\ String.prefix "AND" (String c after) = false
                            /\ String.prefix "OR" (String c after) = false)))
              \/ (String.prefix "AND" (String c after) = true
                  /\ tok = createToken AND "AND" (pos l1)
                  /\ l' = mk (pos l1 + 3) (drop 3 (String c after)))
              \/ (String.prefix "OR" (String c after) = true
                  /\ tok = createToken OR "OR" (pos l1)
                  /\ l' = mk (pos l1 + 2) (drop 2 (String c after)))).
    { intros t Ht Hcase. right. left. exists c, after, t. now repeat split. }
    destruct (Ascii.eqb c "$") eqn:E1.
    { apply Ascii.eqb_eq in E1. apply (Hid _ H). now left. }
    destruct (Ascii.eqb c "r" && String.prefix "_" after) eqn:E2.
    { apply andb_prop in E2 as [E2 P]. apply Ascii.eqb_eq in E2. subst c.
      apply (Hid _ H). right. left. split; [reflexivity|]. exact P. }
    destruct (Ascii.eqb c "!" && String.prefix "r_" after) eqn:E3.
    { apply andb_prop in E3 as [E3 P]. apply Ascii.eqb_eq in E3. subst c.
      apply (Hid _ H). right. right. left. split; [reflexivity|]. exact P. }
    destruct (Ascii.eqb c "<" || Ascii.eqb c ">" || Ascii.eqb c "=") eqn:E4.
    { apply (Hid _ H). do 3 right. left. split; [reflexivity|]. exact E4. }
    destruct (Ascii.eqb c "/") eqn:E5.
    { apply Ascii.eqb_eq in E5. apply (Hid _ H). do 4 right. left. now split. }
    destruct (Ascii.eqb c "A" && String.prefix "AND" (String c after)) eqn:E6.
    { apply andb_prop in E6 as [_ P]. clear Hid. injection H as <- <-.
      right. right. left. now repeat split. }
    destruct (Ascii.eqb c "O" && String.prefix "OR" (String c after)) eqn:E7.
    { apply andb_prop in E7 as [_ P]. clear Hid. injection H as <- <-.
      do 3 right. now repeat split. }
    destruct (is_letter c) eqn:E8; [|discriminate].
    apply (Hid _ H). do 5 right. split; [reflexivity|]. split; [reflexivity|].
    split.
    + apply andb_false_iff in E6 as [E6|E6]; [|exact E6].
      now apply prefix_other_head.
    + apply andb_false_iff in E7 as [E7|E7]; [|exact E7].
      now apply prefix_other_head.
Qed.

Lemma comparison_is_identifier_char (c : ascii) :
  is_comparison c = true -> is_identifier_char c = true.
Proof.
  unfold is_comparison. intros H.
  repeat (apply orb_prop in H as [H|H]); apply Ascii.eqb_eq in H; subst c; reflexivity.
Qed.

(** The character a rule that reads an identifier starts from belongs to
    the identifier class. *)
Lemma rule_head_is_identifier_char (c : ascii) (after : string) (t : TokenTypeValue) :
  (t = VARIABLE /\ c = "$"%char)
  \/ (t = RELATION /\ String.prefix "r_" (String c after) = true)
  \/ (t = RELATION /\ String.prefix "!r_" (String c after) = true)
  \/ (t = WEIGHT_PARAM /\ is_comparison c = true)
  \/ (t = GREP /\ c = "/"%char)
  \/ (t = ENTITY /\ is_letter c = true
      /\ String.prefix "AND" (String c after) = false
      /\ String.prefix "OR" (String c after) = false) ->
  is_identifier_char c = true /\ t <> EOF /\ t <> AND /\ t <> OR.
Proof.
  assert (Hhead : forall a p, String.prefix (String a p) (String c after) = true -> c = a).
  { intros a p H. simpl in H. destruct (Ascii.ascii_dec a c); [congruence | discriminate]. }
  intros [[-> ->]|[[-> H]|[[-> H]|[[-> H]|[[-> ->]|[-> [H _]]]]]]];
    (split; [|repeat split; discriminate]).
  - reflexivity.
  - apply Hhead in H. now subst c.
  - apply Hhead in H. now subst c.
  - now apply comparison_is_identifier_char.
  - reflexivity.
  - now apply LexerFacts.letter_is_identifier_char.
Qed.

(** An identifier that starts with a character of the class has it as
    its first character. *)
Lemma run_head (w r : string) (c : ascii) (after : string) :
  (w ++ r)%string = String c after ->
  is_identifier_char c = true ->
  startsIn is_identifier_char r = false ->
  exists w', w = String c w'.
Proof.
  intros H Hc Hr. destruct w as [|a w].
  - simpl in H. subst r. simpl in Hr. congruence.
  - simpl in H. injection H as -> _. now exists w.
Qed.

Lemma skipWhitespace_loop_spaces (s : string) (p : nat) :
  every is_space s = true ->
  skipWhitespace_loop s p = mk (p + String.length s) EmptyString.
Proof.
  revert p. induction s as [|c s IH]; intros p H; simpl.
  - f_equal. lia.
  - simpl in H. apply andb_prop in H as [Hc H]. rewrite Hc, IH by assumption.
    f_equal. lia.
Qed.

(** A character that is no space and does not belong to the identifier
    class starts no token. *)
Lemma outside_classes_unexpected (c : ascii) (after : string) (p : nat) :
  is_space c = false -> is_identifier_char c = false ->
  getNextToken (mk p (String c after))
  = Throw ("Unexpected character: " ++ String c EmptyString).
Proof.
  destruct c as [[] [] [] [] [] [] [] []]; intros H1 H2;
    try discriminate H1; try discriminate H2; reflexivity.
Qed.

(** X1.  [getNextToken] loses nothing of the input: what a lexer has left
    is the spaces it passes over, then the text of the token it returns,
    then what it has left afterwards.  The token's [position] is the index
    of its first character, the lexer moves on by the length of its text,
    and its text is made of characters of the identifier class only. *)
Theorem getNextToken_splits_input (l l' : state) (tok : Token) :
  getNextToken l = Return (tok, l') ->
  exists ws,
    rest l = (ws ++ value tok ++ rest l')%string
    /\ every is_space ws = true
    /\ position tok = pos l + String.length ws
    /\ pos l' = position tok + String.length (value tok)
    /\ every is_identifier_char (value tok) = true.
Proof.
  intros H. apply getNextToken_rule in H. cbv zeta in H. unfold skipWhitespace in H.
  destruct (skipWhitespace_loop_spec (rest l) (pos l)) as (ws & Hws & Hsp & Hpos & _).
  exists ws. destruct (skipWhitespace_loop (rest l) (pos l)) as [p1 s1].
  cbn [rest pos] in *.
  destruct H as [(Hs & -> & ->)|[(c & after & t & Hs & Hid & _)|[(P & -> & ->)|(P & -> & ->)]]].
  - cbn [rest pos value position]. subst s1. now repeat split.
  - apply identifierToken_spec in Hid as (_ & Ht & Hsplit & Hev & Hp & _).
    cbn [rest pos] in *. rewrite Hws, Hsplit at 1. repeat split; try assumption; lia.
  - apply prefix_drop in P. cbn [rest pos value position String.length].
    rewrite Hws, P at 1. repeat split; try assumption; lia.
  - apply prefix_drop in P. cbn [rest pos value position String.length].
    rewrite Hws, P at 1. repeat split; try assumption; lia.
Qed.

(** The theorem at the entity of [  lion r_isa], read from position 0. *)
Lemma getNextToken_splits_input_witness :
  exists ws,
    rest (mk 0 "  lion r_isa")
    = (ws ++ value (createToken ENTITY "lion" 2) ++ rest (mk 6 " r_isa"))%string
    /\ every is_space ws = true
    /\ position (createToken ENTITY "lion" 2) = pos (mk 0 "  lion r_isa") + String.length ws
    /\ pos (mk 6 " r_isa")
       = position (createToken ENTITY "lion" 2)
         + String.length (value (createToken ENTITY "lion" 2))
    /\ every is_identifier_char (value (createToken ENTITY "lion" 2)) = true.
Proof.
  apply (getNextToken_splits_input (mk 0 "  lion r_isa") (mk 6 " r_isa")
           (createToken ENTITY "lion" 2)).
  reflexivity.
Defined.

(** X2.  A variable, a relation, a weight, a filter and an entity run to
    the end of the identifier class: after such a token the input is
    exhausted, or goes on with a space, or goes on with a character that
    makes the next call of [getNextToken] throw.  So two tokens are always
    kept apart by a space, unless the first is the word [AND] or [OR]. *)
Theorem identifier_ends_at_space (l l' : state) (tok : Token) :
  getNextToken l = Return (tok, l') ->
  type tok <> AND -> type tok <> OR ->
  startsIn is_identifier_char (rest l') = false
  /\ (rest l' = EmptyString
      \/ startsIn is_space (rest l') = true
      \/ exists c after,
           rest l' = String c after
           /\ getNextToken l'
              = Throw ("Unexpected character: " ++ String c EmptyString)).
Proof.
  intros H Hand Hor. apply getNextToken_rule in H. cbv zeta in H.
  assert (Hrun : startsIn is_identifier_char (rest l') = false).
  { destruct H as [(Hs & -> & ->)|[(c & after & t & Hs & Hid & _)|[(P & -> & ->)|(P & -> & ->)]]].
    - now rewrite Hs.
    - now apply identifierToken_spec in Hid.
    - now contradiction Hand.
    - now contradiction Hor. }
  split; [exact Hrun|].
  destruct l' as [p' s']. cbn [rest] in *. destruct s' as [|c after]; [now left|].
  right. simpl in Hrun |- *. destruct (is_space c) eqn:Hc; [now left|].
  right. exists c, after. split; [reflexivity|].
  now apply outside_classes_unexpected.
Qed.

(** The theorem at the weight of [<=50)], which runs up to the end of the
    input. *)
Lemma identifier_ends_at_space_witness :
  startsIn is_identifier_char (rest (mk 5 EmptyString)) = false
  /\ (rest (mk 5 EmptyString) = EmptyString
      \/ startsIn is_space (rest (mk 5 EmptyString)) = true
      \/ exists c after,
           rest (mk 5 EmptyString) = String c after
           /\ getNextToken (mk 5 EmptyString)
              = Throw ("Unexpected character: " ++ String c EmptyString)).
Proof.
  apply (identifier_ends_at_space (mk 0 "<=50)") (mk 5 EmptyString)
           (createToken WEIGHT_PARAM "<=50)" 0));
    [reflexivity | discriminate | discriminate].
Defined.

(** X3.  The end of the input.  A lexer that has only spaces left returns
    the [EOF] token, with the empty text and the length of the input as
    its position; a lexer returns [EOF] in no other case, and once it has,
    every further call returns the same token again. *)
Theorem end_of_input_repeats :
  (forall (l : state),
      every is_space (rest l) = true ->
      getNextToken l
      = Return (createToken EOF EmptyString (pos l + String.length (rest l)),
                mk (pos l + String.length (rest l)) EmptyString))
  /\ (forall (l l' : state) (tok : Token),
        getNextToken l = Return (tok, l') -> type tok = EOF ->
        every is_space (rest l) = true
        /\ getNextToken l' = Return (tok, l')).
Proof.
  split.
  - intros l H. unfold getNextToken, skipWhitespace.
    now rewrite skipWhitespace_loop_spaces.
  - intros l l' tok H Heof. apply getNextToken_rule in H. cbv zeta in H.
    unfold skipWhitespace in H.
    destruct (skipWhitespace_loop_spec (rest l) (pos l)) as (ws & Hws & Hsp & _).
    destruct (skipWhitespace_loop (rest l) (pos l)) as [p1 s1]. cbn [rest pos] in *.
    destruct H as [(Hs & -> & ->)|[(c & after & t & Hs & Hid & Hcase)|[(P & -> & ->)|(P & -> & ->)]]];
      try discriminate Heof.
    + subst s1. split; [|reflexivity].
      rewrite Hws, every_append, Hsp. reflexivity.
    + rewrite Hs in Hcase.
      apply rule_head_is_identifier_char in Hcase as (_ & Ht & _).
      apply identifierToken_spec in Hid as (Htype & _). congruence.
Qed.

(** The theorem at the input of three spaces: both calls return the end
    of the input at position 3. *)
Lemma end_of_input_repeats_witness :
  getNextToken (mk 0 "   ")
  = Return (createToken EOF EmptyString 3, mk 3 EmptyString)
  /\ getNextToken (mk 3 EmptyString)
     = Return (createToken EOF EmptyString 3, mk 3 EmptyString).
Proof.
  split.
  - apply (proj1 end_of_input_repeats (mk 0 "   ")). reflexivity.
  - apply (proj2 end_of_input_repeats (mk 0 "   ") (mk 3 EmptyString)
             (createToken EOF EmptyString 3)); reflexivity.
Defined.

(** X4.  The type of a token can be read off its text: a variable starts
    with the dollar sign, a relation with [r_] or [!r_], a weight with a
    comparison character, a filter with a slash and an entity with a
    letter, without starting with the word [AND] or [OR]; the two words
    are their own text and the end of the input has none. *)
Theorem token_type_from_text (l l' : state) (tok : Token) :
  getNextToken l = Return (tok, l') ->
  match type tok with
  | VARIABLE => JS.startsWith (value tok) "$" = true
  | RELATION =>
      JS.startsWith (value tok) "r_" = true \/ JS.startsWith (value tok) "!r_" = true
  | WEIGHT_PARAM => startsIn is_comparison (value tok) = true
  | GREP => JS.startsWith (value tok) "/" = true
  | ENTITY =>
      startsIn is_letter (value tok) = true
      /\ JS.startsWith (value tok) "AND" = false
      /\ JS.startsWith (value tok) "OR" = false
  | AND => value tok = "AND"
  | OR => value tok = "OR"
  | EOF => value tok = EmptyString
  end.
Proof.
  intros H. apply getNextToken_rule in H. cbv zeta in H.
  destruct H as [(Hs & -> & ->)|[(c & after & t & Hs & Hid & Hcase)|[(P & -> & ->)|(P & -> & ->)]]];
    try reflexivity.
  rewrite Hs in Hcase.
  destruct (rule_head_is_identifier_char _ _ _ Hcase) as (Hc & _).
  apply identifierToken_spec in Hid as (Htype & _ & Hsplit & _ & _ & Hrun).
  rewrite Hs in Hsplit. symmetry in Hsplit.
  destruct (run_head _ _ _ _ Hsplit Hc Hrun) as (w' & Hw).
  assert (Hin : forall p, every is_identifier_char p = true ->
            String.prefix p (String c after) = true ->
            String.prefix p (value tok) = true).
  { intros p Hp Hpre. rewrite <- Hsplit in Hpre.
    now apply (prefix_within_run is_identifier_char p (value tok) (rest l')). }
  assert (Hout : forall p, String.prefix p (String c after) = false ->
            String.prefix p (value tok) = false).
  { intros p Hpre. destruct (String.prefix p (value tok)) eqn:E; [|reflexivity].
    apply (prefix_append p (value tok) (rest l')) in E. congruence. }
  rewrite Htype. unfold JS.startsWith.
  destruct Hcase as [[-> ->]|[[-> P]|[[-> P]|[[-> P]|[[-> ->]|(-> & P & Pand & Por)]]]]].
  - rewrite Hw. simpl. now destruct w'.
  - left. now apply Hin.
  - right. now apply Hin.
  - now rewrite Hw.
  - rewrite Hw. simpl. now destruct w'.
  - rewrite Hw at 1. repeat split; [exact P | now apply Hout | now apply Hout].
Qed.

(** The theorem at the relation of [!r_isa mammal]. *)
Lemma token_type_from_text_witness :
  JS.startsWith (value (createToken RELATION "!r_isa" 0)) "r_" = true
  \/ JS.startsWith (value (createToken RELATION "!r_isa" 0)) "!r_" = true.
Proof.
  apply (token_type_from_text (mk 0 "!r_isa mammal") (mk 6 " mammal")
           (createToken RELATION "!r_isa" 0)).
  reflexivity.
Defined.

(** X5.  The words [AND] and [OR] are recognised wherever a token may
    start, whatever follows them: a name that begins with one of them is
    split after it, and a query that begins with such a name is turned
    down for want of a subject. *)
Theorem operator_words_split_names (p : nat) (after : string) :
  getNextToken (mk p ("AND" ++ after))
  = Return (createToken AND "AND" p, mk (p + 3) after)
  /\ getNextToken (mk p ("OR" ++ after))
     = Return (createToken OR "OR" p, mk (p + 2) after)
  /\ parseQuery ("AND" ++ after) = Throw "Expected variable or entity as subject"
  /\ parseQuery ("OR" ++ after) = Throw "Expected variable or entity as subject".
Proof.
  repeat split; destruct after; reflexivity.
Qed.

End TokenFacts.

(** ** The parser, error by error *)

Module SyntaxFacts.
Import Parser.

Section WithLexer.

Variable L : Type.
Variable getNextToken : L -> Except (Token * L).

(** What the messages of the lexer have in common. *)
Variable lexical : string -> Prop.
Hypothesis getNextToken_throws :
  forall (l : L) (msg : string), getNextToken l = Throw msg -> lexical msg.

Local Abbreviation state := (Parser.state L).
Local Abbreviation eat := (Parser.eat getNextToken).
Local Abbreviation operand := (Parser.operand getNextToken).
Local Abbreviation optional := (Parser.optional getNextToken).
Local Abbreviation simpleQuery := (Parser.simpleQuery getNextToken).
Local Abbreviation expression_step := (Parser.expression_step getNextToken).
Local Abbreviation expression_loop := (Parser.expression_loop getNextToken).
Local Abbreviation parse := (Parser.parse getNextToken).

(** [eat] is only ever called on a token of the type it expects, where
    the one way it can fail is the lexer. *)
Lemma eat_throws (tokenType : TokenTypeValue) (p : state) (msg : string) :
  type (currentToken p) = tokenType ->
  eat tokenType p = Throw msg -> lexical msg.
Proof.
  intros Ht. unfold Parser.eat. rewrite Ht, ParserFacts.TokenType_eqb_refl.
  destruct (getNextToken (lexer p)) as [[t l]|m] eqn:E; cbn [bindE]; [discriminate|].
  intros H. injection H as <-. now apply getNextToken_throws in E.
Qed.

Lemma operand_throws (what : string) (p : state) (msg : string) :
  operand what p = Throw msg ->
  lexical msg \/ msg = ("Expected variable or entity as " ++ what)%string.
Proof.
  unfold Parser.operand.
  destruct (type (currentToken p)) eqn:Ht;
    try (intros H; injection H as <-; now right).
  - destruct (eat VARIABLE p) eqn:E; cbn [bindE]; [discriminate|].
    intros H. injection H as <-. left. now apply (eat_throws VARIABLE p).
  - destruct (eat ENTITY p) eqn:E; cbn [bindE]; [discriminate|].
    intros H. injection H as <-. left. now apply (eat_throws ENTITY p).
Qed.

Lemma operand_returns (what : string) (p p' : state) (t : Token) :
  operand what p = Return (t, p') -> t = currentToken p /\ isOperand t.
Proof.
  unfold Parser.operand, isOperand.
  destruct (type (currentToken p)) eqn:Ht; try discriminate.
  - destruct (eat VARIABLE p); cbn [bindE]; [|discriminate].
    intros H. injection H as <- _. auto.
  - destruct (eat ENTITY p); cbn [bindE]; [|discriminate].
    intros H. injection H as <- _. auto.
Qed.

Lemma optional_throws (tokenType : TokenTypeValue) (p : state) (msg : string) :
  optional tokenType p = Throw msg -> lexical msg.
Proof.
  unfold Parser.optional.
  destruct (TokenType_eqb (type (currentToken p)) tokenType) eqn:Ht; [|discriminate].
  assert (type (currentToken p) = tokenType)
    by (destruct (type (currentToken p)), tokenType; (reflexivity || discriminate)).
  destruct (eat tokenType p) eqn:E; cbn [bindE]; [discriminate|].
  intros H'. injection H' as <-. now apply (eat_throws tokenType p).
Qed.

Lemma optional_returns (tokenType : TokenTypeValue) (p p' : state)
    (t : option Token) :
  optional tokenType p = Return (t, p') -> hasType tokenType t.
Proof.
  unfold Parser.optional.
  destruct (TokenType_eqb (type (currentToken p)) tokenType) eqn:Ht.
  - assert (type (currentToken p) = tokenType)
      by (destruct (type (currentToken p)), tokenType; (reflexivity || discriminate)).
    destruct (eat tokenType p); cbn [bindE]; [|discriminate].
    intros H'. injection H' as <- _. assumption.
  - intros H. injection H as <- _. exact I.
Qed.

(** A clause that is not parsed failed in the lexer or for one of the
    three reasons of [simpleQuery]. *)
Lemma simpleQuery_throws (p : state) (msg : string) :
  simpleQuery p = Throw msg -> lexical msg \/ In msg syntaxErrors.
Proof.
  unfold Parser.simpleQuery, syntaxErrors.
  destruct (operand "subject" p) as [[s p1]|m] eqn:E1; cbn [bindE].
  2:{ intros H. injection H as <-.
      apply operand_throws in E1 as [E1| ->]; [now left | right; cbn; auto]. }
  destruct (type (currentToken p1)) eqn:Hr; cbn [bindE];
    try (intros H; injection H as <-; right; cbn; now auto).
  destruct (eat RELATION p1) as [p2|m] eqn:E2; cbn [bindE].
  2:{ intros H. injection H as <-. left. now apply (eat_throws RELATION p1). }
  destruct (operand "object" p2) as [[o p3]|m] eqn:E3; cbn [bindE].
  2:{ intros H. injection H as <-.
      apply operand_throws in E3 as [E3| ->]; [now left | right; cbn; auto]. }
  destruct (optional WEIGHT_PARAM p3) as [[w p4]|m] eqn:E4; cbn [bindE].
  2:{ intros H. injection H as <-. left. now apply optional_throws in E4. }
  destruct (optional GREP p4) as [[g p5]|m] eqn:E5; cbn [bindE]; [discriminate|].
  intros H. injection H as <-. left. now apply optional_throws in E5.
Qed.

(** A clause that is parsed is one of the grammar. *)
Lemma simpleQuery_returns (p p' : state) (q : SimpleQuery) :
  simpleQuery p = Return (q, p') -> isClause q.
Proof.
  unfold Parser.simpleQuery.
  destruct (operand "subject" p) as [[s p1]|m] eqn:E1; cbn [bindE]; [|discriminate].
  destruct (type (currentToken p1)) eqn:Hr; cbn [bindE]; try discriminate.
  destruct (eat RELATION p1) as [p2|m] eqn:E2; cbn [bindE]; [|discriminate].
  destruct (operand "object" p2) as [[o p3]|m] eqn:E3; cbn [bindE]; [|discriminate].
  destruct (optional WEIGHT_PARAM p3) as [[w p4]|m] eqn:E4; cbn [bindE]; [|discriminate].
  destruct (optional GREP p4) as [[g p5]|m] eqn:E5; cbn [bindE]; [|discriminate].
  intros H. injection H as <- _.
  apply operand_returns in E1 as [_ E1]. apply operand_returns in E3 as [_ E3].
  apply optional_returns in E4. apply optional_returns in E5.
  now constructor.
Qed.

Lemma expression_step_throws (tokenType : TokenTypeValue) (operator : Operator)
    (node : ASTNode) (p : state) (msg : string) :
  type (currentToken p) = tokenType ->
  expression_step tokenType operator node p = Throw msg ->
  lexical msg \/ In msg syntaxErrors.
Proof.
  intros Ht. unfold Parser.expression_step.
  destruct (eat tokenType p) as [p1|m] eqn:E1; cbn [bindE].
  2:{ intros H. injection H as <-. left. now apply (eat_throws tokenType p). }
  destruct (simpleQuery p1) as [[q p2]|m] eqn:E2; cbn [bindE]; [discriminate|].
  intros H. injection H as <-. now apply simpleQuery_throws in E2.
Qed.

Lemma expression_step_returns (tokenType : TokenTypeValue) (operator : Operator)
    (node node' : ASTNode) (p p' : state) :
  leftChain node ->
  expression_step tokenType operator node p = Return (node', p') ->
  leftChain node'.
Proof.
  intros Hnode. unfold Parser.expression_step.
  destruct (eat tokenType p) as [p1|m]; cbn [bindE]; [|discriminate].
  destruct (simpleQuery p1) as [[q p2]|m] eqn:E2; cbn [bindE]; [|discriminate].
  intros H. injection H as <- _. apply simpleQuery_returns in E2.
  cbn. now split.
Qed.

Lemma expression_loop_throws (fuel : nat) :
  forall (node : ASTNode) (p : state) (msg : string),
    expression_loop fuel node p = Some (Throw msg) ->
    lexical msg \/ In msg syntaxErrors.
Proof.
  induction fuel as [|fuel IH]; intros node p msg;
    cbn [Parser.expression_loop]; destruct (type (currentToken p)) eqn:Ht;
    try discriminate.
  - destruct (expression_step AND op_AND node p) as [[node' p']|m] eqn:E.
    + apply IH.
    + intros H. injection H as <-. now apply (expression_step_throws AND) in E.
  - destruct (expression_step OR op_OR node p) as [[node' p']|m] eqn:E.
    + apply IH.
    + intros H. injection H as <-. now apply (expression_step_throws OR) in E.
Qed.

Lemma expression_loop_returns (fuel : nat) :
  forall (node node' : ASTNode) (p p' : state),
    leftChain node ->
    expression_loop fuel node p = Some (Return (node', p')) ->
    leftChain node'.
Proof.
  induction fuel as [|fuel IH]; intros node node' p p' Hnode;
    cbn [Parser.expression_loop]; destruct (type (currentToken p)) eqn:Ht;
    try discriminate; try (intros H; injection H as <- _; exact Hnode).
  - destruct (expression_step AND op_AND node p) as [[node1 p1]|m] eqn:E;
      [|discriminate].
    apply IH. now apply expression_step_returns in E.
  - destruct (expression_step OR op_OR node p) as [[node1 p1]|m] eqn:E;
      [|discriminate].
    apply IH. now apply expression_step_returns in E.
Qed.

(** More turns than the loop needs change nothing. *)
Lemma expression_loop_more_fuel (fuel : nat) :
  forall (fuel' : nat) (node : ASTNode) (p : state) (r : Except (ASTNode * state)),
    fuel <= fuel' ->
    expression_loop fuel node p = Some r ->
    expression_loop fuel' node p = Some r.
Proof.
  induction fuel as [|fuel IH]; intros fuel' node p r Hle;
    destruct fuel' as [|fuel']; try lia;
    cbn [Parser.expression_loop]; destruct (type (currentToken p));
    try discriminate; try (intros H; exact H).
  - destruct (expression_step AND op_AND node p) as [[node1 p1]|m];
      [|intros H; exact H].
    apply IH. lia.
  - destruct (expression_step OR op_OR node p) as [[node1 p1]|m];
      [|intros H; exact H].
    apply IH. lia.
Qed.

Lemma parse_more_fuel (fuel fuel' : nat) (lexer0 : L) (r : Except ASTNode) :
  fuel <= fuel' ->
  match Parser.createParser getNextToken lexer0 with
  | Return parser => parse fuel parser
  | Throw msg => Some (Throw msg)
  end = Some r ->
  match Parser.createParser getNextToken lexer0 with
  | Return parser => parse fuel' parser
  | Throw msg => Some (Throw msg)
  end = Some r.
Proof.
  intros Hle. destruct (Parser.createParser getNextToken lexer0) as [parser|m];
    [|intros H; exact H].
  unfold Parser.parse, Parser.expression.
  destruct (simpleQuery parser) as [[q p1]|m]; [|intros H; exact H].
  destruct (expression_loop fuel (Simple q) p1) as [r1|] eqn:E; [|discriminate].
  now rewrite (expression_loop_more_fuel fuel fuel' _ _ _ Hle E).
Qed.

Lemma parse_throws (fuel : nat) (lexer0 : L) (msg : string) :
  match Parser.createParser getNextToken lexer0 with
  | Return parser => parse fuel parser
  | Throw msg => Some (Throw msg)
  end = Some (Throw msg) ->
  lexical msg \/ In msg syntaxErrors.
Proof.
  unfold Parser.createParser.
  destruct (getNextToken lexer0) as [[t l]|m] eqn:E0; cbn [bindE].
  2:{ intros H. injection H as <-. left. now apply getNextToken_throws in E0. }
  unfold Parser.parse, Parser.expression.
  destruct (simpleQuery (Parser.mk t l)) as [[q p1]|m] eqn:E1.
  2:{ intros H. injection H as <-. now apply simpleQuery_throws in E1. }
  destruct (expression_loop fuel (Simple q) p1) as [[[node p2]|m]|] eqn:E2;
    [| |discriminate].
  - destruct (type (currentToken p2)); try discriminate;
      intros H; injection H as <-; right; cbn; auto.
  - intros H. injection H as <-. now apply expression_loop_throws in E2.
Qed.

Lemma parse_returns (fuel : nat) (lexer0 : L) (node : ASTNode) :
  match Parser.createParser getNextToken lexer0 with
  | Return parser => parse fuel parser
  | Throw msg => Some (Throw msg)
  end = Some (Return node) ->
  leftChain node.
Proof.
  destruct (Parser.createParser getNextToken lexer0) as [parser|m]; [|discriminate].
  unfold Parser.parse, Parser.expression.
  destruct (simpleQuery parser) as [[q p1]|m] eqn:E1; [|discriminate].
  destruct (expression_loop fuel (Simple q) p1) as [[[node' p2]|m]|] eqn:E2;
    [| discriminate | discriminate].
  destruct (type (currentToken p2)); try discriminate.
  intros H. injection H as <-.
  apply expression_loop_returns in E2; [exact E2|].
  cbn. now apply simpleQuery_returns in E1.
Qed.

End WithLexer.

(** *** A chain of clauses followed by a token that ends the loop *)

Section Chains.

Variable L : Type.
Variable getNextToken : L -> Except (Token * L).

Lemma chain_head_stop (links : list link) (stop : Token) :
  Forall isLink links -> stops stop ->
  exists next after,
    chainTokens links ++ [stop] = next :: after
    /\ type next <> WEIGHT_PARAM /\ type next <> GREP.
Proof.
  intros Hlinks (Hw & Hg & _). destruct links as [|[[t operator] q] links].
  - exists stop, []. cbn. auto.
  - inversion Hlinks as [|? ? Hlink Hlinks']. subst. destruct Hlink as [Hop _].
    exists t, (clauseTokens q ++ (chainTokens links ++ [stop])).
    rewrite ParserFacts.chainTokens_cons.
    apply ParserFacts.operator_token_type in Hop as [[Ht _]|[Ht _]];
      rewrite Ht; repeat split; discriminate.
Qed.

Lemma expression_loop_chain_stop (links : list link) :
  forall (fuel : nat) (node : ASTNode) (current stop : Token) (after : list Token)
         (l l' : L),
    Forall isLink links -> stops stop ->
    chainTokens links ++ [stop] = current :: after ->
    Parser.emits getNextToken l after l' ->
    List.length links <= fuel ->
    Parser.expression_loop getNextToken fuel node (Parser.mk current l)
    = Some (Return (foldLeft node links, Parser.mk stop l')).
Proof.
  induction links as [|[[t operator] q] links IH];
    intros fuel node current stop after l l' Hlinks Hstop Htokens Hemits Hfuel.
  - cbn in Htokens. injection Htokens as <- <-. cbn in Hemits. subst l'.
    destruct Hstop as (_ & _ & Hand & Hor).
    destruct fuel; cbn [Parser.expression_loop currentToken];
      destruct (type stop); try reflexivity; congruence.
  - inversion Hlinks as [|? ? Hlink Hlinks']. subst. destruct Hlink as [Hop Hq].
    destruct (chain_head_stop links stop Hlinks' Hstop)
      as [next [after' [Hnext [Hnw Hng]]]].
    rewrite ParserFacts.chainTokens_cons, Hnext in Htokens.
    injection Htokens as Hcurrent Hafter. subst current after.
    destruct fuel as [|fuel]; [cbn in Hfuel; lia|].
    apply ParserFacts.emits_clause in Hemits as [l1 [m [Hget [Hclause Hafter]]]].
    assert (Hstep : forall tokenType, type t = tokenType ->
              Parser.expression_step getNextToken tokenType operator node (Parser.mk t l)
              = Return (createCompoundQuery node operator (Simple q), Parser.mk next m)).
    { intros tokenType Htype. unfold Parser.expression_step.
      rewrite (ParserFacts.eat_next _ _ _ t (subject q) l l1 Htype Hget). cbn [bindE].
      rewrite (ParserFacts.simpleQuery_clause _ _ q next l1 m Hq Hnw Hng Hclause).
      reflexivity. }
    cbn [Parser.expression_loop currentToken].
    apply ParserFacts.operator_token_type in Hop as [[Htype ->]|[Htype ->]];
      rewrite Htype; rewrite (Hstep _ Htype);
      apply (IH fuel _ next stop after' m l' Hlinks' Hstop Hnext Hafter);
      cbn in Hfuel; lia.
Qed.

(** The clauses of a chain are all parsed before the token after them is
    looked at. *)
Lemma parse_chain_stop (q : SimpleQuery) (links : list link) (stop : Token)
    (lexer0 l' : L) (fuel : nat) :
  isClause q -> Forall isLink links -> stops stop ->
  Parser.emits getNextToken lexer0 (clauseTokens q ++ chainTokens links ++ [stop]) l' ->
  List.length links <= fuel ->
  match Parser.createParser getNextToken lexer0 with
  | Return parser => Parser.parse getNextToken fuel parser
  | Throw msg => Some (Throw msg)
  end
  = match type stop with
    | EOF => Some (Return (foldLeft (Simple q) links))
    | _ => Some (Throw "Unexpected token after parsing expression")
    end.
Proof.
  intros Hq Hlinks Hstop Hemits Hfuel.
  destruct (chain_head_stop links stop Hlinks Hstop) as [next [after [Hnext [Hnw Hng]]]].
  rewrite Hnext in Hemits.
  apply ParserFacts.emits_clause in Hemits as [l1 [m [Hget [Hclause Hafter]]]].
  unfold Parser.createParser. rewrite Hget. cbn [bindE].
  unfold Parser.parse, Parser.expression.
  rewrite (ParserFacts.simpleQuery_clause _ _ q next l1 m Hq Hnw Hng Hclause).
  rewrite (expression_loop_chain_stop links fuel (Simple q) next stop after m l'
             Hlinks Hstop Hnext Hafter Hfuel).
  cbn [currentToken]. now destruct (type stop).
Qed.

End Chains.

(** *** The parser on the lexer of [createLexer] *)

Lemma identifierToken_returns (t : TokenTypeValue) (l : Lexer.state) :
  exists tok l', Lexer.identifierToken t l = Return (tok, l').
Proof.
  unfold Lexer.identifierToken. destruct (Lexer.readIdentifier l) as [identifier l'].
  eauto.
Qed.

(** The lexer has one error. *)
Lemma getNextToken_throws (l : Lexer.state) (msg : string) :
  Lexer.getNextToken l = Throw msg ->
  exists c, msg = ("Unexpected character: " ++ String c EmptyString)%string.
Proof.
  unfold Lexer.getNextToken.
  destruct (Lexer.rest (Lexer.skipWhitespace l)) as [|c after]; [discriminate|].
  assert (Hid : forall t, Lexer.identifierToken t (Lexer.skipWhitespace l) <> Throw msg).
  { intros t. destruct (identifierToken_returns t (Lexer.skipWhitespace l))
      as (tok & l' & ->). discriminate. }
  repeat match goal with
         | |- (if ?b then _ else _) = _ -> _ =>
             destruct b; [first [discriminate | intros H; now apply Hid in H]|]
         end.
  intros H. injection H as <-. now exists c.
Qed.

(** The parser with any number of turns allowed above the length of the
    query. *)
Lemma parseQuery_any_fuel (queryString : string) (fuel : nat) :
  String.length queryString < fuel ->
  match Parser.createParser Lexer.getNextToken (Lexer.createLexer queryString) with
  | Return parser => Parser.parse Lexer.getNextToken fuel parser
  | Throw msg => Some (Throw msg)
  end = Some (parseQuery queryString).
Proof.
  intros Hlt.
  apply (parse_more_fuel _ _ (S (String.length queryString)) fuel); [lia|].
  exact (ParserFacts.parseQuery_fuel_enough queryString).
Qed.

(** X6.  The loop of [expression] ends on every query: a bound on its
    turns never changes what [parseQuery] answers, and a bound above the
    number of characters of the query is never reached. *)
Theorem parser_terminates (queryString : string) :
  (forall (fuel : nat) (r : Except ASTNode),
      match Parser.createParser Lexer.getNextToken (Lexer.createLexer queryString) with
      | Return parser => Parser.parse Lexer.getNextToken fuel parser
      | Throw msg => Some (Throw msg)
      end = Some r ->
      r = parseQuery queryString)
  /\ (forall (fuel : nat),
        String.length queryString < fuel ->
        match Parser.createParser Lexer.getNextToken (Lexer.createLexer queryString) with
        | Return parser => Parser.parse Lexer.getNextToken fuel parser
        | Throw msg => Some (Throw msg)
        end = Some (parseQuery queryString)).
Proof.
  split.
  - intros fuel r H.
    apply (parse_more_fuel _ _ fuel (fuel + S (String.length queryString))) in H; [|lia].
    rewrite parseQuery_any_fuel in H by lia. now injection H.
  - intros fuel. apply parseQuery_any_fuel.
Qed.

(** The theorem at [$x r_isa animal AND $x r_isa plant], with one turn
    and with a hundred. *)
Lemma parser_terminates_witness :
  Return (CompoundQuery
    (Simple (Example.clause VARIABLE "$x" 0 "r_isa" 3 ENTITY "animal" 9)) op_AND
    (Simple (Example.clause VARIABLE "$x" 20 "r_isa" 23 ENTITY "plant" 29)))
  = parseQuery "$x r_isa animal AND $x r_isa plant"
  /\ match Parser.createParser Lexer.getNextToken
             (Lexer.createLexer "$x r_isa animal AND $x r_isa plant") with
     | Return parser => Parser.parse Lexer.getNextToken 100 parser
     | Throw msg => Some (Throw msg)
     end = Some (parseQuery "$x r_isa animal AND $x r_isa plant").
Proof.
  split.
  - apply (proj1 (parser_terminates "$x r_isa animal AND $x r_isa plant") 1).
    reflexivity.
  - apply (proj2 (parser_terminates "$x r_isa animal AND $x r_isa plant") 100).
    cbn. lia.
Defined.

(** X7.  A query of any number of clauses groups to the left.  When the
    tokens of the query are those of a clause followed by any number of
    operators, each with its clause, [parseQuery] returns the tree that
    combines the first clause with the others one after the other, each
    new node taking the tree built so far as its left operand. *)
Theorem chain_folds_left (input : string) (q : SimpleQuery) (links : list link)
    (eof : Token) (l' : Lexer.state) :
  isClause q -> Forall isLink links -> type eof = EOF ->
  Parser.emits Lexer.getNextToken (Lexer.createLexer input)
    (clauseTokens q ++ chainTokens links ++ [eof]) l' ->
  parseQuery input = Return (foldLeft (Simple q) links).
Proof.
  intros Hq Hlinks Heof Hemits.
  pose proof (ParserFacts.parse_chain _ _ q links eof _ l'
                (String.length input + S (List.length links))
                Hq Hlinks Heof Hemits) as H.
  rewrite parseQuery_any_fuel in H by lia.
  specialize (H ltac:(lia)). now injection H.
Qed.

(** The theorem at a query of four clauses. *)
Lemma chain_folds_left_witness :
  parseQuery "a r_x $y AND b r_z $w OR c r_q $v AND d r_s $u"
  = Return
      (CompoundQuery
         (CompoundQuery
            (CompoundQuery (Simple Example.clause_a) op_AND (Simple Example.clause_b))
            op_OR (Simple Example.clause_c))
         op_AND (Simple (Example.clause ENTITY "d" 38 "r_s" 40 VARIABLE "$u" 44))).
Proof.
  apply (chain_folds_left "a r_x $y AND b r_z $w OR c r_q $v AND d r_s $u"
           Example.clause_a
           [(createToken AND "AND" 9, op_AND, Example.clause_b);
            (createToken OR "OR" 22, op_OR, Example.clause_c);
            (createToken AND "AND" 34, op_AND,
             Example.clause ENTITY "d" 38 "r_s" 40 VARIABLE "$u" 44)]
           (createToken EOF EmptyString 46) (Lexer.mk 46 EmptyString)).
  - constructor; unfold isOperand; cbn; auto.
  - repeat (apply Forall_cons; [split; [reflexivity | constructor; unfold isOperand; cbn; auto]|]).
    apply Forall_nil.
  - reflexivity.
  - cbn. repeat (eexists; split; [reflexivity|]). reflexivity.
Defined.

(** X8.  Every tree [parseQuery] returns is a clause of the grammar, or
    such a tree combined with one clause on its right: no right operand
    is ever a compound node, every subject and object is a variable or an
    entity, every relation a relation token, and a clause is marked as
    negated exactly when the text of its relation starts with [!]. *)
Theorem parseQuery_builds_left_chain (queryString : string) (node : ASTNode) :
  parseQuery queryString = Return node -> leftChain node.
Proof.
  intros H. pose proof (ParserFacts.parseQuery_fuel_enough queryString) as Hfuel.
  rewrite H in Hfuel. unfold parseQuery_fuel in Hfuel.
  now apply parse_returns in Hfuel.
Qed.

Lemma parseQuery_builds_left_chain_witness :
  leftChain
    (CompoundQuery (CompoundQuery (Simple Example.clause_a) op_AND (Simple Example.clause_b))
       op_OR (Simple Example.clause_c)).
Proof.
  apply (parseQuery_builds_left_chain "a r_x $y AND b r_z $w OR c r_q $v").
  reflexivity.
Defined.

(** X9.  A clause that is cut short.  A query whose first token is no
    variable and no entity (the empty query among them) is turned down
    with ["Expected variable or entity as subject"]; one whose second
    token is no relation with ["Expected relation"]; one whose third
    token is no variable and no entity with ["Expected variable or entity
    as object"].  Nothing beyond the offending token is read. *)
Theorem clause_cut_short (input : string) :
  (forall (t : Token) (l' : Lexer.state),
      Parser.emits Lexer.getNextToken (Lexer.createLexer input) [t] l' ->
      ~ isOperand t ->
      parseQuery input = Throw "Expected variable or entity as subject")
  /\ (forall (s t : Token) (l' : Lexer.state),
        Parser.emits Lexer.getNextToken (Lexer.createLexer input) [s; t] l' ->
        isOperand s -> type t <> RELATION ->
        parseQuery input = Throw "Expected relation")
  /\ (forall (s r t : Token) (l' : Lexer.state),
        Parser.emits Lexer.getNextToken (Lexer.createLexer input) [s; r; t] l' ->
        isOperand s -> type r = RELATION -> ~ isOperand t ->
        parseQuery input = Throw "Expected variable or entity as object").
Proof.
  assert (Hparse : forall r,
            parseQuery_fuel input = Some r -> parseQuery input = r).
  { intros r H. rewrite ParserFacts.parseQuery_fuel_enough in H. now injection H. }
  assert (Hoperand : forall what (t : Token) (l : Lexer.state),
            ~ isOperand t ->
            Parser.operand Lexer.getNextToken what (Parser.mk t l)
            = Throw ("Expected variable or entity as " ++ what)).
  { intros what t l Ht. unfold Parser.operand, isOperand in *. cbn [currentToken].
    destruct (type t); try reflexivity; exfalso; auto. }
  repeat split.
  - intros t l' (l1 & Hget & _) Ht. apply Hparse.
    unfold parseQuery_fuel, Parser.createParser. rewrite Hget. cbn [bindE].
    unfold Parser.parse, Parser.expression, Parser.simpleQuery.
    now rewrite Hoperand.
  - intros s t l' (l1 & Hget1 & l2 & Hget2 & _) Hs Ht. apply Hparse.
    unfold parseQuery_fuel, Parser.createParser. rewrite Hget1. cbn [bindE].
    unfold Parser.parse, Parser.expression, Parser.simpleQuery.
    rewrite (ParserFacts.operand_next _ _ _ s t _ l2 Hs Hget2).
    cbn [bindE currentToken]. destruct (type t); try reflexivity. congruence.
  - intros s r t l' (l1 & Hget1 & l2 & Hget2 & l3 & Hget3 & _) Hs Hr Ht.
    apply Hparse.
    unfold parseQuery_fuel, Parser.createParser. rewrite Hget1. cbn [bindE].
    unfold Parser.parse, Parser.expression, Parser.simpleQuery.
    rewrite (ParserFacts.operand_next _ _ _ s r _ l2 Hs Hget2).
    cbn [bindE currentToken]. rewrite Hr.
    rewrite (ParserFacts.eat_next _ _ RELATION r t l2 l3 Hr Hget3). cbn [bindE].
    now rewrite Hoperand.
Qed.

(** The theorem at the empty query, at [lion lion] and at [lion r_isa],
    whose third token is the end of the input. *)
Lemma clause_cut_short_witness :
  parseQuery EmptyString = Throw "Expected variable or entity as subject"
  /\ parseQuery "lion lion" = Throw "Expected relation"
  /\ parseQuery "lion r_isa" = Throw "Expected variable or entity as object".
Proof.
  split; [|split].
  - apply (proj1 (clause_cut_short EmptyString)
             (createToken EOF EmptyString 0) (Lexer.mk 0 EmptyString)).
    + cbn. eexists; split; reflexivity.
    + intros [H|H]; discriminate H.
  - apply (proj1 (proj2 (clause_cut_short "lion lion"))
             (createToken ENTITY "lion" 0) (createToken ENTITY "lion" 5)
             (Lexer.mk 9 EmptyString)).
    + cbn. repeat (eexists; split; [reflexivity|]). reflexivity.
    + now right.
    + discriminate.
  - apply (proj2 (proj2 (clause_cut_short "lion r_isa"))
             (createToken ENTITY "lion" 0) (createToken RELATION "r_isa" 5)
             (createToken EOF EmptyString 10) (Lexer.mk 10 EmptyString)).
    + cbn. repeat (eexists; split; [reflexivity|]). reflexivity.
    + now right.
    + reflexivity.
    + intros [H|H]; discriminate H.
Defined.

(** X10.  What follows the last clause must be the end of the input.  A
    query whose tokens are those of a chain of clauses followed by a
    variable, an entity or a relation is turned down with ["Unexpected
    token after parsing expression"], whatever comes after that token. *)
Theorem trailing_token_rejected (input : string) (q : SimpleQuery)
    (links : list link) (t : Token) (l' : Lexer.state) :
  isClause q -> Forall isLink links ->
  isOperand t \/ type t = RELATION ->
  Parser.emits Lexer.getNextToken (Lexer.createLexer input)
    (clauseTokens q ++ chainTokens links ++ [t]) l' ->
  parseQuery input = Throw "Unexpected token after parsing expression".
Proof.
  intros Hq Hlinks Ht Hemits.
  assert (Hstop : stops t).
  { unfold stops. destruct Ht as [[Ht|Ht]|Ht]; rewrite Ht; repeat split; discriminate. }
  pose proof (parse_chain_stop _ _ q links t _ l'
                (String.length input + S (List.length links))
                Hq Hlinks Hstop Hemits ltac:(lia)) as H.
  rewrite parseQuery_any_fuel in H by lia.
  destruct Ht as [[Ht|Ht]|Ht]; rewrite Ht in H; now injection H.
Qed.

(** The theorem at [a r_x $y cat]. *)
Lemma trailing_token_rejected_witness :
  parseQuery "a r_x $y cat" = Throw "Unexpected token after parsing expression".
Proof.
  apply (trailing_token_rejected "a r_x $y cat" Example.clause_a []
           (createToken ENTITY "cat" 9) (Lexer.mk 12 EmptyString)).
  - constructor; unfold isOperand; cbn; auto.
  - apply Forall_nil.
  - left. now right.
  - cbn. repeat (eexists; split; [reflexivity|]). reflexivity.
Defined.

(** X11.  The text [astToString] gives for a compound node is not a query:
    it starts with a parenthesis, at which the lexer stops. *)
Theorem astToString_not_parsed_back (l r : ASTNode) (operator : Operator) :
  parseQuery (astToString (CompoundQuery l operator r))
  = Throw "Unexpected character: (".
Proof.
  cbn [astToString]. reflexivity.
Qed.

(** X12.  The errors of [parseQuery].  A query that is turned down is
    turned down with one of the four messages of the parser or with the
    message of the lexer for a character it does not expect.  The message
    [eat] has for a token of the wrong type is never seen: [eat] is only
    called on a token that has just been found to be of the type asked
    for. *)
Theorem parseQuery_errors (queryString msg : string) :
  parseQuery queryString = Throw msg ->
  (In msg syntaxErrors
   \/ exists c, msg = ("Unexpected character: " ++ String c EmptyString)%string)
  /\ JS.startsWith msg "Unexpected token:" = false.
Proof.
  intros H. pose proof (ParserFacts.parseQuery_fuel_enough queryString) as Hfuel.
  rewrite H in Hfuel. unfold parseQuery_fuel in Hfuel.
  apply (parse_throws _ _
           (fun msg => exists c,
              msg = ("Unexpected character: " ++ String c EmptyString)%string)
           getNextToken_throws) in Hfuel.
  destruct Hfuel as [(c & ->)|Hin].
  - split; [right; now exists c | reflexivity].
  - split; [now left|].
    cbn in Hin. destruct Hin as [<-|[<-|[<-|[<-|[]]]]]; reflexivity.
Qed.

Lemma parseQuery_errors_witness :
  (In "Expected relation" syntaxErrors
   \/ exists c, "Expected relation"
                = ("Unexpected character: " ++ String c EmptyString)%string)
  /\ JS.startsWith "Expected relation" "Unexpected token:" = false.
Proof.
  apply (parseQuery_errors "lion lion" "Expected relation"). reflexivity.
Defined.

End SyntaxFacts.

(** ** The clause resolver, case by case *)

Module ClauseFacts.

Lemma filter_twice {A : Type} (f g : A -> bool) (l : list A) :
  filter f (filter g l) = filter (fun x => g x && f x) l.
Proof.
  induction l as [|x l IH]; [reflexivity|]. cbn [filter].
  destruct (g x); cbn [filter andb]; [destruct (f x)|]; now rewrite IH.
Qed.

Lemma findVar_name (n : string) (vars : VariableContents) (v : Var.t) :
  findVar n vars = Some v -> Var.name v = n.
Proof.
  unfold findVar. intros H. apply find_some in H as [_ H]. now apply String.eqb_eq.
Qed.

Section WithWorld.

Variable relationsData : list CatalogEntry.
Variable handleAPICall : string -> ApiData.
Variable RegExp : Type.
Variable RegExp_new : string -> Except RegExp.
Variable RegExp_test : RegExp -> string -> bool.
Variable completion : CompletionOrder.

Local Abbreviation resolve :=
  (evaluateSimpleQuery relationsData handleAPICall RegExp_new RegExp_test completion).
Local Abbreviation lookup q :=
  (find (fun v => String.eqb (code v) (relationCode q)) relationsData).
Local Abbreviation minWeightOf q := (fst (weightBand (weightParam q))).
Local Abbreviation maxWeightOf q := (snd (weightBand (weightParam q))).

(** A value passes the filter of the clause, if there is one. *)
Local Abbreviation passes regex s :=
  (match regex with Some r => RegExp_test r s = true | None => True end).

Lemma grepFilter_In (regex : option RegExp) (l : list jsstring) (x : jsstring) :
  In x (grepFilter RegExp_test regex l) <-> In x l /\ passes regex (JS.template x).
Proof.
  destruct regex as [r|]; cbn [grepFilter]; [apply filter_In | tauto].
Qed.

Lemma lexicalNames_In (data : ApiData) (x : jsstring) :
  In x (lexicalNames data) <->
  exists node, In node (nodes data) /\ Node.type node = 1%Z /\ x = Some (Node.name node).
Proof.
  unfold lexicalNames. rewrite in_map_iff. split.
  - intros (node & <- & H). apply filter_In in H as [H1 H2].
    apply Z.eqb_eq in H2. now exists node.
  - intros (node & H1 & H2 & ->). exists node. split; [reflexivity|].
    apply filter_In. split; [assumption | now apply Z.eqb_eq].
Qed.

(** A clause that is resolved had a filter that compiles and a relation
    of the catalog. *)
Lemma evaluateSimpleQuery_returns (q : SimpleQuery) (existing vars : VariableContents) :
  resolve q existing = Return vars ->
  exists regex entry,
    compileGrep RegExp_new q = Return regex /\ lookup q = Some entry.
Proof.
  unfold evaluateSimpleQuery.
  destruct (weightBand (weightParam q)) as [minWeight maxWeight].
  destruct (compileGrep RegExp_new q) as [regex|m]; cbn [bindE]; [|discriminate].
  destruct (find (fun v => String.eqb (code v) (relationCode q)) relationsData)
    as [entry|]; [|discriminate].
  intros _. now exists regex, entry.
Qed.

(** X13.  A clause with one variable that is not negated binds the
    variable to the names the graph service reports for the entity: the
    names of the nodes of type 1 of the answer, in the order of the
    answer, those the filter of the clause turns down apart.  The lookup
    is made towards the entity when the variable is the subject and from
    it when the variable is the object.  Earlier values of the variable
    play no part. *)
Theorem positive_clause_binds_related_names (q : SimpleQuery)
    (existing : VariableContents) (regex : option RegExp) (entry : CatalogEntry)
    (variable direction entity : string) :
  negated q = false ->
  (type (subject q) = VARIABLE /\ type (object q) = ENTITY
   /\ variable = value (subject q) /\ direction = "to" /\ entity = value (object q))
  \/ (type (subject q) = ENTITY /\ type (object q) = VARIABLE
      /\ variable = value (object q) /\ direction = "from"
      /\ entity = value (subject q)) ->
  compileGrep RegExp_new q = Return regex ->
  lookup q = Some entry ->
  let data :=
    handleAPICall
      (relations_url direction entity (id entry) (minWeightOf q) (maxWeightOf q)) in
  exists values,
    resolve q existing = Return [Var.mk variable values]
    /\ values = grepFilter RegExp_test regex (lexicalNames data)
    /\ (forall x,
          In x values <->
          exists node,
            In node (nodes data) /\ Node.type node = 1%Z
            /\ x = Some (Node.name node) /\ passes regex (Node.name node)).
Proof.
  intros Hneg Hcase Hgrep Hfind data. eexists. split; [|split; [reflexivity|]].
  - rewrite (ResolverFacts.evaluateSimpleQuery_known _ _ _ _ _ _ q existing regex entry
               Hgrep Hfind).
    destruct Hcase as [(Hs & Ho & -> & -> & ->)|(Hs & Ho & -> & -> & ->)];
      rewrite Hs, Ho; cbv zeta; unfold variableAndEntity; now rewrite Hneg.
  - intros x. rewrite grepFilter_In, lexicalNames_In. split.
    + intros ((node & H1 & H2 & ->) & H3). exists node. auto.
    + intros (node & H1 & H2 & -> & H3). split; [now exists node | exact H3].
Qed.

(** X14.  A negated clause with one variable only narrows the variable,
    in both orientations and with or without a filter: the values it
    binds are the earlier values of the variable that the graph service
    does not report for the entity and that pass the filter, in their
    earlier order. *)
Theorem negated_clause_narrows (q : SimpleQuery)
    (existing : VariableContents) (regex : option RegExp) (entry : CatalogEntry)
    (variable direction entity : string) (prior : Var.t) :
  negated q = true ->
  (type (subject q) = VARIABLE /\ type (object q) = ENTITY
   /\ variable = value (subject q) /\ direction = "to" /\ entity = value (object q))
  \/ (type (subject q) = ENTITY /\ type (object q) = VARIABLE
      /\ variable = value (object q) /\ direction = "from"
      /\ entity = value (subject q)) ->
  compileGrep RegExp_new q = Return regex ->
  lookup q = Some entry ->
  findVar variable existing = Some prior ->
  let related :=
    lexicalNames
      (handleAPICall
         (relations_url direction entity (id entry) (minWeightOf q) (maxWeightOf q))) in
  exists values,
    resolve q existing = Return [Var.mk variable values]
    /\ (forall x,
          In x values <->
          In x (Var.value prior) /\ ~ In x related /\ passes regex (JS.template x))
    /\ (exists keep, values = filter keep (Var.value prior)).
Proof.
  intros Hneg Hcase Hgrep Hfind Hprior related.
  exists (grepFilter RegExp_test regex
            (filter (fun v => negb (includes related v)) (Var.value prior))).
  split; [|split].
  - rewrite (ResolverFacts.evaluateSimpleQuery_known _ _ _ _ _ _ q existing regex entry
               Hgrep Hfind).
    destruct Hcase as [(Hs & Ho & -> & -> & ->)|(Hs & Ho & -> & -> & ->)];
      rewrite Hs, Ho; cbv zeta;
      now rewrite (ResolverFacts.variableAndEntity_negated _ _ _ q existing _ _ regex
                     prior Hneg Hprior).
  - intros x. rewrite grepFilter_In, filter_In, negb_true_iff.
    rewrite <- (ResolverFacts.includes_In related x).
    destruct (includes related x); intuition congruence.
  - destruct regex as [r|]; cbn [grepFilter].
    + eexists. now rewrite filter_twice.
    + now eexists.
Qed.

(** The name of the pair binding of a negated clause falls back on the
    text of the token when the binding found has an empty name, which is
    then the text of the token as well. *)
Lemma pairs_name (n : string) (vars : VariableContents) :
  match findVar n vars with
  | Some v => if String.eqb (Var.name v) EmptyString then n else Var.name v
  | None => n
  end = n.
Proof.
  destruct (findVar n vars) as [v|] eqn:E; [|reflexivity].
  apply findVar_name in E. rewrite E. now destruct (String.eqb n EmptyString).
Qed.

Lemma variableToVariable_name (q : SimpleQuery) (existing : VariableContents)
    (relationId : Z) (minWeight maxWeight : Weight) (regex : option RegExp) :
  exists pairs,
    variableToVariable handleAPICall RegExp_test completion q existing relationId
      minWeight maxWeight regex
    = [Var.mk (value (subject q) ++ "_" ++ value (object q) ++ "_pairs") pairs].
Proof.
  unfold variableToVariable, processVariableToVariableRelation.
  destruct (negated q).
  - rewrite !pairs_name. eauto.
  - destruct (findVar (value (subject q)) existing),
             (findVar (value (object q)) existing); eauto.
Qed.

Lemma variableAndEntity_name (q : SimpleQuery) (existing : VariableContents)
    (variable apiUrl : string) (regex : option RegExp) :
  exists values,
    variableAndEntity handleAPICall RegExp_test q existing variable apiUrl regex
    = [Var.mk variable values].
Proof. unfold variableAndEntity. destruct (negated q); eauto. Qed.

(** A clause that is resolved gives one binding. *)
Lemma evaluateSimpleQuery_single (q : SimpleQuery) (existing vars : VariableContents) :
  resolve q existing = Return vars -> exists newVar, vars = [newVar].
Proof.
  intros H. destruct (evaluateSimpleQuery_returns q existing vars H)
    as (regex & entry & Hgrep & Hfind).
  rewrite (ResolverFacts.evaluateSimpleQuery_known _ _ _ _ _ _ q existing regex entry
             Hgrep Hfind) in H.
  cbv zeta in H.
  destruct (type (subject q)), (type (object q)); try discriminate H;
    injection H as <-.
  - destruct (variableToVariable_name q existing (id entry)
                (minWeightOf q) (maxWeightOf q) regex) as (pairs & ->). eauto.
  - destruct (variableAndEntity_name q existing (value (subject q))
                (relations_url "to" (value (object q)) (id entry)
                   (minWeightOf q) (maxWeightOf q)) regex) as (values & ->). eauto.
  - destruct (variableAndEntity_name q existing (value (object q))
                (relations_url "from" (value (subject q)) (id entry)
                   (minWeightOf q) (maxWeightOf q)) regex) as (values & ->). eauto.
Qed.

(** X15.  A clause that is resolved gives exactly one binding, whatever
    the bindings it is resolved in: the variable of the clause when it has
    one variable, and the binding named after the subject and the object,
    [<subject>_<object>_pairs], when it has two, negated or not. *)
Theorem clause_binds_one_name (q : SimpleQuery) (existing vars : VariableContents) :
  resolve q existing = Return vars ->
  exists values,
    vars
    = [Var.mk
         match type (subject q), type (object q) with
         | VARIABLE, VARIABLE =>
             (value (subject q) ++ "_" ++ value (object q) ++ "_pairs")%string
         | VARIABLE, _ => value (subject q)
         | _, _ => value (object q)
         end
         values].
Proof.
  intros H. destruct (evaluateSimpleQuery_returns q existing vars H)
    as (regex & entry & Hgrep & Hfind).
  rewrite (ResolverFacts.evaluateSimpleQuery_known _ _ _ _ _ _ q existing regex entry
             Hgrep Hfind) in H.
  cbv zeta in H.
  destruct (type (subject q)), (type (object q)); try discriminate H;
    injection H as <-.
  - apply variableToVariable_name.
  - apply variableAndEntity_name.
  - apply variableAndEntity_name.
Qed.

(** X16.  Two bound variables.  When both variables of a clause are
    bound, the clause gives the pairs [left,right] of a value of the
    first and a value of the second such that the second is among the
    names related to the first, and, when the clause is negated, the
    pairs such that it is not: between them the two clauses share out the
    pairs of values of the two variables. *)
Theorem bound_variables_pairs (q : SimpleQuery) (existing : VariableContents)
    (regex : option RegExp) (entry : CatalogEntry) (leftVar rightVar : Var.t) :
  type (subject q) = VARIABLE -> type (object q) = VARIABLE ->
  compileGrep RegExp_new q = Return regex ->
  lookup q = Some entry ->
  findVar (value (subject q)) existing = Some leftVar ->
  findVar (value (object q)) existing = Some rightVar ->
  let related leftValue :=
    getRelatedEntities handleAPICall RegExp_test leftValue (id entry)
      (minWeightOf q) (maxWeightOf q) regex in
  exists pairs,
    resolve q existing
    = Return [Var.mk (value (subject q) ++ "_" ++ value (object q) ++ "_pairs") pairs]
    /\ (forall p,
          In p pairs <->
          exists leftValue rightValue,
            p = pair_text leftValue rightValue
            /\ In leftValue (Var.value leftVar)
            /\ In rightValue (Var.value rightVar)
            /\ (if negated q then ~ In rightValue (related leftValue)
                else In rightValue (related leftValue))).
Proof.
  intros Hs Ho Hgrep Hfind Hleft Hright related.
  rewrite (ResolverFacts.evaluateSimpleQuery_known _ _ _ _ _ _ q existing regex entry
             Hgrep Hfind).
  rewrite Hs, Ho. cbv zeta.
  unfold variableToVariable, processVariableToVariableRelation.
  destruct (negated q).
  - rewrite !pairs_name, Hleft, Hright. eexists. split; [reflexivity|].
    intros p. rewrite in_flat_map. split.
    + intros (leftValue & Hl & Hp). apply in_flat_map in Hp as (rightValue & Hr & Hp).
      fold (related leftValue) in Hp.
      destruct (includes (related leftValue) rightValue) eqn:E; [contradiction|].
      destruct Hp as [<-|[]]. exists leftValue, rightValue. repeat split; try assumption.
      rewrite <- ResolverFacts.includes_In. congruence.
    + intros (leftValue & rightValue & -> & Hl & Hr & Hn).
      exists leftValue. split; [assumption|]. apply in_flat_map.
      exists rightValue. split; [assumption|]. fold (related leftValue).
      destruct (includes (related leftValue) rightValue) eqn:E; [|now left].
      apply ResolverFacts.includes_In in E. contradiction.
  - rewrite Hleft, Hright. eexists. split; [reflexivity|].
    intros p. rewrite in_flat_map. split.
    + intros (leftValue & Hl & Hp). apply in_flat_map in Hp as (rightValue & Hr & Hp).
      destruct (includes (Var.value rightVar) rightValue) eqn:E; [|contradiction].
      destruct Hp as [<-|[]]. exists leftValue, rightValue. repeat split; try assumption.
      now apply ResolverFacts.includes_In.
    + intros (leftValue & rightValue & -> & Hl & Hr & Hrel).
      exists leftValue. split; [assumption|]. apply in_flat_map.
      exists rightValue. split; [exact Hrel|].
      apply ResolverFacts.includes_In in Hr. rewrite Hr. now left.
Qed.


(** X18.  The filter is compiled first.  A clause whose filter the
    regular-expression engine turns down fails with the error of the
    engine, whatever its relation, its operands and the bindings, and so
    does the evaluation of every query that reaches the clause. *)
Theorem filter_error_comes_first (q : SimpleQuery) (existing : VariableContents)
    (msg : string) :
  compileGrep RegExp_new q = Throw msg ->
  resolve q existing = Throw msg
  /\ (forall (ast : ASTNode) (start : VariableContents),
        reaches relationsData handleAPICall RegExp_new RegExp_test completion q existing ast start ->
        evaluateQuery relationsData handleAPICall RegExp_new RegExp_test completion ast start
        = Throw msg).
Proof.
  intros Hgrep.
  assert (H : resolve q existing = Throw msg).
  { unfold evaluateSimpleQuery.
    destruct (weightBand (weightParam q)) as [minWeight maxWeight].
    now rewrite Hgrep. }
  split; [exact H|]. intros ast start Hreach.
  now apply (ResolverFacts.evaluateQuery_aborts _ _ _ _ _ _ q existing).
Qed.

End WithWorld.

(** The theorem at [$x r_isa animal] in the example world, where the
    lion is the one animal. *)
Lemma positive_clause_binds_related_names_witness :
  exists values,
    evaluateSimpleQuery Example.catalog Example.graph
      Example.RegExp_new Example.RegExp_test Example.inOrder
      (Example.clause VARIABLE "$x" 0 "r_isa" 3 ENTITY "animal" 9) []
    = Return [Var.mk "$x" values]
    /\ values = strings ["lion"].
Proof.
  destruct (positive_clause_binds_related_names
              Example.catalog Example.graph Example.RegExp
              Example.RegExp_new Example.RegExp_test Example.inOrder
              (Example.clause VARIABLE "$x" 0 "r_isa" 3 ENTITY "animal" 9) []
              None (mkCatalogEntry 6 "r_isa") "$x" "to" "animal"
              eq_refl (or_introl (conj eq_refl (conj eq_refl
                         (conj eq_refl (conj eq_refl eq_refl)))))
              eq_refl eq_refl)
    as (values & Heval & Hvalues & _).
  exists values. split; [exact Heval|]. rewrite Hvalues. reflexivity.
Defined.

(** The theorem at [$x !r_isa mammal /o/] with the lion, the rose and the
    cat as the earlier values: the rose is no mammal and has an o. *)
Lemma negated_clause_narrows_witness :
  exists values,
    evaluateSimpleQuery Example.catalog Example.graph
      Example.RegExp_new Example.RegExp_test Example.inOrder
      (createSimpleQuery (createToken VARIABLE "$x" 0) (createToken RELATION "!r_isa" 3)
         (createToken ENTITY "mammal" 10) None (Some (createToken GREP "/o/" 17)) true)
      Example.lionRoseCat
    = Return [Var.mk "$x" values]
    /\ (In (Some "rose") values <->
        In (Some "rose") (strings ["lion"; "rose"; "cat"])
        /\ ~ In (Some "rose") (strings ["lion"; "cat"])
        /\ Example.RegExp_test "o" "rose" = true).
Proof.
  destruct (negated_clause_narrows
              Example.catalog Example.graph Example.RegExp
              Example.RegExp_new Example.RegExp_test Example.inOrder
              (createSimpleQuery (createToken VARIABLE "$x" 0)
                 (createToken RELATION "!r_isa" 3) (createToken ENTITY "mammal" 10)
                 None (Some (createToken GREP "/o/" 17)) true)
              Example.lionRoseCat (Some "o") (mkCatalogEntry 6 "r_isa")
              "$x" "to" "mammal" (Var.mk "$x" (strings ["lion"; "rose"; "cat"]))
              eq_refl (or_introl (conj eq_refl (conj eq_refl
                         (conj eq_refl (conj eq_refl eq_refl)))))
              eq_refl eq_refl eq_refl)
    as (values & Heval & Hin & _).
  exists values. split; [exact Heval|]. exact (Hin (Some "rose")).
Defined.

(** The theorem at [$x !r_associated $y] with both variables bound. *)
Lemma clause_binds_one_name_witness :
  exists values,
    [Var.mk "$x_$y_pairs" (strings ["lion,purr"; "cat,mane"])]
    = [Var.mk "$x_$y_pairs" values].
Proof.
  apply (clause_binds_one_name Example.catalog Pairs.graph Example.RegExp
           Example.RegExp_new Example.RegExp_test Example.inOrder Pairs.notAssociated Pairs.bound).
  reflexivity.
Defined.

(** The theorem at [$x r_associated $y] and at [$x !r_associated $y], with
    the lion and the cat for [$x] and the mane and the purr for [$y]. *)
Lemma bound_variables_pairs_witness :
  (exists pairs,
     evaluateSimpleQuery Example.catalog Pairs.graph
       Example.RegExp_new Example.RegExp_test Example.inOrder Pairs.associated Pairs.bound
     = Return [Var.mk "$x_$y_pairs" pairs]
     /\ pairs = strings ["lion,mane"; "cat,purr"])
  /\ (exists pairs,
        evaluateSimpleQuery Example.catalog Pairs.graph
          Example.RegExp_new Example.RegExp_test Example.inOrder Pairs.notAssociated Pairs.bound
        = Return [Var.mk "$x_$y_pairs" pairs]
        /\ pairs = strings ["lion,purr"; "cat,mane"]).
Proof.
  split.
  - destruct (bound_variables_pairs
                Example.catalog Pairs.graph Example.RegExp
                Example.RegExp_new Example.RegExp_test Example.inOrder Pairs.associated Pairs.bound
                None (mkCatalogEntry 0 "r_associated")
                (Var.mk "$x" (strings ["lion"; "cat"]))
                (Var.mk "$y" (strings ["mane"; "purr"]))
                eq_refl eq_refl eq_refl eq_refl eq_refl eq_refl)
      as (pairs & Heval & _).
    exists pairs. split; [exact Heval|].
    cbv in Heval. now injection Heval.
  - destruct (bound_variables_pairs
                Example.catalog Pairs.graph Example.RegExp
                Example.RegExp_new Example.RegExp_test Example.inOrder Pairs.notAssociated Pairs.bound
                None (mkCatalogEntry 0 "r_associated")
                (Var.mk "$x" (strings ["lion"; "cat"]))
                (Var.mk "$y" (strings ["mane"; "purr"]))
                eq_refl eq_refl eq_refl eq_refl eq_refl eq_refl)
      as (pairs & Heval & _).
    exists pairs. split; [exact Heval|].
    cbv in Heval. now injection Heval.
Defined.


(** The theorem at [lion r_unknown animal /(/] with an engine that turns
    the pattern of an unterminated group down. *)
Lemma filter_error_comes_first_witness :
  evaluateSimpleQuery Example.catalog Example.graph
    Example.RegExp_strict Example.RegExp_test Example.inOrder
    (createSimpleQuery (createToken ENTITY "lion" 0) (createToken RELATION "r_unknown" 5)
       (createToken ENTITY "animal" 15) None (Some (createToken GREP "/(/" 22)) false)
    []
  = Throw "Invalid regular expression: /(/: Unterminated group".
Proof.
  apply (filter_error_comes_first
           Example.catalog Example.graph Example.RegExp
           Example.RegExp_strict Example.RegExp_test Example.inOrder
           (createSimpleQuery (createToken ENTITY "lion" 0)
              (createToken RELATION "r_unknown" 5) (createToken ENTITY "animal" 15)
              None (Some (createToken GREP "/(/" 22)) false)
           [] "Invalid regular expression: /(/: Unterminated group").
  reflexivity.
Defined.

(** *** The weight band *)

Lemma digit_is_no_sign (c a : ascii) :
  Lexer.is_digit c = true -> is_comparison a = true -> Ascii.eqb c a = false.
Proof.
  intros Hc Ha. destruct (Ascii.eqb c a) eqn:E; [|reflexivity].
  apply Ascii.eqb_eq in E. subst a. exfalso. revert Hc Ha.
  destruct c as [[] [] [] [] [] [] [] []]; cbv; congruence.
Qed.

Lemma remove_all_digits (n : string) :
  every Lexer.is_digit n = true -> JS.remove_all Lexer.is_digit n = EmptyString.
Proof.
  induction n as [|c n IH]; [reflexivity|]. cbn [every JS.remove_all].
  intros H. apply andb_prop in H as [Hc H]. rewrite Hc. now apply IH.
Qed.

Lemma digits_without_equals (n : string) :
  every Lexer.is_digit n = true -> Lexer.mem_char "=" n = false.
Proof.
  induction n as [|c n IH]; [reflexivity|]. cbn [every Lexer.mem_char].
  intros H. apply andb_prop in H as [Hc H]. rewrite (IH H), orb_false_r.
  rewrite Ascii.eqb_sym. now apply digit_is_no_sign.
Qed.

(** A text without the equals sign contains neither [>=] nor [<=] and
    does not come down to the equals sign when its digits are removed. *)
Lemma prefix_tail (a c : ascii) (p v : string) :
  String.prefix (String a p) (String c v) = true -> String.prefix p v = true.
Proof.
  simpl. destruct (Ascii.ascii_dec a c); [auto | discriminate].
Qed.

Lemma includes_needs_equals (v : string) (a : ascii) :
  Lexer.mem_char "=" v = false ->
  JS.includes v (String a (String "=" EmptyString)) = false.
Proof.
  induction v as [|c v IH]; [reflexivity|]. cbn [Lexer.mem_char JS.includes].
  intros H. apply orb_false_elim in H as [Hc H]. rewrite (IH H), orb_false_r.
  destruct (String.prefix (String a (String "=" EmptyString)) (String c v)) eqn:P;
    [|reflexivity].
  apply prefix_tail in P. destruct v as [|d v]; [discriminate P|].
  cbn [Lexer.mem_char] in H. apply orb_false_elim in H as [Hd _].
  rewrite TokenFacts.prefix_other_head in P; [discriminate P|].
  now rewrite Ascii.eqb_sym.
Qed.

Lemma remove_all_keeps_equals (p : ascii -> bool) (v : string) :
  Lexer.mem_char "=" v = false ->
  String.eqb (JS.remove_all p v) "=" = false.
Proof.
  intros H. destruct (String.eqb (JS.remove_all p v) "=") eqn:E; [|reflexivity].
  apply String.eqb_eq in E. exfalso. revert H E.
  induction v as [|c v IH]; [discriminate|]. cbn [Lexer.mem_char JS.remove_all].
  intros H. apply orb_false_elim in H as [Hc H].
  destruct (p c); [now apply IH|].
  intros E. injection E as -> _. discriminate Hc.
Qed.

(** X19.  What a weight token does to the band.  A token [=N], with [N]
    made of digits, sets both bounds to [N].  A token without the equals
    sign, such as the strict comparisons [>N] and [<N], changes nothing:
    the band stays the default one, from 30 to 999999. *)
Theorem weight_exact_or_ignored :
  (forall (n : string) (pos : nat),
      every Lexer.is_digit n = true ->
      weightBand (Some (createToken WEIGHT_PARAM ("=" ++ n) pos))
      = (WString n, WString n))
  /\ (forall (v : string) (pos : nat),
        Lexer.mem_char "=" v = false ->
        weightBand (Some (createToken WEIGHT_PARAM v pos))
        = (WNumber MIN_WEIGHT, WNumber MAX_WEIGHT))
  /\ (forall (n : string) (pos : nat),
        every Lexer.is_digit n = true ->
        weightBand (Some (createToken WEIGHT_PARAM (">" ++ n) pos))
        = (WNumber MIN_WEIGHT, WNumber MAX_WEIGHT)
        /\ weightBand (Some (createToken WEIGHT_PARAM ("<" ++ n) pos))
           = (WNumber MIN_WEIGHT, WNumber MAX_WEIGHT)).
Proof.
  assert (Hignored : forall (v : string) (pos : nat),
            Lexer.mem_char "=" v = false ->
            weightBand (Some (createToken WEIGHT_PARAM v pos))
            = (WNumber MIN_WEIGHT, WNumber MAX_WEIGHT)).
  { intros v pos H. unfold weightBand. cbn [value].
    rewrite (remove_all_keeps_equals _ v H).
    now rewrite !includes_needs_equals. }
  split; [|split].
  - intros n pos H. unfold weightBand. cbn [value].
    change (JS.remove_all Lexer.is_digit ("=" ++ n))
      with (String "="%char (JS.remove_all Lexer.is_digit n)).
    rewrite (remove_all_digits n H). reflexivity.
  - exact Hignored.
  - intros n pos H. apply digits_without_equals in H.
    split; apply Hignored; cbn [append Lexer.mem_char]; now rewrite H.
Qed.

(** The theorem at [=10], [>500] and [<100]. *)
Lemma weight_exact_or_ignored_witness :
  weightBand (Some (createToken WEIGHT_PARAM "=10" 16)) = (WString "10", WString "10")
  /\ weightBand (Some (createToken WEIGHT_PARAM ">500" 16))
     = (WNumber MIN_WEIGHT, WNumber MAX_WEIGHT)
  /\ weightBand (Some (createToken WEIGHT_PARAM "<100" 16))
     = (WNumber MIN_WEIGHT, WNumber MAX_WEIGHT).
Proof.
  split; [|split].
  - apply (proj1 weight_exact_or_ignored "10" 16). reflexivity.
  - apply (proj1 (proj2 (proj2 weight_exact_or_ignored) "500" 16 eq_refl)).
  - apply (proj2 (proj2 (proj2 weight_exact_or_ignored) "100" 16 eq_refl)).
Defined.

(** *** One bound variable *)

Section OneBound.

Variable relationsData : list CatalogEntry.
Variable handleAPICall : string -> ApiData.
Variable RegExp : Type.
Variable RegExp_new : string -> Except RegExp.
Variable RegExp_test : RegExp -> string -> bool.
Variable completion : CompletionOrder.

Local Abbreviation resolve :=
  (evaluateSimpleQuery relationsData handleAPICall RegExp_new RegExp_test completion).
Local Abbreviation lookup q :=
  (find (fun v => String.eqb (code v) (relationCode q)) relationsData).
Local Abbreviation minWeightOf q := (fst (weightBand (weightParam q))).
Local Abbreviation maxWeightOf q := (snd (weightBand (weightParam q))).

Lemma allValuesOf_In (related : jsstring -> list jsstring) (l : list jsstring)
    (v : jsstring) :
  In v (allValuesOf related l) <-> exists k, In k l /\ In v (related k).
Proof.
  unfold allValuesOf. rewrite CombinatorFacts.dedupe_In, in_flat_map. reflexivity.
Qed.

(** The values gathered from a [Map] do not depend on the order of its
    keys. *)
Lemma allValuesOf_completion (related : jsstring -> list jsstring)
    (q : SimpleQuery) (existing : VariableContents) (l : list jsstring)
    (v : jsstring) :
  isCompletionOrder completion ->
  In v (allValuesOf related (completion q existing l))
  <-> exists k, In k l /\ In v (related k).
Proof.
  intros Hc. rewrite allValuesOf_In.
  split; intros (k & Hk & Hv); exists k; split; try assumption;
    now apply (proj2 (Hc q existing l)).
Qed.

(** X20.  One bound variable.  When the first variable only is bound,
    the clause pairs each of its values with the entities related to it;
    when the second only is bound, it pairs each of its values with the
    names the graph service reports towards it, to which the filter of
    the clause is not applied.  The negated clause pairs a value of the
    bound variable with what is reached from some value of that variable
    but not from this one.  This tells which pairs are bound, in whatever
    order the lookups complete; the order of the pairs follows that
    order. *)
Theorem one_bound_variable_pairs (q : SimpleQuery) (existing : VariableContents)
    (regex : option RegExp) (entry : CatalogEntry) :
  isCompletionOrder completion ->
  type (subject q) = VARIABLE -> type (object q) = VARIABLE ->
  compileGrep RegExp_new q = Return regex ->
  lookup q = Some entry ->
  let related leftValue :=
    getRelatedEntities handleAPICall RegExp_test leftValue (id entry)
      (minWeightOf q) (maxWeightOf q) regex in
  let relating rightValue :=
    getRelatingEntities handleAPICall rightValue (id entry)
      (minWeightOf q) (maxWeightOf q) in
  (forall leftVar,
      findVar (value (subject q)) existing = Some leftVar ->
      findVar (value (object q)) existing = None ->
      exists pairs,
        resolve q existing
        = Return [Var.mk (value (subject q) ++ "_" ++ value (object q) ++ "_pairs")
                    pairs]
        /\ forall p,
             In p pairs <->
             exists leftValue rightValue,
               p = pair_text leftValue rightValue
               /\ In leftValue (Var.value leftVar)
               /\ (if negated q
                   then (exists other, In other (Var.value leftVar)
                                       /\ In rightValue (related other))
                        /\ ~ In rightValue (related leftValue)
                   else In rightValue (related leftValue)))
  /\ (forall rightVar,
        findVar (value (subject q)) existing = None ->
        findVar (value (object q)) existing = Some rightVar ->
        exists pairs,
          resolve q existing
          = Return [Var.mk (value (subject q) ++ "_" ++ value (object q) ++ "_pairs")
                      pairs]
          /\ forall p,
               In p pairs <->
               exists leftValue rightValue,
                 p = pair_text leftValue rightValue
                 /\ In rightValue (Var.value rightVar)
                 /\ (if negated q
                     then (exists other, In other (Var.value rightVar)
                                         /\ In leftValue (relating other))
                          /\ ~ In leftValue (relating rightValue)
                     else In leftValue (relating rightValue))).
Proof.
  intros Hc Hs Ho Hgrep Hfind related relating.
  rewrite (ResolverFacts.evaluateSimpleQuery_known _ _ _ _ _ _ q existing regex entry
             Hgrep Hfind).
  rewrite Hs, Ho. cbv zeta. unfold variableToVariable. split.
  - intros leftVar Hleft Hright. destruct (negated q).
    + rewrite !pairs_name, Hleft, Hright. eexists. split; [reflexivity|].
      intros p. rewrite in_flat_map. split.
      * intros (leftValue & Hl & Hp).
        apply in_flat_map in Hp as (rightValue & Hr & Hp).
        fold (related leftValue) in Hp.
        destruct (includes (related leftValue) rightValue) eqn:E; [contradiction|].
        destruct Hp as [<-|[]]. exists leftValue, rightValue.
        split; [reflexivity|]. split; [assumption|]. split.
        -- now apply (allValuesOf_completion _ q existing _ _ Hc) in Hr.
        -- rewrite <- ResolverFacts.includes_In. congruence.
      * intros (leftValue & rightValue & -> & Hl & Hother & Hn).
        exists leftValue. split; [assumption|]. apply in_flat_map.
        exists rightValue. split; [now apply (allValuesOf_completion _ q existing _ _ Hc)|].
        fold (related leftValue).
        destruct (includes (related leftValue) rightValue) eqn:E; [|now left].
        apply ResolverFacts.includes_In in E. contradiction.
    + rewrite Hleft, Hright. eexists. split; [reflexivity|].
      intros p. rewrite in_flat_map. split.
      * intros (leftValue & Hl & Hp). apply in_map_iff in Hp as (rightValue & <- & Hr).
        apply (proj1 (proj2 (Hc q existing _) _)) in Hl.
        now exists leftValue, rightValue.
      * intros (leftValue & rightValue & -> & Hl & Hr).
        exists leftValue. split; [now apply (proj2 (proj2 (Hc q existing _) _))|].
        apply in_map_iff. now exists rightValue.
  - intros rightVar Hleft Hright. destruct (negated q).
    + rewrite !pairs_name, Hleft, Hright. eexists. split; [reflexivity|].
      intros p. rewrite in_flat_map. split.
      * intros (leftValue & Hl & Hp).
        apply in_flat_map in Hp as (rightValue & Hr & Hp).
        fold (relating rightValue) in Hp.
        destruct (includes (relating rightValue) leftValue) eqn:E; [contradiction|].
        destruct Hp as [<-|[]]. exists leftValue, rightValue.
        split; [reflexivity|]. split; [assumption|]. split.
        -- now apply (allValuesOf_completion _ q existing _ _ Hc) in Hl.
        -- rewrite <- ResolverFacts.includes_In. congruence.
      * intros (leftValue & rightValue & -> & Hr & Hother & Hn).
        exists leftValue. split; [now apply (allValuesOf_completion _ q existing _ _ Hc)|].
        apply in_flat_map. exists rightValue. split; [assumption|].
        fold (relating rightValue).
        destruct (includes (relating rightValue) leftValue) eqn:E; [|now left].
        apply ResolverFacts.includes_In in E. contradiction.
    + rewrite Hleft, Hright. eexists. split; [reflexivity|].
      intros p. rewrite in_flat_map. split.
      * intros (rightValue & Hr & Hp). apply in_map_iff in Hp as (leftValue & <- & Hl).
        apply (proj1 (proj2 (Hc q existing _) _)) in Hr.
        now exists leftValue, rightValue.
      * intros (leftValue & rightValue & -> & Hr & Hl).
        exists rightValue. split; [now apply (proj2 (proj2 (Hc q existing _) _))|].
        apply in_map_iff. now exists leftValue.
Qed.

End OneBound.

Lemma dedupe_NoDup (l : list jsstring) : NoDup (JS.dedupe jsstring_eqb l).
Proof.
  induction l as [|x l IH]; cbn [JS.dedupe]; constructor.
  - rewrite filter_In. intros [_ H].
    now rewrite (proj2 (ResolverFacts.jsstring_eqb_eq x x) eq_refl) in H.
  - now apply NoDup_filter.
Qed.

(** Lookups that complete in the order they are started in, or in the
    reverse of it, are completion orders. *)
Lemma inOrder_isCompletionOrder : isCompletionOrder Example.inOrder.
Proof.
  intros q existing l. unfold Example.inOrder. split.
  - apply dedupe_NoDup.
  - intros key. apply CombinatorFacts.dedupe_In.
Qed.

Lemma lastFirst_isCompletionOrder : isCompletionOrder Pairs.lastFirst.
Proof.
  intros q existing l. unfold Pairs.lastFirst. split.
  - apply NoDup_rev, dedupe_NoDup.
  - intros key. rewrite <- in_rev. apply CombinatorFacts.dedupe_In.
Qed.

(** The theorem at [$x r_associated $y] with the lion and the cat for
    [$x] and no binding of [$y], and with the mane for [$y] and no
    binding of [$x], whether the lookups complete in the order they are
    started in or in the reverse of it: the pair of the cat and the purr
    is bound either way. *)
Lemma one_bound_variable_pairs_witness :
  (exists pairs,
     evaluateSimpleQuery Example.catalog Pairs.graph
       Example.RegExp_new Example.RegExp_test Example.inOrder
       Pairs.associated Pairs.leftBound
     = Return [Var.mk "$x_$y_pairs" pairs]
     /\ In (Some "cat,purr") pairs)
  /\ (exists pairs,
        evaluateSimpleQuery Example.catalog Pairs.graph
          Example.RegExp_new Example.RegExp_test Pairs.lastFirst
          Pairs.associated Pairs.leftBound
        = Return [Var.mk "$x_$y_pairs" pairs]
        /\ In (Some "cat,purr") pairs)
  /\ (exists pairs,
        evaluateSimpleQuery Example.catalog Pairs.graph
          Example.RegExp_new Example.RegExp_test Pairs.lastFirst
          Pairs.associated Pairs.rightBound
        = Return [Var.mk "$x_$y_pairs" pairs]
        /\ In (Some "lion,mane") pairs).
Proof.
  split; [|split].
  - destruct (proj1 (one_bound_variable_pairs
                Example.catalog Pairs.graph Example.RegExp
                Example.RegExp_new Example.RegExp_test Example.inOrder
                Pairs.associated Pairs.leftBound
                None (mkCatalogEntry 0 "r_associated")
                inOrder_isCompletionOrder eq_refl eq_refl eq_refl eq_refl)
                (Var.mk "$x" (strings ["lion"; "cat"])) eq_refl eq_refl)
      as (pairs & Heval & Hpairs).
    exists pairs. split; [exact Heval|].
    apply (proj2 (Hpairs _)). exists (Some "cat"), (Some "purr").
    split; [reflexivity|]. split; cbn; auto.
  - destruct (proj1 (one_bound_variable_pairs
                Example.catalog Pairs.graph Example.RegExp
                Example.RegExp_new Example.RegExp_test Pairs.lastFirst
                Pairs.associated Pairs.leftBound
                None (mkCatalogEntry 0 "r_associated")
                lastFirst_isCompletionOrder eq_refl eq_refl eq_refl eq_refl)
                (Var.mk "$x" (strings ["lion"; "cat"])) eq_refl eq_refl)
      as (pairs & Heval & Hpairs).
    exists pairs. split; [exact Heval|].
    apply (proj2 (Hpairs _)). exists (Some "cat"), (Some "purr").
    split; [reflexivity|]. split; cbn; auto.
  - destruct (proj2 (one_bound_variable_pairs
                Example.catalog Pairs.graph Example.RegExp
                Example.RegExp_new Example.RegExp_test Pairs.lastFirst
                Pairs.associated Pairs.rightBound
                None (mkCatalogEntry 0 "r_associated")
                lastFirst_isCompletionOrder eq_refl eq_refl eq_refl eq_refl)
                (Var.mk "$y" (strings ["mane"])) eq_refl eq_refl)
      as (pairs & Heval & Hpairs).
    exists pairs. split; [exact Heval|].
    apply (proj2 (Hpairs _)). exists (Some "lion"), (Some "mane").
    split; [reflexivity|]. split; cbn; auto.
Defined.

(** The order of the pairs is that of the completion of the lookups: the
    pairs of the lion come first when its lookup completes first, last
    when the lookup of the cat does. *)
Remark pairs_follow_completion :
  evaluateSimpleQuery Example.catalog Pairs.graph
    Example.RegExp_new Example.RegExp_test Example.inOrder
    Pairs.associated Pairs.leftBound
  = Return [Var.mk "$x_$y_pairs" (strings ["lion,mane"; "lion,roar"; "cat,purr"])]
  /\ evaluateSimpleQuery Example.catalog Pairs.graph
       Example.RegExp_new Example.RegExp_test Pairs.lastFirst
       Pairs.associated Pairs.leftBound
     = Return [Var.mk "$x_$y_pairs" (strings ["cat,purr"; "lion,mane"; "lion,roar"])].
Proof. split; reflexivity. Qed.

End ClauseFacts.

(** ** The evaluator, node by node *)

Module EvaluatorFacts.
Import CombinatorFacts.

Local Abbreviation names vars := (map Var.name vars).

(** *** Merging the binding of a clause *)

Lemma mergeVariable_same (vars : VariableContents) (newVar : Var.t) :
  findVar (Var.name newVar) (mergeVariable vars newVar) = Some newVar.
Proof.
  unfold findVar. induction vars as [|v vars IH]; cbn [mergeVariable find].
  - now rewrite String.eqb_refl.
  - destruct (String.eqb (Var.name v) (Var.name newVar)) eqn:E; cbn [find].
    + now rewrite String.eqb_refl.
    + now rewrite E.
Qed.

Lemma mergeVariable_other (vars : VariableContents) (newVar : Var.t) (n : string) :
  n <> Var.name newVar ->
  findVar n (mergeVariable vars newVar) = findVar n vars.
Proof.
  intros Hn. assert (Hnew : String.eqb (Var.name newVar) n = false)
    by (apply String.eqb_neq; congruence).
  unfold findVar. induction vars as [|v vars IH]; cbn [mergeVariable find].
  - now rewrite Hnew.
  - destruct (String.eqb (Var.name v) (Var.name newVar)) eqn:E; cbn [find].
    + rewrite Hnew. apply String.eqb_eq in E. now rewrite E, Hnew.
    + now rewrite IH.
Qed.

Lemma mergeVariable_names (vars : VariableContents) (newVar : Var.t) :
  names (mergeVariable vars newVar)
  = if existsb (String.eqb (Var.name newVar)) (names vars) then names vars
    else names vars ++ [Var.name newVar].
Proof.
  induction vars as [|v vars IH]; cbn [mergeVariable map existsb app]; [reflexivity|].
  rewrite (String.eqb_sym (Var.name newVar)).
  destruct (String.eqb (Var.name v) (Var.name newVar)) eqn:E; cbn [map orb].
  - apply String.eqb_eq in E. now rewrite E.
  - rewrite IH. now destruct (existsb _ _).
Qed.

Lemma existsb_eqb_In (n : string) (l : list string) :
  existsb (String.eqb n) l = true <-> In n l.
Proof.
  rewrite existsb_exists. split.
  - intros (m & Hin & E). apply String.eqb_eq in E. now subst.
  - intros H. exists n. split; [assumption | apply String.eqb_refl].
Qed.

Lemma NoDup_snoc (l : list string) (n : string) :
  NoDup l -> ~ In n l -> NoDup (l ++ [n]).
Proof.
  intros Hl Hn. induction Hl as [|x l Hx Hl IH]; cbn.
  - constructor; [intros [] | constructor].
  - constructor.
    + rewrite in_app_iff. intros [H|[H|[]]]; [now apply Hx | subst; apply Hn; now left].
    + apply IH. intros H. apply Hn. now right.
Qed.

Lemma mergeVariable_NoDup (vars : VariableContents) (newVar : Var.t) :
  NoDup (names vars) -> NoDup (names (mergeVariable vars newVar)).
Proof.
  intros H. rewrite mergeVariable_names.
  destruct (existsb (String.eqb (Var.name newVar)) (names vars)) eqn:E; [exact H|].
  apply NoDup_snoc; [exact H|]. rewrite <- existsb_eqb_In. congruence.
Qed.

Lemma findVar_bound (n : string) (vars : VariableContents) :
  findVar n vars <> None <-> In n (names vars).
Proof.
  unfold findVar. induction vars as [|v vars IH]; cbn [find map In]; [tauto|].
  destruct (String.eqb (Var.name v) n) eqn:E.
  - apply String.eqb_eq in E. split; [now left | discriminate].
  - apply String.eqb_neq in E. rewrite IH. tauto.
Qed.

(** X21.  What the evaluation of a clause changes.  A clause that is
    evaluated gives as its result the values of the one binding it
    resolves to; that binding takes the place of the earlier binding of
    its name or comes last when there was none; every other name keeps the
    binding it had; and names that were bound once each still are. *)
Theorem clause_rebinds_its_variable
    (relationsData : list CatalogEntry) (handleAPICall : string -> ApiData)
    (RegExp : Type) (RegExp_new : string -> Except RegExp)
    (RegExp_test : RegExp -> string -> bool)
    (completion : CompletionOrder)
    (q : SimpleQuery) (existing : VariableContents) (outcome : QueryOutcome) :
  evaluateQuery relationsData handleAPICall RegExp_new RegExp_test completion (Simple q) existing
  = Return outcome ->
  exists newVar,
    evaluateSimpleQuery relationsData handleAPICall RegExp_new RegExp_test completion q existing
    = Return [newVar]
    /\ result outcome = Var.value newVar
    /\ variables outcome = mergeVariable existing newVar
    /\ findVar (Var.name newVar) (variables outcome) = Some newVar
    /\ (forall n, n <> Var.name newVar ->
                  findVar n (variables outcome) = findVar n existing)
    /\ (NoDup (names existing) -> NoDup (names (variables outcome))).
Proof.
  cbn [evaluateQuery].
  destruct (evaluateSimpleQuery relationsData handleAPICall RegExp_new RegExp_test completion
              q existing) as [vars|m] eqn:E; cbn [bindE]; [|discriminate].
  destruct (ClauseFacts.evaluateSimpleQuery_single _ _ _ _ _ _ _ _ _ E)
    as (newVar & ->).
  intros H. injection H as <-. eexists. split; [reflexivity|].
  cbn [result variables fold_left Var.value].
  repeat split.
  - apply mergeVariable_same.
  - intros n Hn. now apply mergeVariable_other.
  - apply mergeVariable_NoDup.
Qed.

(** The theorem at [$x r_isa animal] evaluated in the bindings of the
    lion, the rose and the cat, in the example world. *)
Lemma clause_rebinds_its_variable_witness :
  exists newVar,
    evaluateSimpleQuery Example.catalog Example.graph
      Example.RegExp_new Example.RegExp_test Example.inOrder
      (Example.clause VARIABLE "$x" 0 "r_isa" 3 ENTITY "animal" 9) Example.lionRoseCat
    = Return [newVar]
    /\ strings ["lion"] = Var.value newVar.
Proof.
  destruct (clause_rebinds_its_variable
              Example.catalog Example.graph Example.RegExp
              Example.RegExp_new Example.RegExp_test Example.inOrder
              (Example.clause VARIABLE "$x" 0 "r_isa" 3 ENTITY "animal" 9)
              Example.lionRoseCat
              (mkOutcome (strings ["lion"]) [Var.mk "$x" (strings ["lion"])])
              eq_refl)
    as (newVar & Heval & Hresult & _).
  exists newVar. split; [exact Heval | exact Hresult].
Defined.

(** *** The names of the bindings stay distinct *)

Lemma intersectVariable_names (rightVariables : VariableContents) (leftVar : Var.t) :
  names (intersectVariable rightVariables leftVar) = []
  \/ names (intersectVariable rightVariables leftVar) = [Var.name leftVar].
Proof.
  unfold intersectVariable.
  destruct (findVar (Var.name leftVar) rightVariables); cbv zeta;
    [destruct (Nat.ltb 0 _)|]; cbn; auto.
Qed.

Lemma shared_names (rightVariables leftVariables : VariableContents) (n : string) :
  In n (names (flat_map (intersectVariable rightVariables) leftVariables)) ->
  In n (names leftVariables).
Proof.
  induction leftVariables as [|v vars IH]; cbn [flat_map map]; [auto|].
  rewrite map_app, in_app_iff. intros [H|H].
  - destruct (intersectVariable_names rightVariables v) as [E|E];
      rewrite E in H; [destruct H|]. destruct H as [<-|[]]. now left.
  - right. now apply IH.
Qed.

Lemma shared_NoDup (rightVariables leftVariables : VariableContents) :
  NoDup (names leftVariables) ->
  NoDup (names (flat_map (intersectVariable rightVariables) leftVariables)).
Proof.
  induction leftVariables as [|v vars IH]; cbn [flat_map map]; intros H;
    [constructor|].
  inversion H as [|? ? Hv Hvars]. subst. rewrite map_app.
  apply NoDup_app.
  - destruct (intersectVariable_names rightVariables v) as [E|E]; rewrite E;
      [constructor | constructor; [intros [] | constructor]].
  - now apply IH.
  - intros n Hn Hn'. apply shared_names in Hn'.
    destruct (intersectVariable_names rightVariables v) as [E|E];
      rewrite E in Hn; [destruct Hn|]. destruct Hn as [<-|[]]. contradiction.
Qed.

Lemma names_filter_NoDup (f : Var.t -> bool) (vars : VariableContents) :
  NoDup (names vars) -> NoDup (names (filter f vars)).
Proof.
  induction vars as [|v vars IH]; cbn [filter map]; intros H; [constructor|].
  inversion H as [|? ? Hv Hvars]. subst.
  destruct (f v); cbn [map]; [|now apply IH].
  constructor; [|now apply IH].
  intros Hin. apply Hv. apply in_map_iff in Hin as (u & <- & Hu).
  apply filter_In in Hu as [Hu _]. now apply in_map.
Qed.

Lemma combineAND_NoDup (leftResult rightResult : QueryOutcome)
    (combinedVariables : VariableContents) :
  NoDup (names (variables leftResult)) ->
  NoDup (names (variables rightResult)) ->
  combineAND leftResult rightResult = Carry combinedVariables ->
  NoDup (names combinedVariables).
Proof.
  intros Hl Hr. unfold combineAND.
  destruct (isEmpty (variables leftResult) || isEmpty (variables rightResult));
    [discriminate|].
  cbv zeta. destruct (existsb _ _); [discriminate|].
  intros H. injection H as <-. rewrite map_app. apply NoDup_app.
  - now apply shared_NoDup.
  - now apply names_filter_NoDup.
  - intros n Hn Hn'. apply shared_names in Hn.
    apply in_map_iff in Hn' as (u & <- & Hu). apply filter_In in Hu as [_ Hu].
    apply negb_true_iff in Hu. rewrite <- not_true_iff_false in Hu. apply Hu.
    apply in_map_iff in Hn as (w & Hw & Hin).
    apply existsb_exists. exists w. split; [exact Hin | now apply String.eqb_eq].
Qed.

Lemma unionVariable_names (combinedVariables : VariableContents) (rightVar : Var.t) :
  names (unionVariable combinedVariables rightVar)
  = if existsb (String.eqb (Var.name rightVar)) (names combinedVariables)
    then names combinedVariables
    else names combinedVariables ++ [Var.name rightVar].
Proof.
  induction combinedVariables as [|v vars IH];
    cbn [unionVariable map existsb app]; [reflexivity|].
  rewrite (String.eqb_sym (Var.name rightVar)).
  destruct (String.eqb (Var.name v) (Var.name rightVar)) eqn:E; cbn [map orb Var.name].
  - reflexivity.
  - rewrite IH. now destruct (existsb _ _).
Qed.

Lemma fold_unionVariable_NoDup (rightVariables combinedVariables : VariableContents) :
  NoDup (names combinedVariables) ->
  NoDup (names (fold_left unionVariable rightVariables combinedVariables)).
Proof.
  revert combinedVariables.
  induction rightVariables as [|v vars IH]; intros combinedVariables H;
    cbn [fold_left]; [exact H|].
  apply IH. rewrite unionVariable_names.
  destruct (existsb (String.eqb (Var.name v)) (names combinedVariables)) eqn:E;
    [exact H|].
  apply NoDup_snoc; [exact H|]. rewrite <- existsb_eqb_In. congruence.
Qed.

(** The projection changes values, never names. *)
Lemma overwrite_names (vars : VariableContents) (n : jsstring) (values : list jsstring) :
  names (overwrite vars n values) = names vars.
Proof.
  induction vars as [|v vars IH]; cbn [overwrite map]; [reflexivity|].
  destruct (jsstring_eqb (Some (Var.name v)) n); cbn [map Var.name]; now rewrite ?IH.
Qed.

Lemma projectPair_names (vars vars' : VariableContents) (pairVar : Var.t) :
  projectPair vars pairVar = Return vars' -> names vars' = names vars.
Proof.
  unfold projectPair.
  destruct (Tuples.splitPairs (Var.value pairVar)); cbn [bindE]; [|discriminate].
  intros H. injection H as <-. now rewrite !overwrite_names.
Qed.

Lemma projectFrom_names (indices : list nat) :
  forall (vars vars' : VariableContents),
    projectFrom indices vars = Return vars' -> names vars' = names vars.
Proof.
  induction indices as [|i indices IH]; intros vars vars'; cbn [projectFrom].
  - intros H. now injection H as <-.
  - destruct (nth_error vars i) as [pairVar|]; [|apply IH].
    destruct (JS.includes (Var.name pairVar) "_pairs"); [|apply IH].
    destruct (projectPair vars pairVar) as [vars1|m] eqn:E; cbn [bindE]; [|discriminate].
    intros H. apply IH in H. apply projectPair_names in E. congruence.
Qed.

Lemma combineResults_NoDup (operator : Operator) (leftResult rightResult outcome : QueryOutcome) :
  NoDup (names (variables leftResult)) ->
  NoDup (names (variables rightResult)) ->
  combineResults operator leftResult rightResult = Return outcome ->
  NoDup (names (variables outcome)).
Proof.
  intros Hl Hr. unfold combineResults.
  assert (Hcarry : forall combinedVariables,
            NoDup (names combinedVariables) ->
            bindE (Tuples.generateTuples combinedVariables) (fun tuples =>
              bindE (project combinedVariables) (fun filteredVariables =>
                Return (mkOutcome
                          (map (fun tuple => Some (JS.join (Obj.values tuple) ",")) tuples)
                          filteredVariables)))
            = Return outcome ->
            NoDup (names (variables outcome))).
  { intros c Hc.
    destruct (Tuples.generateTuples c); cbn [bindE]; [|discriminate].
    destruct (project c) as [filtered|m] eqn:E; cbn [bindE]; [|discriminate].
    intros H. injection H as <-. cbn [variables].
    apply projectFrom_names in E. now rewrite E. }
  destruct operator.
  - destruct (combineAND leftResult rightResult) as [o|c] eqn:E.
    + unfold combineAND in E.
      destruct (isEmpty (variables leftResult) || isEmpty (variables rightResult)).
      * injection E as <-. intros H. injection H as <-. constructor.
      * cbv zeta in E. destruct (existsb _ _); [|discriminate].
        injection E as <-. intros H. injection H as <-. constructor.
    + apply Hcarry. now apply (combineAND_NoDup leftResult rightResult).
  - unfold combineOR. destruct (isEmpty (variables leftResult)).
    + intros H. now injection H as <-.
    + destruct (isEmpty (variables rightResult)).
      * intros H. now injection H as <-.
      * apply Hcarry. now apply fold_unionVariable_NoDup.
Qed.

(** X22.  No name is ever bound twice.  Evaluated from bindings whose
    names are distinct (from none, as [executeQuery] does), a query
    returns bindings whose names are distinct: a clause replaces the
    binding of its name, [AND] and [OR] keep one binding for each name of
    either side, and the projection on the pairs changes no name. *)
Theorem evaluateQuery_keeps_names_distinct
    (relationsData : list CatalogEntry) (handleAPICall : string -> ApiData)
    (RegExp : Type) (RegExp_new : string -> Except RegExp)
    (RegExp_test : RegExp -> string -> bool)
    (completion : CompletionOrder) (query : ASTNode) :
  forall (existing : VariableContents) (outcome : QueryOutcome),
    NoDup (names existing) ->
    evaluateQuery relationsData handleAPICall RegExp_new RegExp_test completion query existing
    = Return outcome ->
    NoDup (names (variables outcome)).
Proof.
  induction query as [q|l IHl operator r IHr]; intros existing outcome Hexisting.
  - cbn [evaluateQuery].
    destruct (evaluateSimpleQuery relationsData handleAPICall RegExp_new RegExp_test completion
                q existing) as [vars|m]; cbn [bindE]; [|discriminate].
    intros H. injection H as <-. cbn [variables].
    revert existing Hexisting. induction vars as [|v vars IH]; intros existing H;
      cbn [fold_left]; [exact H|].
    apply IH. now apply mergeVariable_NoDup.
  - cbn [evaluateQuery].
    destruct (evaluateQuery relationsData handleAPICall RegExp_new RegExp_test completion
                l existing) as [leftResult|m] eqn:El; cbn [bindE]; [|discriminate].
    destruct (evaluateQuery relationsData handleAPICall RegExp_new RegExp_test completion
                r (variables leftResult)) as [rightResult|m] eqn:Er; cbn [bindE];
      [|discriminate].
    apply combineResults_NoDup.
    + exact (IHl _ _ Hexisting El).
    + exact (IHr _ _ (IHl _ _ Hexisting El) Er).
Qed.

(** The theorem at [$x r_isa animal AND $x r_isa mammal], evaluated from
    no bindings in the example world. *)
Lemma evaluateQuery_keeps_names_distinct_witness :
  NoDup (names (variables (mkOutcome (strings [EmptyString])
                             [Var.mk "$x" (strings ["lion"])]))).
Proof.
  apply (evaluateQuery_keeps_names_distinct
           Example.catalog Example.graph Example.RegExp
           Example.RegExp_new Example.RegExp_test Example.inOrder
           (CompoundQuery
              (Simple (Example.clause VARIABLE "$x" 0 "r_isa" 3 ENTITY "animal" 9))
              op_AND
              (Simple (Example.clause VARIABLE "$x" 20 "r_isa" 23 ENTITY "mammal" 29)))
           []).
  - constructor.
  - reflexivity.
Defined.

(** *** What [AND] keeps *)

(** The binding of a name on the left side decides what the first loop
    of [AND] pushes under that name. *)
Lemma shared_lookup (rightVariables leftVariables : VariableContents) (n : string) :
  NoDup (names leftVariables) ->
  findVar n (flat_map (intersectVariable rightVariables) leftVariables)
  = match findVar n leftVariables with
    | Some leftVar => findVar n (intersectVariable rightVariables leftVar)
    | None => None
    end.
Proof.
  induction leftVariables as [|v vars IH]; intros Hnodup; [reflexivity|].
  inversion Hnodup as [|? ? Hv Hvars]. subst.
  cbn [flat_map]. rewrite findVar_app. unfold findVar at 3. cbn [find].
  destruct (String.eqb (Var.name v) n) eqn:E.
  - destruct (findVar n (intersectVariable rightVariables v)) eqn:F; [reflexivity|].
    apply findVar_none. intros u Hu. apply in_flat_map in Hu as (w & Hw & Hu).
    apply intersectVariable_name in Hu. apply String.eqb_neq. intros Heq.
    apply String.eqb_eq in E. apply Hv. rewrite E, <- Heq, Hu. now apply in_map.
  - fold (findVar n vars). rewrite <- (IH Hvars).
    assert (Hchunk : findVar n (intersectVariable rightVariables v) = None).
    { apply findVar_none. intros u Hu.
      rewrite (intersectVariable_name _ _ _ Hu). exact E. }
    now rewrite Hchunk.
Qed.

Lemma rightOnly_lookup (leftVariables rightVariables : VariableContents) (n : string) :
  findVar n
    (filter (fun rightVar =>
       negb (existsb (fun v => String.eqb (Var.name v) (Var.name rightVar))
               leftVariables))
       rightVariables)
  = match findVar n leftVariables with
    | Some _ => None
    | None => findVar n rightVariables
    end.
Proof.
  assert (Hbound : forall m,
            existsb (fun v => String.eqb (Var.name v) m) leftVariables
            = match findVar m leftVariables with Some _ => true | None => false end).
  { intros m. unfold findVar.
    induction leftVariables as [|v vars IH]; cbn [existsb find]; [reflexivity|].
    now destruct (String.eqb (Var.name v) m). }
  unfold findVar at 1 3.
  induction rightVariables as [|u vars IH]; cbn [filter find].
  - now destruct (findVar n leftVariables).
  - rewrite Hbound. destruct (String.eqb (Var.name u) n) eqn:E.
    + apply String.eqb_eq in E. rewrite E.
      destruct (findVar n leftVariables) eqn:F; cbn [negb find].
      * rewrite IH. reflexivity.
      * now rewrite <- E, String.eqb_refl.
    + destruct (findVar (Var.name u) leftVariables); cbn [negb find];
        [|rewrite E]; exact IH.
Qed.

(** The first binding of each name of what [AND] carries on with. *)
Lemma combineAND_lookup (leftResult rightResult : QueryOutcome)
    (combinedVariables : VariableContents) (n : string) :
  NoDup (names (variables leftResult)) ->
  combineAND leftResult rightResult = Carry combinedVariables ->
  findVar n combinedVariables
  = match findVar n (variables leftResult), findVar n (variables rightResult) with
    | Some leftVar, Some rightVar =>
        match filter (fun value => includes (Var.value rightVar) value)
                (Var.value leftVar) with
        | [] => None
        | intersection => Some (Var.mk n intersection)
        end
    | Some leftVar, None => Some leftVar
    | None, found => found
    end.
Proof.
  intros Hnodup. unfold combineAND.
  destruct (isEmpty (variables leftResult) || isEmpty (variables rightResult));
    [discriminate|].
  cbv zeta. destruct (existsb _ _); [discriminate|].
  intros H. injection H as <-.
  rewrite findVar_app, (shared_lookup _ _ n Hnodup), rightOnly_lookup.
  destruct (findVar n (variables leftResult)) as [leftVar|] eqn:El; [|reflexivity].
  pose proof (ClauseFacts.findVar_name _ _ _ El) as Hname.
  unfold intersectVariable. rewrite Hname.
  destruct (findVar n (variables rightResult)) as [rightVar|]; cbv zeta.
  - destruct (filter _ (Var.value leftVar)) as [|x xs];
      cbn [List.length Nat.ltb Nat.leb]; [reflexivity|].
    unfold findVar. cbn [find Var.name]. now rewrite String.eqb_refl.
  - unfold findVar at 1. cbn [find]. rewrite <- Hname at 1.
    now rewrite Hname, String.eqb_refl.
Qed.

(** X23.  [AND] intersects.  When [AND] goes on with combined bindings, a
    value is held under a name exactly when some side binds the name and
    every side that binds it holds the value; and no combined binding is
    without values.  The names of the left side are taken to be bound
    once each, as they are in every evaluation that starts from such
    bindings. *)
Theorem combineAND_intersects (leftResult rightResult : QueryOutcome)
    (combinedVariables : VariableContents) :
  NoDup (names (variables leftResult)) ->
  combineAND leftResult rightResult = Carry combinedVariables ->
  (forall n x,
      holds combinedVariables n x <->
      (In n (names (variables leftResult)) \/ In n (names (variables rightResult)))
      /\ (forall leftVar,
            findVar n (variables leftResult) = Some leftVar ->
            In x (Var.value leftVar))
      /\ (forall rightVar,
            findVar n (variables rightResult) = Some rightVar ->
            In x (Var.value rightVar)))
  /\ Forall (fun v => Var.value v <> []) combinedVariables.
Proof.
  intros Hnodup Hcarry. split.
  - intros n x. unfold holds.
    rewrite (combineAND_lookup _ _ _ n Hnodup Hcarry).
    rewrite <- !findVar_bound.
    destruct (findVar n (variables leftResult)) as [leftVar|],
             (findVar n (variables rightResult)) as [rightVar|].
    + assert (Hin : In x (filter (fun value => includes (Var.value rightVar) value)
                            (Var.value leftVar))
                    <-> In x (Var.value leftVar) /\ In x (Var.value rightVar)).
      { rewrite filter_In, ResolverFacts.includes_In. tauto. }
      destruct (filter _ (Var.value leftVar)) as [|y ys].
      * split; [intros (v & Hv & _); discriminate|].
        intros (_ & Hl & Hr). exfalso. apply (proj2 Hin). split; auto.
      * split.
        -- intros (v & Hv & Hx). injection Hv as <-. cbn [Var.value] in Hx.
           apply Hin in Hx as [Hl Hr].
           split; [left; discriminate|].
           split; intros ? H; injection H as <-; assumption.
        -- intros (_ & Hl & Hr). eexists. split; [reflexivity|].
           cbn [Var.value]. apply Hin. split; auto.
    + split.
      * intros (v & Hv & Hx). injection Hv as <-.
        split; [left; discriminate|].
        split; [intros ? H; now injection H as <- | intros ? H; discriminate].
      * intros (_ & Hl & _). exists leftVar. split; [reflexivity | now apply Hl].
    + split.
      * intros (v & Hv & Hx). injection Hv as <-.
        split; [right; discriminate|].
        split; [intros ? H; discriminate | intros ? H; now injection H as <-].
      * intros (_ & _ & Hr). exists rightVar. split; [reflexivity | now apply Hr].
    + split.
      * intros (v & Hv & _). discriminate.
      * intros ([H|H] & _); now contradiction H.
  - revert Hcarry. unfold combineAND.
    destruct (isEmpty (variables leftResult) || isEmpty (variables rightResult));
      [discriminate|].
    cbv zeta. destruct (existsb _ _) eqn:E; [discriminate|].
    intros H. injection H as <-. apply Forall_forall. intros v Hv Hempty.
    rewrite <- not_true_iff_false in E. apply E. apply existsb_exists.
    exists v. split; [exact Hv|]. now rewrite Hempty.
Qed.

(** The theorem at the lion and the oak on the left and the lion and the
    cat on the right: the lion is what both sides hold for [$x]. *)
Lemma combineAND_intersects_witness :
  holds [Var.mk "$x" (strings ["lion"]); Var.mk "$y" (strings ["oak"])]
    "$x" (Some "lion").
Proof.
  apply (proj1 (combineAND_intersects Example.lionsAndOaks
                  (mkOutcome (strings ["lion"; "cat"])
                     [Var.mk "$x" (strings ["lion"; "cat"])])
                  [Var.mk "$x" (strings ["lion"]); Var.mk "$y" (strings ["oak"])]
                  ltac:(repeat constructor; cbn; intuition discriminate)
                  eq_refl) "$x" (Some "lion")).
  split; [left; now left|].
  split; intros v H; injection H as <-; now left.
Defined.

(** *** Rows come from pair bindings only *)

Lemma intersectVariable_plain (rightVariables : VariableContents) (leftVar : Var.t) :
  JS.includes (Var.name leftVar) "_pairs" = false ->
  plain (intersectVariable rightVariables leftVar).
Proof.
  intros H. unfold intersectVariable, plain.
  destruct (findVar (Var.name leftVar) rightVariables); cbv zeta;
    [destruct (Nat.ltb 0 _)|]; repeat constructor; exact H.
Qed.

Lemma combineAND_plain (leftResult rightResult : QueryOutcome)
    (combinedVariables : VariableContents) :
  plain (variables leftResult) -> plain (variables rightResult) ->
  combineAND leftResult rightResult = Carry combinedVariables ->
  plain combinedVariables.
Proof.
  intros Hl Hr. unfold combineAND.
  destruct (isEmpty (variables leftResult) || isEmpty (variables rightResult));
    [discriminate|].
  cbv zeta. destruct (existsb _ _); [discriminate|].
  intros H. injection H as <-. unfold plain in *. apply Forall_app. split.
  - apply Forall_flat_map. eapply Forall_impl; [|exact Hl].
    intros v Hv. now apply intersectVariable_plain.
  - apply Forall_forall. intros v Hv. apply filter_In in Hv as [Hv _].
    now apply (proj1 (Forall_forall _ _) Hr).
Qed.

(** X24.  Rows come from pair bindings only.  When neither side of a
    compound node holds a pair binding (every clause below it has one
    variable) and the operator goes on with combined bindings, the result
    of the node is the single row made of the empty string, whatever the
    values of the variables are, and the bindings are the combined ones,
    untouched by the projection. *)
Theorem plain_bindings_give_one_empty_row (operator : Operator)
    (leftResult rightResult : QueryOutcome) (combinedVariables : VariableContents) :
  plain (variables leftResult) -> plain (variables rightResult) ->
  match operator with
  | op_AND => combineAND leftResult rightResult
  | op_OR => combineOR leftResult rightResult
  end = Carry combinedVariables ->
  combineResults operator leftResult rightResult
  = Return (mkOutcome [Some EmptyString] combinedVariables).
Proof.
  intros Hl Hr Hcarry.
  assert (Hplain : plain combinedVariables).
  { destruct operator.
    - now apply (combineAND_plain leftResult rightResult).
    - unfold combineOR in Hcarry.
      destruct (isEmpty (variables leftResult)); [discriminate|].
      destruct (isEmpty (variables rightResult)); [discriminate|].
      injection Hcarry as <-. now apply fold_unionVariable_plain. }
  unfold combineResults. rewrite Hcarry.
  rewrite (generateTuples_plain _ Hplain). cbn [bindE map].
  unfold project. now rewrite (projectFrom_plain _ _ Hplain).
Qed.

(** The theorem at the [AND] of the lion and the oak with the lion and
    the cat. *)
Lemma plain_bindings_give_one_empty_row_witness :
  combineResults op_AND Example.lionsAndOaks
    (mkOutcome (strings ["lion"; "cat"]) [Var.mk "$x" (strings ["lion"; "cat"])])
  = Return (mkOutcome [Some EmptyString]
              [Var.mk "$x" (strings ["lion"]); Var.mk "$y" (strings ["oak"])]).
Proof.
  apply (plain_bindings_give_one_empty_row op_AND Example.lionsAndOaks
           (mkOutcome (strings ["lion"; "cat"]) [Var.mk "$x" (strings ["lion"; "cat"])])
           [Var.mk "$x" (strings ["lion"]); Var.mk "$y" (strings ["oak"])]).
  - repeat constructor.
  - repeat constructor.
  - reflexivity.
Defined.

End EvaluatorFacts.

(** ** The cache of the graph service *)

Module CacheFacts.

Local Abbreviation get := (JSMap.get String.eqb).
Local Abbreviation set := (JSMap.set String.eqb).

Lemma get_set_same (apiCache : Cache.t) (k : string) (e : Cache.entry) :
  get (set apiCache k e) k = Some e.
Proof.
  unfold JSMap.get. induction apiCache as [|[k' e'] m IH]; cbn [JSMap.set find fst].
  - now rewrite String.eqb_refl.
  - destruct (String.eqb k' k) eqn:E; cbn [find fst].
    + now rewrite String.eqb_refl.
    + now rewrite E.
Qed.

Lemma get_set_other (apiCache : Cache.t) (k k' : string) (e : Cache.entry) :
  k' <> k -> get (set apiCache k e) k' = get apiCache k'.
Proof.
  intros Hk. assert (Hnew : String.eqb k k' = false)
    by (apply String.eqb_neq; congruence).
  unfold JSMap.get. induction apiCache as [|[k0 e0] m IH]; cbn [JSMap.set find fst].
  - now rewrite Hnew.
  - destruct (String.eqb k0 k) eqn:E; cbn [find fst].
    + rewrite Hnew. apply String.eqb_eq in E. now rewrite E, Hnew.
    + destruct (String.eqb k0 k'); [reflexivity | exact IH].
Qed.

Lemma get_delete_same (apiCache : Cache.t) (k : string) :
  get (Cache.delete apiCache k) k = None.
Proof.
  unfold JSMap.get, Cache.delete.
  induction apiCache as [|[k' e'] m IH]; cbn [filter find fst]; [reflexivity|].
  destruct (String.eqb k' k) eqn:E; cbn [negb find fst]; [exact IH|].
  now rewrite E.
Qed.

Lemma get_delete_other (apiCache : Cache.t) (k k' : string) :
  k' <> k -> get (Cache.delete apiCache k) k' = get apiCache k'.
Proof.
  intros Hk. unfold JSMap.get, Cache.delete.
  induction apiCache as [|[k0 e0] m IH]; cbn [filter find fst]; [reflexivity|].
  destruct (String.eqb k0 k) eqn:E; cbn [negb find fst].
  - apply String.eqb_eq in E. subst k0.
    replace (String.eqb k k') with false
      by (symmetry; apply String.eqb_neq; congruence).
    exact IH.
  - destruct (String.eqb k0 k'); [reflexivity | exact IH].
Qed.

(** [getFromCache] finds nothing to serve when there is no entry or when
    the entry has reached its time to live. *)
Lemma getFromCache_miss (apiCache : Cache.t) (apiUrl : string) (now : Z) :
  fst (Cache.getFromCache apiCache apiUrl now) = None ->
  Cache.getFromCache apiCache apiUrl now = (None, Cache.delete apiCache apiUrl).
Proof.
  unfold Cache.getFromCache. destruct (get apiCache apiUrl) as [cached|]; [|reflexivity].
  destruct (now - Cache.timestamp cached <? Cache.CACHE_TTL)%Z; [discriminate | reflexivity].
Qed.

Lemma getFromCache_hit (apiCache : Cache.t) (apiUrl : string) (now : Z)
    (cached : Cache.entry) :
  get apiCache apiUrl = Some cached ->
  (now - Cache.timestamp cached < Cache.CACHE_TTL)%Z ->
  Cache.getFromCache apiCache apiUrl now = (Some (Cache.result cached), apiCache).
Proof.
  intros Hget Hfresh. unfold Cache.getFromCache. rewrite Hget.
  apply Z.ltb_lt in Hfresh. now rewrite Hfresh.
Qed.

(** X25.  An answer is served again while it is fresh.  A call that
    finds an entry younger than five minutes returns its data, whatever
    the network would have answered, and leaves the cache as it is; a call
    that finds nothing to serve and gets an answer stores it, so that
    every later call for the same URL made less than five minutes after
    the answer was stored returns the same data without the network. *)
Theorem fresh_answer_is_served_again (apiCache : Cache.t) (apiUrl : string) (now : Z) :
  (forall (cached : Cache.entry) (response : Cache.Response) (storedAt : Z),
      get apiCache apiUrl = Some cached ->
      (now - Cache.timestamp cached < Cache.CACHE_TTL)%Z ->
      Cache.handleAPICall apiCache apiUrl now response storedAt
      = (Cache.result cached, apiCache))
  /\ (forall (nodes : option (list Node.t)) (relations : option (list Rel.t))
             (storedAt : Z),
        fst (Cache.getFromCache apiCache apiUrl now) = None ->
        exists apiCache1,
          Cache.handleAPICall apiCache apiUrl now (Cache.Answered nodes relations)
            storedAt
          = (mkApiData (Cache.orEmpty nodes) (Cache.orEmpty relations), apiCache1)
          /\ forall (later : Z) (response : Cache.Response) (storedAt' : Z),
               (later - storedAt < Cache.CACHE_TTL)%Z ->
               Cache.handleAPICall apiCache1 apiUrl later response storedAt'
               = (mkApiData (Cache.orEmpty nodes) (Cache.orEmpty relations),
                  apiCache1)).
Proof.
  assert (Hhit : forall (c : Cache.t) (t : Z) (cached : Cache.entry)
                        (response : Cache.Response) (storedAt : Z),
            get c apiUrl = Some cached ->
            (t - Cache.timestamp cached < Cache.CACHE_TTL)%Z ->
            Cache.handleAPICall c apiUrl t response storedAt
            = (Cache.result cached, c)).
  { intros c t cached response storedAt Hget Hfresh. unfold Cache.handleAPICall.
    now rewrite (getFromCache_hit _ _ _ _ Hget Hfresh). }
  split.
  - intros cached response storedAt. apply Hhit.
  - intros nodes relations storedAt Hmiss.
    unfold Cache.handleAPICall at 1. rewrite (getFromCache_miss _ _ _ Hmiss).
    eexists. split; [reflexivity|].
    intros later response storedAt' Hfresh.
    apply (Hhit _ later
             (Cache.mkEntry (mkApiData (Cache.orEmpty nodes) (Cache.orEmpty relations))
                storedAt)).
    + apply get_set_same.
    + exact Hfresh.
Qed.

(** The theorem at an empty cache: the answer stored at time 1000 is
    served at time 2000 although the network fails. *)
Lemma fresh_answer_is_served_again_witness :
  exists apiCache1,
    Cache.handleAPICall [] "u" 0 (Cache.Answered (Some [Example.lexical 1 "lion"]) None)
      1000
    = (mkApiData [Example.lexical 1 "lion"] [], apiCache1)
    /\ Cache.handleAPICall apiCache1 "u" 2000 Cache.Failed 2000
       = (mkApiData [Example.lexical 1 "lion"] [], apiCache1).
Proof.
  destruct (proj2 (fresh_answer_is_served_again [] "u" 0)
              (Some [Example.lexical 1 "lion"]) None 1000%Z eq_refl)
    as (apiCache1 & Hfirst & Hlater).
  exists apiCache1. split; [exact Hfirst|].
  apply Hlater. reflexivity.
Defined.

(** X26.  Nothing stale and no failure is ever served or kept.  A call
    that finds no entry, or an entry that has reached five minutes, goes
    to the network; when the network fails it returns empty data and
    leaves no entry for the URL, the stale one included, so that the next
    call goes to the network again. *)
Theorem failure_is_not_cached (apiCache : Cache.t) (apiUrl : string) (now : Z) :
  (forall (cached : Cache.entry),
      get apiCache apiUrl = Some cached ->
      (Cache.CACHE_TTL <= now - Cache.timestamp cached)%Z ->
      fst (Cache.getFromCache apiCache apiUrl now) = None)
  /\ (get apiCache apiUrl = None ->
      fst (Cache.getFromCache apiCache apiUrl now) = None)
  /\ (forall (storedAt : Z),
        fst (Cache.getFromCache apiCache apiUrl now) = None ->
        exists apiCache1,
          Cache.handleAPICall apiCache apiUrl now Cache.Failed storedAt
          = (mkApiData [] [], apiCache1)
          /\ get apiCache1 apiUrl = None
          /\ forall (later : Z) (nodes : option (list Node.t))
                    (relations : option (list Rel.t)) (storedAt' : Z),
               fst (Cache.handleAPICall apiCache1 apiUrl later
                      (Cache.Answered nodes relations) storedAt')
               = mkApiData (Cache.orEmpty nodes) (Cache.orEmpty relations)).
Proof.
  split; [|split].
  - intros cached Hget Hstale. unfold Cache.getFromCache. rewrite Hget.
    apply Z.ltb_ge in Hstale. now rewrite Hstale.
  - intros Hget. unfold Cache.getFromCache. now rewrite Hget.
  - intros storedAt Hmiss. unfold Cache.handleAPICall at 1.
    rewrite (getFromCache_miss _ _ _ Hmiss). eexists. split; [reflexivity|].
    split; [apply get_delete_same|].
    intros later nodes relations storedAt'.
    unfold Cache.handleAPICall, Cache.getFromCache.
    now rewrite get_delete_same.
Qed.

(** The theorem at an entry stored at time 0 and asked for after five
    minutes and one second, when the network fails. *)
Lemma failure_is_not_cached_witness :
  exists apiCache1,
    Cache.handleAPICall
      [("u", Cache.mkEntry (mkApiData [Example.lexical 1 "lion"] []) 0)]
      "u" 301000 Cache.Failed 301000
    = (mkApiData [] [], apiCache1)
    /\ get apiCache1 "u" = None.
Proof.
  destruct (proj2 (proj2 (failure_is_not_cached
              [("u", Cache.mkEntry (mkApiData [Example.lexical 1 "lion"] []) 0)]
              "u" 301000)) 301000%Z eq_refl)
    as (apiCache1 & Hcall & Hget & _).
  exists apiCache1. split; [exact Hcall | exact Hget].
Defined.

(** X27.  A call touches the entry of its own URL only: whatever it finds
    and whatever the network answers, the entry the cache has for any
    other URL is the same before and after. *)
Theorem other_urls_untouched (apiCache : Cache.t) (apiUrl other : string) (now : Z)
    (response : Cache.Response) (storedAt : Z) :
  other <> apiUrl ->
  get (snd (Cache.handleAPICall apiCache apiUrl now response storedAt)) other
  = get apiCache other.
Proof.
  intros Hother. unfold Cache.handleAPICall, Cache.getFromCache.
  destruct (get apiCache apiUrl) as [cached|].
  - destruct (now - Cache.timestamp cached <? Cache.CACHE_TTL)%Z; [reflexivity|].
    destruct response; cbn [snd].
    + now apply get_delete_other.
    + rewrite get_set_other by assumption. now apply get_delete_other.
  - destruct response; cbn [snd].
    + now apply get_delete_other.
    + rewrite get_set_other by assumption. now apply get_delete_other.
Qed.

Lemma other_urls_untouched_witness :
  get (snd (Cache.handleAPICall
              [("v", Cache.mkEntry (mkApiData [] []) 0)] "u" 10
              (Cache.Answered None None) 10)) "v"
  = get [("v", Cache.mkEntry (mkApiData [] []) 0)] "v".
Proof.
  apply (other_urls_untouched [("v", Cache.mkEntry (mkApiData [] []) 0)] "u" "v"
           10 (Cache.Answered None None) 10).
  discriminate.
Defined.

End CacheFacts.

(** ** The endpoint *)

Module EndpointFacts.

(** X28.  What the endpoint answers.  A query that does not parse, or
    whose evaluation fails, is answered with the message of the error, no
    bindings and an empty object for the result; a query that parses and
    evaluates is answered without an error, with the text of its tree, its
    bindings and its rows.  The query is echoed in both cases, and a
    request without the parameter is answered as the empty query is. *)
Theorem GET_answers
    (relationsData : list CatalogEntry) (handleAPICall : string -> ApiData)
    (RegExp : Type) (RegExp_new : string -> Except RegExp)
    (RegExp_test : RegExp -> string -> bool)
    (completion : CompletionOrder) (query : string) :
  (forall msg,
      parseQuery query = Throw msg ->
      GET relationsData handleAPICall RegExp_new RegExp_test completion (Some query)
      = mkPayload (Some msg) None [] EmptyObject query)
  /\ (forall ast msg,
        parseQuery query = Return ast ->
        executeQuery relationsData handleAPICall RegExp_new RegExp_test completion ast
        = Throw msg ->
        GET relationsData handleAPICall RegExp_new RegExp_test completion (Some query)
        = mkPayload (Some msg) None [] EmptyObject query)
  /\ (forall ast outcome,
        parseQuery query = Return ast ->
        executeQuery relationsData handleAPICall RegExp_new RegExp_test completion ast
        = Return outcome ->
        GET relationsData handleAPICall RegExp_new RegExp_test completion (Some query)
        = mkPayload None (Some (astToString ast)) (variables outcome)
            (Rows (result outcome)) query)
  /\ GET relationsData handleAPICall RegExp_new RegExp_test completion None
     = mkPayload (Some "Expected variable or entity as subject") None []
         EmptyObject EmptyString.
Proof.
  repeat split.
  - intros msg H. unfold GET. now rewrite H.
  - intros ast msg H1 H2. unfold GET. rewrite H1. cbn [bindE]. now rewrite H2.
  - intros ast outcome H1 H2. unfold GET. rewrite H1. cbn [bindE]. now rewrite H2.
Qed.

(** The theorem at [$x r_isa animal] in the example world. *)
Lemma GET_answers_witness :
  GET Example.catalog Example.graph Example.RegExp_new Example.RegExp_test Example.inOrder
    (Some "$x r_isa animal")
  = mkPayload None (Some "$x r_isa animal") [Var.mk "$x" (strings ["lion"])]
      (Rows (strings ["lion"])) "$x r_isa animal".
Proof.
  apply (proj1 (proj2 (proj2 (GET_answers Example.catalog Example.graph Example.RegExp
                  Example.RegExp_new Example.RegExp_test Example.inOrder "$x r_isa animal")))
           (Simple (Example.clause VARIABLE "$x" 0 "r_isa" 3 ENTITY "animal" 9))
           (mkOutcome (strings ["lion"]) [Var.mk "$x" (strings ["lion"])]));
    reflexivity.
Defined.

End EndpointFacts.

(** ** The rows of a pair binding *)

Module RowsFacts.
Import Tuples.

(** *** Splitting at a separator *)

Lemma mem_char_append (c : ascii) (a b : string) :
  Lexer.mem_char c (a ++ b) = Lexer.mem_char c a || Lexer.mem_char c b.
Proof.
  induction a as [|d a IH]; cbn [append Lexer.mem_char]; [reflexivity|].
  now rewrite IH, orb_assoc.
Qed.

(** A stretch without the first character of the separator goes to the
    piece being read. *)
Lemma split_go_pass (c0 : ascii) (sep' u rest acc : string) :
  Lexer.mem_char c0 u = false ->
  JS.split_go (String c0 sep') (u ++ rest) acc 0
  = JS.split_go (String c0 sep') rest (acc ++ u) 0.
Proof.
  revert acc. induction u as [|d u IH]; intros acc H.
  - now rewrite TokenFacts.append_empty.
  - cbn [Lexer.mem_char] in H. apply orb_false_elim in H as [Hd H].
    cbn [append JS.split_go].
    rewrite TokenFacts.prefix_other_head by (now rewrite Ascii.eqb_sym).
    rewrite (IH _ H), TokenFacts.append_assoc. reflexivity.
Qed.

Lemma split_go_free (c0 : ascii) (sep' s acc : string) :
  Lexer.mem_char c0 s = false ->
  JS.split_go (String c0 sep') s acc 0 = [(acc ++ s)%string].
Proof.
  intros H. rewrite <- (TokenFacts.append_empty s) at 1.
  now rewrite split_go_pass.
Qed.

Lemma prefix_refl_append (p s : string) : String.prefix p (p ++ s) = true.
Proof.
  induction p as [|a p IH]; cbn [append]; [now destruct s|].
  simpl. destruct (Ascii.ascii_dec a a); [exact IH | congruence].
Qed.

(** Two pieces without the separating character, joined by it, come apart
    again. *)
Lemma split_two (c0 : ascii) (a b : string) :
  Lexer.mem_char c0 a = false -> Lexer.mem_char c0 b = false ->
  JS.split (a ++ String c0 b) (String c0 EmptyString) = [a; b].
Proof.
  intros Ha Hb. unfold JS.split. rewrite (split_go_pass _ _ _ _ _ Ha).
  cbn [JS.split_go append].
  change (String c0 b) with (String c0 EmptyString ++ b)%string at 1.
  rewrite (prefix_refl_append (String c0 EmptyString) b).
  cbn [String.length Nat.sub]. now rewrite split_go_free.
Qed.


(** The name [<x>_<y>_pairs] of a pair binding comes apart into [x] and
    [y] when neither has an underscore and [y] starts with the dollar
    sign. *)
Lemma split_pairs_name (x y : string) :
  Lexer.mem_char "_" x = false -> Lexer.mem_char "_" y = false ->
  JS.startsWith y "$" = true ->
  JS.split (x ++ "_" ++ y ++ "_pairs") "_pairs" = [(x ++ "_" ++ y)%string; EmptyString].
Proof.
  intros Hx Hy Hd. unfold JS.split. rewrite (split_go_pass _ _ _ _ _ Hx).
  unfold JS.startsWith in Hd. destruct y as [|d y]; [simpl in Hd; discriminate Hd|].
  destruct (Ascii.eqb d "$") eqn:E;
    [|rewrite TokenFacts.prefix_other_head in Hd by exact E; discriminate Hd].
  apply Ascii.eqb_eq in E. subst d. clear Hd.
  cbn [Lexer.mem_char] in Hy. apply orb_false_elim in Hy as [_ Hy].
  cbn [append JS.split_go].
  replace (String.prefix "_pairs" (String "_" (String "$" (y ++ "_pairs")))) with false
    by reflexivity.
  replace (String.prefix "_pairs" (String "$" (y ++ "_pairs"))) with false
    by reflexivity.
  rewrite (split_go_pass _ _ _ _ _ Hy). cbn.
  now rewrite !TokenFacts.append_assoc.
Qed.

Lemma includes_append (u v sub : string) :
  JS.includes v sub = true -> JS.includes (u ++ v) sub = true.
Proof.
  intros H. induction u as [|c u IH]; cbn [append JS.includes]; [exact H|].
  rewrite IH. apply orb_true_r.
Qed.

Lemma pairs_name_includes (x y : string) :
  JS.includes (x ++ "_" ++ y ++ "_pairs") "_pairs" = true.
Proof. do 3 apply includes_append. reflexivity. Qed.

(** The values of a pair binding come apart into their two components
    when no component has a comma. *)
Lemma splitPairs_pairs (pairs : list (string * string)) :
  Forall (fun ab => Lexer.mem_char "," (fst ab) = false
                    /\ Lexer.mem_char "," (snd ab) = false) pairs ->
  splitPairs (map (fun ab => pair_text (Some (fst ab)) (Some (snd ab))) pairs)
  = Return (map (fun ab => [fst ab; snd ab]) pairs).
Proof.
  induction 1 as [|[a b] pairs [Ha Hb] _ IH]; [reflexivity|].
  cbn [map splitPairs pair_text JS.template fst snd]. rewrite IH. cbn [bindE].
  change ("," ++ b)%string with (String ","%char b).
  now rewrite (split_two "," a b Ha Hb).
Qed.


(** *** The rows of one pair relation *)

Lemma fold_setAdd_In (i : nat) (table : list (list string)) :
  forall (acc : list jsstring) (v : jsstring),
    In v (fold_left (fun s pair => setAdd s (at_ pair i)) table acc) <->
    In v acc \/ exists pair, In pair table /\ at_ pair i = v.
Proof.
  induction table as [|pair table IH]; intros acc v; cbn [fold_left].
  - split; [auto | intros [H|(pair & [] & _)]; exact H].
  - rewrite IH. unfold setAdd.
    destruct (includes acc (at_ pair i)) eqn:E.
    + apply ResolverFacts.includes_In in E. split.
      * intros [H|(p & Hp & Hv)]; [now left | right; exists p; split; [now right | exact Hv]].
      * intros [H|(p & [<-|Hp] & Hv)]; [now left | left; now subst | right; now exists p].
    + rewrite in_app_iff. cbn [In]. split.
      * intros [[H|[H|[]]]|(p & Hp & Hv)];
          [now left | right; exists pair; split; [now left | exact H]
          | right; exists p; split; [now right | exact Hv]].
      * intros [H|(p & [<-|Hp] & Hv)];
          [left; now left | left; right; now left | right; now exists p].
Qed.

Section OnePair.

Variables x y : string.
Variable table : list (list string).
Hypothesis Hxy : String.eqb x y = false.
Hypothesis Hsplit : JS.split (x ++ "_" ++ y) "_" = [x; y].
Hypothesis Hix : Obj.arrayIndex x = None.
Hypothesis Hiy : Obj.arrayIndex y = None.

Local Abbreviation tb :=
  (mkTables [((x ++ "_" ++ y)%string, table)] [] [(Some x, [Some y])]).

Lemma eqb_swapped : String.eqb y x = false.
Proof. now rewrite String.eqb_sym. Qed.

Lemma allVariables_one : allVariables tb = [Some x; Some y].
Proof.
  unfold allVariables. cbn [fold_left pairRelations fst]. rewrite Hsplit.
  cbn [at_ nth_error]. unfold setAdd. cbn [includes existsb app jsstring_eqb].
  now rewrite eqb_swapped.
Qed.

Lemma chain_one : chain tb = [Some x; Some y].
Proof.
  unfold chain. rewrite allVariables_one. cbn [List.length buildChains].
  unfold findConnections. rewrite allVariables_one.
  cbn [flat_map includes existsb app last relationGraph fst snd
       jsstring_eqb filter negb orb andb].
  unfold JSMap.get. cbn [find fst snd option_map jsstring_eqb].
  rewrite !String.eqb_refl, Hxy.
  cbn [option_map snd filter includes existsb jsstring_eqb negb orb andb app flat_map].
  cbn [jsstring_eqb]. rewrite ?eqb_swapped, ?Hxy.
  cbn [negb orb andb app flat_map filter jsstring_eqb]. rewrite ?eqb_swapped.
  reflexivity.
Qed.

Lemma potentialValues_left :
  potentialValues tb (Some x)
  = fold_left (fun s pair => setAdd s (at_ pair 0)) table [].
Proof.
  unfold potentialValues. cbn [variableValues pairRelations fold_left fst snd].
  unfold JSMap.get at 1. cbn [find option_map].
  rewrite Hsplit. cbn [at_ nth_error jsstring_eqb]. now rewrite String.eqb_refl.
Qed.

Lemma potentialValues_right :
  potentialValues tb (Some y)
  = fold_left (fun s pair => setAdd s (at_ pair 1)) table [].
Proof.
  unfold potentialValues. cbn [variableValues pairRelations fold_left fst snd].
  unfold JSMap.get at 1. cbn [find option_map].
  rewrite Hsplit. cbn [at_ nth_error jsstring_eqb].
  now rewrite Hxy, String.eqb_refl.
Qed.

(** The rows: a value of the first variable, then a value of the second
    the table pairs it with. *)
Lemma buildTuples_one :
  buildTuples tb [] [Some x; Some y] []
  = flat_map (fun a =>
      flat_map (fun b =>
        if somePair table a b then [[(x, a); (y, b)]] else [])
        (fold_left (fun s pair => setAdd s (at_ pair 1)) table []))
      (fold_left (fun s pair => setAdd s (at_ pair 0)) table []).
Proof.
  cbn [buildTuples]. rewrite potentialValues_left, potentialValues_right.
  apply flat_map_ext. intros a. cbn [isValid forallb app].
  apply flat_map_ext. intros b.
  unfold compatible, tupleGet, pairKey. cbn [JS.template pairRelations].
  unfold JSMap.get. cbn [JSMap.set find fst snd option_map jsstring_eqb].
  rewrite !String.eqb_refl. cbn [option_map snd andb].
  rewrite Bool.andb_true_r.
  destruct (somePair table a b); [|reflexivity].
  rewrite Hxy. unfold labeledTuple. cbn [fold_left fst snd JS.template].
  unfold Obj.set. cbn [JSMap.has existsb]. rewrite Hix. cbn [app existsb fst].
  now rewrite Hxy, Hiy.
Qed.

End OnePair.

Lemma dollar_is_no_index (x : string) :
  JS.startsWith x "$" = true -> Obj.arrayIndex x = None.
Proof.
  unfold JS.startsWith. destruct x as [|d x]; intros H; [reflexivity|].
  destruct (Ascii.eqb d "$") eqn:E;
    [|rewrite TokenFacts.prefix_other_head in H by exact E; discriminate H].
  apply Ascii.eqb_eq in E. now subst d.
Qed.

(** X29.  The rows of one pair binding are its pairs.  For a binding
    named [<x>_<y>_pairs] after two different variables that start with
    the dollar sign and have no underscore, whose values are pairs
    [a,b] of components without a comma, [generateTuples] returns one row
    for each pair, which gives [a] to [x] and [b] to [y], and no other
    row; printed with [Object.values] and [join], the rows are the values
    of the binding again. *)
Theorem generateTuples_gives_back_pairs (x y : string)
    (pairs : list (string * string)) :
  Lexer.mem_char "_" x = false -> Lexer.mem_char "_" y = false ->
  JS.startsWith x "$" = true -> JS.startsWith y "$" = true ->
  x <> y ->
  Forall (fun ab => Lexer.mem_char "," (fst ab) = false
                    /\ Lexer.mem_char "," (snd ab) = false) pairs ->
  let values := map (fun ab => pair_text (Some (fst ab)) (Some (snd ab))) pairs in
  exists rows,
    generateTuples [Var.mk (x ++ "_" ++ y ++ "_pairs") values] = Return rows
    /\ (forall row,
          In row rows <->
          exists a b, In (a, b) pairs /\ row = [(x, Some a); (y, Some b)])
    /\ (forall s,
          In s (map (fun tuple => Some (JS.join (Obj.values tuple) ",")) rows) <->
          In s values).
Proof.
  intros Hx Hy Hdx Hdy Hne Hpairs values.
  assert (Hxy : String.eqb x y = false) by now apply String.eqb_neq.
  assert (Hsplit : JS.split (x ++ "_" ++ y) "_" = [x; y])
    by exact (split_two "_" x y Hx Hy).
  pose proof (dollar_is_no_index x Hdx) as Hix.
  pose proof (dollar_is_no_index y Hdy) as Hiy.
  set (table := map (fun ab : string * string => [fst ab; snd ab]) pairs).
  assert (Hrows : generateTuples [Var.mk (x ++ "_" ++ y ++ "_pairs") values]
                  = Return
                      (flat_map (fun a =>
                         flat_map (fun b =>
                           if somePair table a b then [[(x, a); (y, b)]] else [])
                           (fold_left (fun s pair => setAdd s (at_ pair 1)) table []))
                         (fold_left (fun s pair => setAdd s (at_ pair 0)) table []))).
  { assert (Htb : collectAll (mkTables [] [] [])
                    [Var.mk (x ++ "_" ++ y ++ "_pairs") values]
                  = Return (mkTables [((x ++ "_" ++ y)%string, table)] []
                              [(Some x, [Some y])])).
    { cbn [collectAll]. unfold collect.
      cbn [Var.name Var.value]. rewrite pairs_name_includes.
      rewrite (split_pairs_name x y Hx Hy Hdy). cbn [at_ nth_error JS.template].
      rewrite Hsplit. cbn [at_ nth_error]. unfold values.
      rewrite (splitPairs_pairs pairs Hpairs). fold table.
      cbn [bindE relationGraph pairRelations variableValues JSMap.has existsb
           JSMap.set].
      cbn [jsstring_eqb]. rewrite String.eqb_refl.
      unfold JSMap.get. cbn [find fst snd option_map jsstring_eqb].
      rewrite String.eqb_refl. cbn [option_map snd].
      unfold setAdd. cbn [includes existsb app].
      unfold pairKey. cbn [JS.template]. reflexivity. }
    unfold generateTuples. rewrite Htb. cbn [bindE].
    rewrite (chain_one x y table Hxy Hsplit).
    now rewrite (buildTuples_one x y table Hxy Hsplit Hix Hiy). }
  assert (Hin : forall row,
            In row (flat_map (fun a =>
                      flat_map (fun b =>
                        if somePair table a b then [[(x, a); (y, b)]] else [])
                        (fold_left (fun s pair => setAdd s (at_ pair 1)) table []))
                      (fold_left (fun s pair => setAdd s (at_ pair 0)) table []))
            <-> exists a b, In (a, b) pairs /\ row = [(x, Some a); (y, Some b)]).
  { intros row. rewrite in_flat_map. split.
    - intros (a & _ & Hrow). apply in_flat_map in Hrow as (b & _ & Hrow).
      destruct (somePair table a b) eqn:E; [|destruct Hrow].
      destruct Hrow as [<-|[]].
      apply TuplesFacts.somePair_contains in E as (pair & Hpair & Ha & Hb).
      unfold table in Hpair. apply in_map_iff in Hpair as ([a0 b0] & <- & Hab).
      cbn in Ha, Hb. subst a b. now exists a0, b0.
    - intros (a0 & b0 & Hab & ->).
      assert (Hpair : In [a0; b0] table).
      { unfold table. apply in_map_iff. now exists (a0, b0). }
      exists (Some a0). split.
      { apply fold_setAdd_In. right. now exists [a0; b0]. }
      apply in_flat_map. exists (Some b0). split.
      { apply fold_setAdd_In. right. now exists [a0; b0]. }
      replace (somePair table (Some a0) (Some b0)) with true; [now left|].
      symmetry. apply TuplesFacts.somePair_contains. now exists [a0; b0]. }
  eexists. split; [exact Hrows|]. split; [exact Hin|].
  intros s. rewrite in_map_iff. unfold values. rewrite in_map_iff. split.
  - intros (row & <- & Hrow). apply Hin in Hrow as (a & b & Hab & ->).
    exists (a, b). split; [reflexivity | exact Hab].
  - intros ([a b] & <- & Hab). exists [(x, Some a); (y, Some b)].
    split; [reflexivity|]. apply Hin. now exists a, b.
Qed.

(** The theorem at the pairs of the lion with the mane and the roar. *)
Lemma generateTuples_gives_back_pairs_witness :
  exists rows,
    generateTuples [Var.mk "$x_$y_pairs" (strings ["lion,mane"; "lion,roar"])]
    = Return rows
    /\ (In [("$x", Some "lion"); ("$y", Some "roar")] rows <->
        exists a b,
          In (a, b) [("lion", "mane"); ("lion", "roar")]
          /\ [("$x", Some "lion"); ("$y", Some "roar")]
             = [("$x", Some a); ("$y", Some b)]).
Proof.
  destruct (generateTuples_gives_back_pairs "$x" "$y"
              [("lion", "mane"); ("lion", "roar")]
              eq_refl eq_refl eq_refl eq_refl ltac:(discriminate)
              ltac:(repeat constructor))
    as (rows & Hrows & Hin & _).
  exists rows. split; [exact Hrows | apply Hin].
Defined.

End RowsFacts.

(** ** The projection on the pairs *)

Module ProjectionFacts.

Local Abbreviation names vars := (map Var.name vars).

Lemma overwrite_lookup (vars : VariableContents) (m n : string)
    (values : list jsstring) :
  findVar n (overwrite vars (Some m) values)
  = if String.eqb n m
    then match findVar m vars with
         | Some _ => Some (Var.mk m values)
         | None => None
         end
    else findVar n vars.
Proof.
  unfold findVar. induction vars as [|v vars IH]; cbn [overwrite find jsstring_eqb].
  - now destruct (String.eqb n m).
  - destruct (String.eqb (Var.name v) m) eqn:E; cbn [find Var.name].
    + apply String.eqb_eq in E. rewrite E, (String.eqb_sym m n).
      now destruct (String.eqb n m).
    + rewrite IH. destruct (String.eqb n m) eqn:F; [|reflexivity].
      apply String.eqb_eq in F. subst n. now rewrite E.
Qed.

Lemma overwrite_nth (vars : VariableContents) (n : jsstring) (values : list jsstring)
    (i : nat) (v' : Var.t) :
  nth_error (overwrite vars n values) i = Some v' ->
  exists v, nth_error vars i = Some v /\ Var.name v' = Var.name v.
Proof.
  revert i. induction vars as [|v vars IH]; intros i; cbn [overwrite].
  - destruct i; discriminate.
  - destruct (jsstring_eqb (Some (Var.name v)) n).
    + destruct i as [|i]; cbn [nth_error].
      * intros H. injection H as <-. now exists v.
      * intros H. now exists v'.
    + destruct i as [|i]; cbn [nth_error].
      * intros H. injection H as <-. now exists v.
      * apply IH.
Qed.

Lemma projectFrom_app (indices1 indices2 : list nat) :
  forall vars,
    projectFrom (indices1 ++ indices2) vars
    = bindE (projectFrom indices1 vars) (projectFrom indices2).
Proof.
  induction indices1 as [|i indices1 IH]; intros vars; cbn [app projectFrom bindE];
    [reflexivity|].
  destruct (nth_error vars i) as [pairVar|]; [|apply IH].
  destruct (JS.includes (Var.name pairVar) "_pairs"); [|apply IH].
  destruct (projectPair vars pairVar) as [vars1|m]; cbn [bindE]; [apply IH | reflexivity].
Qed.

(** Indices that point at no pair binding leave the bindings alone. *)
Lemma projectFrom_skip (indices : list nat) (vars : VariableContents) :
  (forall i v, In i indices -> nth_error vars i = Some v ->
               JS.includes (Var.name v) "_pairs" = false) ->
  projectFrom indices vars = Return vars.
Proof.
  induction indices as [|i indices IH]; intros H; cbn [projectFrom]; [reflexivity|].
  destruct (nth_error vars i) as [v|] eqn:E.
  - rewrite (H i v (or_introl eq_refl) E). apply IH.
    intros j w Hj. apply H. now right.
  - apply IH. intros j w Hj. apply H. now right.
Qed.

(** The projection of a pair binding with a well-formed name and
    well-formed values: its first components go to its first variable and
    its second components to its second. *)
Lemma projectPair_pairs (vars : VariableContents) (x y : string)
    (pairs : list (string * string)) :
  Lexer.mem_char "_" x = false -> Lexer.mem_char "_" y = false ->
  JS.startsWith y "$" = true ->
  Forall (fun ab => Lexer.mem_char "," (fst ab) = false
                    /\ Lexer.mem_char "," (snd ab) = false) pairs ->
  projectPair vars
    (Var.mk (x ++ "_" ++ y ++ "_pairs")
       (map (fun ab => pair_text (Some (fst ab)) (Some (snd ab))) pairs))
  = Return
      (overwrite
         (overwrite vars (Some x)
            (fold_left (fun s pair => Tuples.setAdd s (Tuples.at_ pair 0))
               (map (fun ab : string * string => [fst ab; snd ab]) pairs) []))
         (Some y)
         (fold_left (fun s pair => Tuples.setAdd s (Tuples.at_ pair 1))
            (map (fun ab : string * string => [fst ab; snd ab]) pairs) [])).
Proof.
  intros Hx Hy Hdy Hpairs. unfold projectPair. cbn [Var.name Var.value].
  rewrite (RowsFacts.split_pairs_name x y Hx Hy Hdy).
  cbn [Tuples.at_ nth_error JS.template].
  change ("_" ++ y)%string with (String "_"%char y).
  rewrite (RowsFacts.split_two "_" x y Hx Hy). cbn [Tuples.at_ nth_error].
  now rewrite (RowsFacts.splitPairs_pairs pairs Hpairs).
Qed.

(** X30.  The projection on the pairs.  When the combined bindings hold
    one pair binding, named [<x>_<y>_pairs] after variables without an
    underscore and with pairs [a,b] of components without a comma, among
    bindings that are no pair bindings, the projection keeps the names and
    the order of the bindings, gives [y], if it is bound, the second
    components of the pairs as its values and [x], if it is bound, the
    first components, and leaves every other binding, the pair binding
    among them, as it is. *)
Theorem projection_follows_pairs (x y : string) (pairs : list (string * string))
    (before after : VariableContents) :
  Lexer.mem_char "_" x = false -> Lexer.mem_char "_" y = false ->
  JS.startsWith y "$" = true ->
  Forall (fun ab => Lexer.mem_char "," (fst ab) = false
                    /\ Lexer.mem_char "," (snd ab) = false) pairs ->
  plain before -> plain after ->
  let pairVar :=
    Var.mk (x ++ "_" ++ y ++ "_pairs")
      (map (fun ab => pair_text (Some (fst ab)) (Some (snd ab))) pairs) in
  let combinedVariables := before ++ pairVar :: after in
  exists filteredVariables,
    project combinedVariables = Return filteredVariables
    /\ names filteredVariables = names combinedVariables
    /\ forall n v,
         findVar n filteredVariables = Some v ->
         (n = y ->
          forall s, In s (Var.value v) <-> exists a b, In (a, b) pairs /\ s = Some b)
         /\ (n = x -> n <> y ->
             forall s, In s (Var.value v) <-> exists a b, In (a, b) pairs /\ s = Some a)
         /\ (n <> x -> n <> y -> findVar n combinedVariables = Some v).
Proof.
  intros Hx Hy Hdy Hpairs Hbefore Hafter pairVar combinedVariables.
  set (table := map (fun ab : string * string => [fst ab; snd ab]) pairs).
  set (firsts := fold_left (fun s pair => Tuples.setAdd s (Tuples.at_ pair 0)) table []).
  set (seconds := fold_left (fun s pair => Tuples.setAdd s (Tuples.at_ pair 1)) table []).
  set (filtered := overwrite (overwrite combinedVariables (Some x) firsts)
                     (Some y) seconds).
  assert (Hproject : project combinedVariables = Return filtered).
  { unfold project, combinedVariables.
    rewrite length_app. cbn [List.length]. rewrite seq_app. cbn [seq Nat.add].
    rewrite projectFrom_app. fold combinedVariables.
    rewrite projectFrom_skip.
    2:{ intros i v Hi Hv. apply in_seq in Hi. unfold combinedVariables in Hv.
        rewrite nth_error_app1 in Hv by lia. apply nth_error_In in Hv.
        exact (proj1 (Forall_forall _ _) Hbefore v Hv). }
    cbn [bindE projectFrom].
    replace (nth_error combinedVariables (List.length before)) with (Some pairVar).
    2:{ unfold combinedVariables. rewrite nth_error_app2 by lia.
        now rewrite Nat.sub_diag. }
    unfold pairVar at 1. cbn [Var.name]. rewrite RowsFacts.pairs_name_includes.
    unfold pairVar. rewrite (projectPair_pairs _ x y pairs Hx Hy Hdy Hpairs).
    cbn [bindE]. fold table firsts seconds pairVar filtered.
    apply projectFrom_skip. intros i v' Hi Hv'. apply in_seq in Hi.
    unfold filtered in Hv'.
    apply overwrite_nth in Hv' as (v1 & Hv1 & ->).
    apply overwrite_nth in Hv1 as (v & Hv & ->).
    unfold combinedVariables in Hv. rewrite nth_error_app2 in Hv by lia.
    destruct (i - List.length before) as [|j] eqn:E; [lia|].
    cbn [nth_error] in Hv. apply nth_error_In in Hv.
    exact (proj1 (Forall_forall _ _) Hafter v Hv). }
  exists filtered. split; [exact Hproject|]. split.
  { unfold filtered. now rewrite !EvaluatorFacts.overwrite_names. }
  assert (Hfirsts : forall s, In s firsts <-> exists a b, In (a, b) pairs /\ s = Some a).
  { intros s. unfold firsts. rewrite RowsFacts.fold_setAdd_In. split.
    - intros [[]|(pair & Hpair & Hs)]. unfold table in Hpair.
      apply in_map_iff in Hpair as ([a b] & <- & Hab). cbn in Hs. now exists a, b.
    - intros (a & b & Hab & ->). right. exists [a; b]. split; [|reflexivity].
      unfold table. apply in_map_iff. now exists (a, b). }
  assert (Hseconds : forall s, In s seconds <-> exists a b, In (a, b) pairs /\ s = Some b).
  { intros s. unfold seconds. rewrite RowsFacts.fold_setAdd_In. split.
    - intros [[]|(pair & Hpair & Hs)]. unfold table in Hpair.
      apply in_map_iff in Hpair as ([a b] & <- & Hab). cbn in Hs. now exists a, b.
    - intros (a & b & Hab & ->). right. exists [a; b]. split; [|reflexivity].
      unfold table. apply in_map_iff. now exists (a, b). }
  intros n v. unfold filtered. rewrite !overwrite_lookup.
  destruct (String.eqb n y) eqn:Ey.
  - apply String.eqb_eq in Ey. subst n.
    destruct (if String.eqb y x then _ else _); [|discriminate].
    intros H. injection H as <-. cbn [Var.value].
    split; [intros _; exact Hseconds|]. split; intros; congruence.
  - apply String.eqb_neq in Ey. destruct (String.eqb n x) eqn:Ex.
    + apply String.eqb_eq in Ex. subst n.
      destruct (findVar x combinedVariables); [|discriminate].
      intros H. injection H as <-. cbn [Var.value].
      split; [intros; congruence|]. split; [intros _ _; exact Hfirsts | intros; congruence].
    + apply String.eqb_neq in Ex. intros H.
      split; [intros; congruence|]. split; [intros; congruence | intros _ _; exact H].
Qed.

(** The theorem at the lion and the cat for [$x], followed by the pairs
    of the lion with the mane and the roar: the lion is left for [$x]. *)
Lemma projection_follows_pairs_witness :
  exists filteredVariables,
    project [Var.mk "$x" (strings ["lion"; "cat"]);
             Var.mk "$x_$y_pairs" (strings ["lion,mane"; "lion,roar"])]
    = Return filteredVariables
    /\ findVar "$x" filteredVariables = Some (Var.mk "$x" (strings ["lion"])).
Proof.
  destruct (projection_follows_pairs "$x" "$y" [("lion", "mane"); ("lion", "roar")]
              [Var.mk "$x" (strings ["lion"; "cat"])] []
              eq_refl eq_refl eq_refl ltac:(repeat constructor)
              ltac:(repeat constructor) ltac:(constructor))
    as (filteredVariables & Hproject & _).
  exists filteredVariables. split; [exact Hproject|].
  cbv in Hproject. injection Hproject as <-. reflexivity.
Defined.

End ProjectionFacts.
